(** * MFUPSI: finite-field solver, field arithmetic, PRF helpers and
    derived parameters

    A shallow embedding of [utils.h] (class [Utils]), [matrix.h] (class
    [Matrix]) and [config.h] ([Config::ExperimentConfig]) of the MFUPSI
    benchmark, with the properties the specification states about them.

    Conventions.
    - A [uint64_t] or [size_t] is a [Z] in [[0, 2^64)]; the 128-bit
      temporaries of the modular helpers are [Z] with their reduction modulo
      [2^128] written out.  The predicate [u64] is the typing invariant of a
      C++ argument.
    - [std::vector] is a [list]; [v[i]] is [nth i v 0] and the assignment
      [v[i] = x] is stdpp's [<[i:=x]> v].  A [size_t] loop counter is a
      natural number.  The [int] variables of the solver ([best_row],
      [leading_col], the row counter of back substitution) hold the [size_t]
      they are assigned reduced to 32 bits in two's complement ([to_int]),
      and are converted back when they are used as a subscript or as a loop
      bound ([size_of_int]).
    - The functions of [Utils] and [Matrix] are total: [% q] is [Z.modulo]
      and a read is [nth] with default [0].  They describe the code for a
      modulus [q >= 1].  The integer division by [q = 0] traps; the
      definitions ending in [_checked] repeat the solver with this outcome
      made explicit ([None]), and agree with the total ones for [q <> 0].
    - A [double] is a primitive binary64 float; its operations are those of
      the processor, rounding to nearest. *)

From Stdlib Require Import ZArith List Lia Znumtheory.
From Stdlib Require Zmod.ZmodInv.
From Stdlib Require QArith Qround.
From Stdlib Require Floats.PrimFloat Floats.SpecFloat Floats.FloatOps.
From stdpp Require Import list.
Import ListNotations.

Local Open Scope Z_scope.

(** ** Machine integers *)

Definition two64 : Z := 2 ^ 64.
Definition two128 : Z := 2 ^ 128.

Definition u64 (x : Z) : Prop := 0 <= x < two64.

Definition two31 : Z := 2 ^ 31.
Definition two32 : Z := 2 ^ 32.

(** Conversion of a [size_t] to [int] (the assignments [best_row = row],
    [leading_col = j] and the casts [(int)pivot_row], [(int)d1]): the value
    modulo [2^32], read in two's complement. *)
Definition to_int (n : Z) : Z := (n + two31) mod two32 - two31.

(** Conversion of an [int] to [size_t], where it is used as a subscript of
    a vector of [len] elements or as the start of a loop that runs up to
    [len].  A negative [int] becomes [2^64 + k], at least [2^64 - 2^31]; a
    vector has fewer than [2^63] elements, so this value is past the end.
    The lists of the model have no such limit: the maximum keeps the value
    past the end there too. *)
Definition size_of_int (k : Z) (len : nat) : nat :=
  if k <? 0 then Nat.max len (Z.to_nat (k mod two64)) else Z.to_nat k.

(** ** Loops *)

(** [for (i = lo; i < hi; i++) s = body i s]. *)
Definition for_range {St : Type} (lo hi : nat) (body : nat -> St -> St) (s : St) : St :=
  fold_left (fun s i => body i s) (seq lo (hi - lo)) s.

(** A [for] loop over the indices [idx] with an extra loop condition [cond]
    on the state: the loop stops at the first index where [cond] fails. *)
Fixpoint for_while {St : Type} (cond : St -> bool) (body : nat -> St -> St)
    (idx : list nat) (s : St) : St :=
  match idx with
  | [] => s
  | i :: idx' => if cond s then for_while cond body idx' (body i s) else s
  end.

(** ** [Utils]: field arithmetic *)

Module Utils.

(** [hash_partition]: xor with the key, xor-shift, multiply, xor-shift. *)
Definition PRIME : Z := 11400714819323198485.

Definition hash_partition (k1 element : Z) : Z :=
  let h := Z.lxor k1 element in
  let h := Z.lxor h (Z.shiftr h 33) in
  let h := (h * PRIME) mod two64 in
  let h := Z.lxor h (Z.shiftr h 33) in
  h.

(** [prf_value]: written out a second time in the source, with the
    multiplier as a literal. *)
Definition prf_value (key input : Z) : Z :=
  let h := Z.lxor key input in
  let h := Z.lxor h (Z.shiftr h 33) in
  let h := (h * 11400714819323198485) mod two64 in
  let h := Z.lxor h (Z.shiftr h 33) in
  h.

(** [sparse_vector]: a [std::vector<uint8_t>] of [dimension] zeros, then the
    band is written at [pos + i].  [dimension - band_width + 1], [element + i]
    and [pos + i] are 64-bit unsigned operations; the stored value is
    narrowed to 8 bits. *)
Definition sparse_vector (k2 element : Z) (dimension band_width : nat) : list Z :=
  let v := repeat 0 dimension in
  let h_pos := hash_partition k2 element in
  let pos := h_pos mod ((Z.of_nat dimension - Z.of_nat band_width + 1) mod two64) in
  for_range 0 band_width
    (fun i v =>
       let h := hash_partition (Z.lxor k2 ((element + Z.of_nat i) mod two64)) element in
       <[Z.to_nat ((pos + Z.of_nat i) mod two64) := (h mod 2) mod 2 ^ 8]> v)
    v.

(** The three modular helpers widen to [__uint128_t] before reducing. *)
Definition add_mod (a b q : Z) : Z :=
  let sum := (a + b) mod two128 in
  (sum mod q) mod two64.

Definition sub_mod (a b q : Z) : Z :=
  let result := (a + ((q - b) mod two128)) mod two128 in
  (result mod q) mod two64.

Definition mul_mod (a b q : Z) : Z :=
  let product := (a * b) mod two128 in
  (product mod q) mod two64.

(** The [while (exp > 0)] loop of [fast_pow] on the state
    [(result, b, exp)]; [exp] is a [uint64_t], so 64 iterations shift it
    down to zero. *)
Fixpoint fast_pow_loop (fuel : nat) (result b exp md : Z) : Z :=
  match fuel with
  | O => result
  | S fuel' =>
      if 0 <? exp then
        let result' :=
          if negb (Z.land exp 1 =? 0) then ((result * b) mod two128) mod md else result in
        let b' := ((b * b) mod two128) mod md in
        fast_pow_loop fuel' result' b' (Z.shiftr exp 1) md
      else result
  end.

Definition fast_pow (base exp q : Z) : Z :=
  if q =? 1 then 0
  else fast_pow_loop 64 1 (base mod q) exp q mod two64.

(** [q - 2] is a 64-bit unsigned subtraction. *)
Definition mod_inverse (a q : Z) : Z :=
  if a =? 0 then 0
  else fast_pow a ((q - 2) mod two64) q.

End Utils.

(** ** [Matrix]: Gaussian elimination over Z_q and matrix addition *)

Module Matrix.
Import Utils.

Abbreviation VectorType := (list Z) (only parsing).
Abbreviation MatrixType := (list (list Z)) (only parsing).

(** [A[i][j]] and [A[i][j] = x]. *)
Definition at2 (A : MatrixType) (i j : nat) : Z := nth j (nth i A []) 0.

Definition set2 (A : MatrixType) (i j : nat) (x : Z) : MatrixType :=
  <[i := <[j := x]> (nth i A [])]> A.

(** [std::swap(l[i], l[j])]. *)
Definition swap_at {T : Type} (d : T) (l : list T) (i j : nat) : list T :=
  <[j := nth i l d]> (<[i := nth j l d]> l).

(** Step 1: the augmented array [[M | y]], zero-initialised and filled. *)
Definition build_augmented (M : MatrixType) (y : VectorType) (m d1 : nat) : MatrixType :=
  let augmented := repeat (repeat 0 (d1 + 1)%nat) m in
  for_range 0 m
    (fun i aug =>
       let aug := for_range 0 d1 (fun j aug => set2 aug i j (at2 M i j)) aug in
       set2 aug i d1 (nth i y 0))
    augmented.

(** Step 2.1, the search loop: the first row at or below [pivot_row] with
    a nonzero entry in [col], if there is one. *)
Definition find_pivot (aug : MatrixType) (col pivot_row m : nat) : option nat :=
  find (fun row => negb (at2 aug row col =? 0)) (seq pivot_row (m - pivot_row)).

(** The [int] variable [best_row] after the search: [-1] when no row was
    found, else the row found, converted to [int]. *)
Definition best_row (aug : MatrixType) (col pivot_row m : nat) : Z :=
  match find_pivot aug col pivot_row m with
  | None => -1
  | Some row => to_int (Z.of_nat row)
  end.

(** Step 2.3: scale the pivot row from [col] to the augmented column. *)
Definition normalize_row (q : Z) (d1 col pivot_row : nat) (aug : MatrixType) : MatrixType :=
  let pivot := at2 aug pivot_row col in
  let pivot_inv := mod_inverse pivot q in
  for_range col (d1 + 1)
    (fun j aug => set2 aug pivot_row j (mul_mod (at2 aug pivot_row j) pivot_inv q))
    aug.

(** Step 2.4: subtract [factor] times the pivot row from every row below. *)
Definition eliminate_below (q : Z) (m d1 col pivot_row : nat) (aug : MatrixType) : MatrixType :=
  for_range (pivot_row + 1) m
    (fun i aug =>
       let factor := at2 aug i col in
       if factor =? 0 then aug
       else
         for_range col (d1 + 1)
           (fun j aug =>
              let term := mul_mod factor (at2 aug pivot_row j) q in
              set2 aug i j (sub_mod (at2 aug i j) term q))
           aug)
    aug.

(** Steps 2.2 to 2.4 once [best_row] is found: swap, normalise, eliminate. *)
Definition pivot_step (q : Z) (m d1 col pivot_row best_row : nat) (aug : MatrixType)
    : MatrixType :=
  let aug := swap_at [] aug pivot_row best_row in
  let aug := normalize_row q d1 col pivot_row aug in
  eliminate_below q m d1 col pivot_row aug.

(** One iteration of the column loop on the state [(pivot_row, augmented)];
    the [continue] of [best_row == -1] leaves the state as it is. *)
Definition forward_step (q : Z) (m d1 col : nat) (st : nat * MatrixType) : nat * MatrixType :=
  let '(pivot_row, aug) := st in
  let best_row := best_row aug col pivot_row m in
  if best_row =? -1 then (pivot_row, aug)
  else
    (S pivot_row,
     pivot_step q m d1 col pivot_row (size_of_int best_row (length aug)) aug).

(** [for (col = 0; col < d1 && pivot_row < m; col++)]. *)
Definition forward_elimination (q : Z) (m d1 : nat) (aug : MatrixType) : nat * MatrixType :=
  for_while (fun st => (fst st <? m)%nat) (forward_step q m d1) (seq 0 d1) (0%nat, aug).

(** Step 3.1, the search loop: the first column of row [i] with a nonzero
    entry, if there is one. *)
Definition find_leading (aug : MatrixType) (i d1 : nat) : option nat :=
  find (fun j => negb (at2 aug i j =? 0)) (seq 0 d1).

(** The [int] variable [leading_col] after the search: [-1] when the row
    is zero, else the column found, converted to [int]. *)
Definition leading_col (aug : MatrixType) (i d1 : nat) : Z :=
  match find_leading aug i d1 with
  | None => -1
  | Some j => to_int (Z.of_nat j)
  end.

(** One iteration of the back-substitution loop on [result]; the inner
    loop is [for (size_t j = leading_col + 1; j < d1; j++)], the sum
    [leading_col + 1] being that of two [int]s ([leading_col] is below
    [2^31 - 1] as soon as [d1] is at most [2^31]). *)
Definition back_step (q : Z) (d1 : nat) (aug : MatrixType) (i : nat)
    (result : VectorType) : VectorType :=
  let leading_col := leading_col aug i d1 in
  if leading_col =? -1 then result
  else
    let sum :=
      for_range (size_of_int (leading_col + 1) d1) d1
        (fun j sum =>
           let term := mul_mod (at2 aug i j) (nth j result 0) q in
           sub_mod sum term q)
        (at2 aug i d1) in
    let pivot := at2 aug i (size_of_int leading_col (length (nth i aug []))) in
    if pivot =? 0 then result
    else
      let pivot_inv := mod_inverse pivot q in
      <[size_of_int leading_col (length result) := mul_mod sum pivot_inv q]> result.

(** [for (int i = std::min((int)pivot_row - 1, (int)d1 - 1); i >= 0; i--)]:
    the rows [start], ..., [0], none when [start] is negative.  The two
    differences are those of [int]s; they are taken in [Z], which is the
    same except at [-2^31 - 1], a negative [start] either way. *)
Definition back_substitution (q : Z) (d1 pivot_row : nat) (aug : MatrixType) : VectorType :=
  let start := Z.min (to_int (Z.of_nat pivot_row) - 1) (to_int (Z.of_nat d1) - 1) in
  fold_left (fun result i => back_step q d1 aug i result)
    (rev (seq 0 (Z.to_nat (start + 1))))
    (repeat 0 d1).

Definition gaussian_elimination (M : MatrixType) (y : VectorType) (q : Z) : VectorType :=
  let m := length M in
  if (m =? 0)%nat then []
  else
    let d1 := length (nth 0%nat M []) in
    let augmented := build_augmented M y m d1 in
    let '(pivot_row, augmented) := forward_elimination q m d1 augmented in
    back_substitution q d1 pivot_row augmented.

(** [matrix_add]: [C[i][j] = add_mod(A[i][j], B[i][j], q)], the shape taken
    from [A]. *)
Definition matrix_add (A B : MatrixType) (q : Z) : MatrixType :=
  let rows := length A in
  let cols := length (nth 0%nat A []) in
  let C := repeat (repeat 0 cols) rows in
  for_range 0 rows
    (fun i C =>
       for_range 0 cols
         (fun j C => set2 C i j (add_mod (at2 A i j) (at2 B i j) q))
         C)
    C.

(** [matrix_sub]: [C[i][j] = sub_mod(A[i][j], B[i][j], q)]. *)
Definition matrix_sub (A B : MatrixType) (q : Z) : MatrixType :=
  let rows := length A in
  let cols := length (nth 0%nat A []) in
  let C := repeat (repeat 0 cols) rows in
  for_range 0 rows
    (fun i C =>
       for_range 0 cols
         (fun j C => set2 C i j (sub_mod (at2 A i j) (at2 B i j) q))
         C)
    C.

(** [matrix_multiply]: [C[i][j]] accumulates [A[i][l] * B[l][j]] over [l],
    reducing at every step. *)
Definition matrix_multiply (A B : MatrixType) (q : Z) : MatrixType :=
  let n := length A in
  let m := length (nth 0%nat A []) in
  let k := length (nth 0%nat B []) in
  let C := repeat (repeat 0 k) n in
  for_range 0 n
    (fun i C =>
       for_range 0 k
         (fun j C =>
            let sum :=
              for_range 0 m
                (fun l sum =>
                   let prod := mul_mod (at2 A i l) (at2 B l j) q in
                   add_mod sum prod q)
                0 in
            set2 C i j sum)
         C)
    C.

(** [vector_matrix_multiply]: the row vector [v] times [M]; a [v] whose
    size is not the number of rows of [M] gives the empty vector. *)
Definition vector_matrix_multiply (v : VectorType) (M : MatrixType) (q : Z) : VectorType :=
  let m := length M in
  let n := length (nth 0%nat M []) in
  if negb (length v =? m)%nat then []
  else
    let result := repeat 0 n in
    for_range 0 n
      (fun j result =>
         let sum :=
           for_range 0 m
             (fun i sum =>
                let prod := mul_mod (nth i v 0) (at2 M i j) q in
                add_mod sum prod q)
             0 in
         <[j := sum]> result)
      result.

(** [zero_matrix]. *)
Definition zero_matrix (rows cols : nat) : MatrixType :=
  repeat (repeat 0 cols) rows.

(** [transpose]: [MT[j][i] = M[i][j]]. *)
Definition transpose (M : MatrixType) : MatrixType :=
  let rows := length M in
  let cols := length (nth 0%nat M []) in
  let MT := repeat (repeat 0 rows) cols in
  for_range 0 rows
    (fun i MT => for_range 0 cols (fun j MT => set2 MT j i (at2 M i j)) MT)
    MT.

End Matrix.

Import Utils Matrix.

(** ** Division by zero *)

(** The integer division behind [x % q] traps for [q = 0] and the run ends
    there.  The definitions below repeat [mul_mod], [sub_mod], [fast_pow],
    [mod_inverse] and the solver with this outcome made explicit: [None] is
    the trap, [Some r] the normal return of [r].  Steps that do no
    arithmetic are those of [Matrix]. *)

Definition bind {A B : Type} (x : option A) (f : A -> option B) : option B :=
  match x with
  | Some a => f a
  | None => None
  end.

Notation "'let?' x ':=' m 'in' f" := (bind m (fun x => f))
  (at level 10, x name, m at level 200, f at level 200, only parsing).

(** [x % q]. *)
Definition rem (x q : Z) : option Z :=
  if q =? 0 then None else Some (x mod q).

Definition for_range_checked {St : Type} (lo hi : nat) (body : nat -> St -> option St)
    (s : St) : option St :=
  fold_left (fun s i => bind s (body i)) (seq lo (hi - lo)) (Some s).

Fixpoint for_while_checked {St : Type} (cond : St -> bool) (body : nat -> St -> option St)
    (idx : list nat) (s : St) : option St :=
  match idx with
  | [] => Some s
  | i :: idx' =>
      if cond s then bind (body i s) (for_while_checked cond body idx') else Some s
  end.

Definition sub_mod_checked (a b q : Z) : option Z :=
  let result := (a + ((q - b) mod two128)) mod two128 in
  let? r := rem result q in Some (r mod two64).

Definition mul_mod_checked (a b q : Z) : option Z :=
  let product := (a * b) mod two128 in
  let? r := rem product q in Some (r mod two64).

Fixpoint fast_pow_loop_checked (fuel : nat) (result b exp md : Z) : option Z :=
  match fuel with
  | O => Some result
  | S fuel' =>
      if 0 <? exp then
        let? result' :=
          (if negb (Z.land exp 1 =? 0) then rem ((result * b) mod two128) md
           else Some result) in
        let? b' := rem ((b * b) mod two128) md in
        fast_pow_loop_checked fuel' result' b' (Z.shiftr exp 1) md
      else Some result
  end.

Definition fast_pow_checked (base exp q : Z) : option Z :=
  if q =? 1 then Some 0
  else
    let? b := rem base q in
    let? result := fast_pow_loop_checked 64 1 b exp q in
    Some (result mod two64).

Definition mod_inverse_checked (a q : Z) : option Z :=
  if a =? 0 then Some 0
  else fast_pow_checked a ((q - 2) mod two64) q.

Definition normalize_row_checked (q : Z) (d1 col pivot_row : nat) (aug : MatrixType)
    : option MatrixType :=
  let pivot := at2 aug pivot_row col in
  let? pivot_inv := mod_inverse_checked pivot q in
  for_range_checked col (d1 + 1)
    (fun j aug =>
       let? x := mul_mod_checked (at2 aug pivot_row j) pivot_inv q in
       Some (set2 aug pivot_row j x))
    aug.

Definition eliminate_below_checked (q : Z) (m d1 col pivot_row : nat) (aug : MatrixType)
    : option MatrixType :=
  for_range_checked (pivot_row + 1) m
    (fun i aug =>
       let factor := at2 aug i col in
       if factor =? 0 then Some aug
       else
         for_range_checked col (d1 + 1)
           (fun j aug =>
              let? term := mul_mod_checked factor (at2 aug pivot_row j) q in
              let? x := sub_mod_checked (at2 aug i j) term q in
              Some (set2 aug i j x))
           aug)
    aug.

Definition pivot_step_checked (q : Z) (m d1 col pivot_row best_row : nat) (aug : MatrixType)
    : option MatrixType :=
  let aug := swap_at [] aug pivot_row best_row in
  let? aug := normalize_row_checked q d1 col pivot_row aug in
  eliminate_below_checked q m d1 col pivot_row aug.

Definition forward_step_checked (q : Z) (m d1 col : nat) (st : nat * MatrixType)
    : option (nat * MatrixType) :=
  let '(pivot_row, aug) := st in
  let best_row := best_row aug col pivot_row m in
  if best_row =? -1 then Some (pivot_row, aug)
  else
    let? aug' :=
      pivot_step_checked q m d1 col pivot_row (size_of_int best_row (length aug)) aug in
    Some (S pivot_row, aug').

Definition forward_elimination_checked (q : Z) (m d1 : nat) (aug : MatrixType)
    : option (nat * MatrixType) :=
  for_while_checked (fun st => (fst st <? m)%nat) (forward_step_checked q m d1)
    (seq 0 d1) (0%nat, aug).

Definition back_step_checked (q : Z) (d1 : nat) (aug : MatrixType) (i : nat)
    (result : VectorType) : option VectorType :=
  let leading_col := leading_col aug i d1 in
  if leading_col =? -1 then Some result
  else
    let? sum :=
      for_range_checked (size_of_int (leading_col + 1) d1) d1
        (fun j sum =>
           let? term := mul_mod_checked (at2 aug i j) (nth j result 0) q in
           sub_mod_checked sum term q)
        (at2 aug i d1) in
    let pivot := at2 aug i (size_of_int leading_col (length (nth i aug []))) in
    if pivot =? 0 then Some result
    else
      let? pivot_inv := mod_inverse_checked pivot q in
      let? x := mul_mod_checked sum pivot_inv q in
      Some (<[size_of_int leading_col (length result) := x]> result).

Definition back_substitution_checked (q : Z) (d1 pivot_row : nat) (aug : MatrixType)
    : option VectorType :=
  let start := Z.min (to_int (Z.of_nat pivot_row) - 1) (to_int (Z.of_nat d1) - 1) in
  fold_left (fun result i => bind result (back_step_checked q d1 aug i))
    (rev (seq 0 (Z.to_nat (start + 1))))
    (Some (repeat 0 d1)).

Definition gaussian_elimination_checked (M : MatrixType) (y : VectorType) (q : Z)
    : option VectorType :=
  let m := length M in
  if (m =? 0)%nat then Some []
  else
    let d1 := length (nth 0%nat M []) in
    let augmented := build_augmented M y m d1 in
    let? st := forward_elimination_checked q m d1 augmented in
    back_substitution_checked q d1 (fst st) (snd st).

(** ** [Config]: derived parameters *)

Module Config.
Import Floats.PrimFloat Floats.SpecFloat Floats.FloatOps.

Record ExperimentConfig : Set := {
  num_clients : Z;
  dataset_size : Z;
  num_updates : Z;
  num_queries : Z;
  partition_size : Z;
  expansion_factor : float;
  pir_dimension : Z;
  lwe_dimension : Z;
  modulus : Z;
  band_width : Z;
  num_partitions : Z;
  pir_fold_size : float
}.

(** Conversion of a [size_t] to [double]: the nearest binary64 value, ties
    to even. *)
Definition double_of_size (n : Z) : float :=
  SF2Prim (binary_normalize prec emax n 0 false).

(** [static_cast<size_t>(std::ceil(x))]: the least integer not below [x],
    which is a binary64 value itself; the conversion to [size_t] is defined
    when it lies in [[0, 2^64)] ([None] otherwise, and for an infinite or
    NaN [x]).  A finite [x] is [m * 2^e] with the sign [s]. *)
Definition size_of_ceil (x : float) : option Z :=
  match Prim2SF x with
  | S754_zero _ => Some 0
  | S754_finite s m e =>
      let v := if s then Z.neg m else Z.pos m in
      let c := if 0 <=? e then v * 2 ^ e else - ((- v) / 2 ^ (- e)) in
      if (0 <=? c) && (c <? two64) then Some c else None
  | S754_infinity _ => None
  | S754_nan => None
  end.

(** [static_cast<size_t>(x)]: truncation toward zero, defined when the
    truncated value lies in [[0, 2^64)]. *)
Definition size_of_double (x : float) : option Z :=
  match Prim2SF x with
  | S754_zero _ => Some 0
  | S754_finite s m e =>
      let v := if s then Z.neg m else Z.pos m in
      let t := if 0 <=? e then v * 2 ^ e else Z.quot v (2 ^ (- e)) in
      if (0 <=? t) && (t <? two64) then Some t else None
  | S754_infinity _ => None
  | S754_nan => None
  end.

(** The argument of [std::ceil]; the operators associate to the left and
    every [size_t] operand is converted to [double]. *)
Definition partition_quotient (cfg : ExperimentConfig) : float :=
  ((1 + expansion_factor cfg) * double_of_size (dataset_size cfg)
   * double_of_size (num_clients cfg) / double_of_size (partition_size cfg))%float.

(** The exponent [1.0 / pir_dimension]. *)
Definition fold_exponent (pir_dimension : Z) : float :=
  (1 / double_of_size pir_dimension)%float.

(** The assignments [num_partitions = b; pir_fold_size = fold]. *)
Definition set_derived (cfg : ExperimentConfig) (b : Z) (fold : float) : ExperimentConfig :=
  {| num_clients := num_clients cfg;
     dataset_size := dataset_size cfg;
     num_updates := num_updates cfg;
     num_queries := num_queries cfg;
     partition_size := partition_size cfg;
     expansion_factor := expansion_factor cfg;
     pir_dimension := pir_dimension cfg;
     lwe_dimension := lwe_dimension cfg;
     modulus := modulus cfg;
     band_width := band_width cfg;
     num_partitions := b;
     pir_fold_size := fold |}.

Section DerivedParams.

(** [std::pow] of the C library. *)
Variable pow : float -> float -> float.

(** [compute_derived_params]; [None] when the conversion of the ceiling to
    [size_t] is undefined. *)
Definition compute_derived_params (cfg : ExperimentConfig) : option ExperimentConfig :=
  match size_of_ceil (partition_quotient cfg) with
  | None => None
  | Some b =>
      Some (set_derived cfg b (pow (double_of_size b) (fold_exponent (pir_dimension cfg))))
  end.

(** The three presets.  The derived fields are not initialised before
    [compute_derived_params] sets them; [0] stands for their content.
    [1 << 16] and [1 << 20] are [int] shifts, [numeric_limits<uint64_t>::max()]
    is [2^64 - 1]. *)
Definition get_default_config : option ExperimentConfig :=
  let dataset_size := 2 ^ 16 in
  compute_derived_params
    {| num_clients := 10;
       dataset_size := dataset_size;
       num_updates := dataset_size / 100;
       num_queries := 100;
       partition_size := 512;
       expansion_factor := 0x1.999999999999ap-3%float;
       pir_dimension := 2;
       lwe_dimension := 1024;
       modulus := (two64 - 1) - 58;
       band_width := 80;
       num_partitions := 0;
       pir_fold_size := 0%float |}.

Definition get_test_config : option ExperimentConfig :=
  compute_derived_params
    {| num_clients := 3;
       dataset_size := 1024;
       num_updates := 50;
       num_queries := 10;
       partition_size := 128;
       expansion_factor := 0x1.999999999999ap-3%float;
       pir_dimension := 2;
       lwe_dimension := 512;
       modulus := (Z.shiftl 1 32 mod two64) - 5;
       band_width := 30;
       num_partitions := 0;
       pir_fold_size := 0%float |}.

Definition get_performance_config : option ExperimentConfig :=
  let dataset_size := 2 ^ 20 in
  match size_of_double (double_of_size dataset_size * 0x1.999999999999ap-5)%float with
  | None => None
  | Some num_updates =>
      compute_derived_params
        {| num_clients := 50;
           dataset_size := dataset_size;
           num_updates := num_updates;
           num_queries := 1000;
           partition_size := 1024;
           expansion_factor := 0x1.999999999999ap-3%float;
           pir_dimension := 3;
           lwe_dimension := 2048;
           modulus := (two64 - 1) - 58;
           band_width := 100;
           num_partitions := 0;
           pir_fold_size := 0%float |}
  end.

End DerivedParams.

(** The value of a finite [double], as a rational. *)
Definition double_value (x : float) : option QArith_base.Q :=
  match Prim2SF x with
  | S754_zero _ => Some (QArith_base.inject_Z 0)
  | S754_finite s m e =>
      let v := if s then Z.neg m else Z.pos m in
      Some (if 0 <=? e then QArith_base.inject_Z (v * 2 ^ e)
            else QArith_base.Qmake v (Z.to_pos (2 ^ (- e))))
  | S754_infinity _ => None
  | S754_nan => None
  end.

(** The quotient [(1 + epsilon) * dataset_size * num_clients /
    partition_size] of the specification, over the rationals. *)
Definition partition_ratio (epsilon : QArith_base.Q) (dataset_size num_clients
    partition_size : Z) : QArith_base.Q :=
  QArith_base.Qdiv
    (QArith_base.Qmult
       (QArith_base.Qmult (QArith_base.Qplus (QArith_base.inject_Z 1) epsilon)
          (QArith_base.inject_Z dataset_size))
       (QArith_base.inject_Z num_clients))
    (QArith_base.inject_Z partition_size).

(** The partition count as the specification writes it,
    [b = ceil((1 + epsilon) * dataset_size * num_clients / partition_size)]. *)
Definition partition_formula (epsilon : QArith_base.Q) (dataset_size num_clients
    partition_size : Z) : Z :=
  Qround.Qceiling (partition_ratio epsilon dataset_size num_clients partition_size).

(** The [double] that the literal [0.1] denotes, the nearest to one
    tenth: [7205759403792794 / 2^56]. *)
Definition tenth : float := 0x1.999999999999ap-4%float.

(** A configuration with the given expansion factor, sizes and PIR
    dimension; the fields that [compute_derived_params] does not read are
    those of the test preset. *)
Definition configuration (epsilon : float) (dataset_size num_clients partition_size
    pir_dimension : Z) : ExperimentConfig :=
  {| num_clients := num_clients;
     dataset_size := dataset_size;
     num_updates := 50;
     num_queries := 10;
     partition_size := partition_size;
     expansion_factor := epsilon;
     pir_dimension := pir_dimension;
     lwe_dimension := 512;
     modulus := 4294967291;
     band_width := 30;
     num_partitions := 0;
     pir_fold_size := 0%float |}.

End Config.

(** ** Row provenance *)

(** The column loop once more, with a ghost list [origin] that is swapped
    together with the rows: [nth k origin] is the index, in the input, of
    the equation that now sits in row [k]. *)
Definition tracked_step (q : Z) (m d1 col : nat) (st : nat * MatrixType * list nat)
    : nat * MatrixType * list nat :=
  let '(pivot_row, aug, origin) := st in
  let best_row := best_row aug col pivot_row m in
  if best_row =? -1 then (pivot_row, aug, origin)
  else
    (S pivot_row,
     pivot_step q m d1 col pivot_row (size_of_int best_row (length aug)) aug,
     swap_at 0%nat origin pivot_row (size_of_int best_row (length aug))).

Definition tracked_elimination (q : Z) (m d1 : nat) (aug : MatrixType)
    : nat * MatrixType * list nat :=
  for_while (fun st => (fst (fst st) <? m)%nat) (tracked_step q m d1) (seq 0 d1)
    (0%nat, aug, seq 0 m).

(** Input rows that received a pivot during forward elimination. *)
Definition pivoted_rows (M : MatrixType) (y : VectorType) (q : Z) : list nat :=
  let m := length M in
  let d1 := length (nth 0%nat M []) in
  let '(pivot_row, _, origin) := tracked_elimination q m d1 (build_augmented M y m d1) in
  firstn pivot_row origin.

(** Number of pivots assigned by forward elimination on [[M | y]]. *)
Definition pivots_assigned (M : MatrixType) (y : VectorType) (q : Z) : nat :=
  let m := length M in
  let d1 := length (nth 0%nat M []) in
  fst (forward_elimination q m d1 (build_augmented M y m d1)).

(** The aggregate of a list of uploads: the fold of [matrix_add] over the
    list, the first upload being the initial accumulator. *)
Definition matrix_sum (q : Z) (l : list MatrixType) : MatrixType :=
  match l with
  | [] => []
  | A :: rest => fold_left (fun acc B => matrix_add acc B q) rest A
  end.

(** ** Vocabulary of the statements *)

(** The InvalidDimension condition: no unknowns, or a coefficient row whose
    length is not that of the first row. *)
Definition invalid_dimension (M : MatrixType) : Prop :=
  length (nth 0%nat M []) = 0%nat \/
  exists i, (i < length M)%nat /\ length (nth i M []) <> length (nth 0%nat M []).

(** An [r] by [c] matrix of field elements. *)
Definition field_matrix (q : Z) (r c : nat) (A : MatrixType) : Prop :=
  length A = r /\
  (forall i, (i < r)%nat -> length (nth i A []) = c) /\
  forall i j, (i < r)%nat -> (j < c)%nat -> 0 <= nth j (nth i A []) 0 < q.

(** A coefficient the solver handles: a 64-bit value that is [0] or not a
    multiple of [q], so that the test [!= 0] of the code agrees with the
    test in Z_q.  Field elements in [[0, q)] are of this kind. *)
Definition regular (q a : Z) : Prop := u64 a /\ (a <> 0 -> a mod q <> 0).

(** An [r] by [c] matrix of such coefficients. *)
Definition regular_matrix (q : Z) (r c : nat) (A : MatrixType) : Prop :=
  length A = r /\
  (forall i, (i < r)%nat -> length (nth i A []) = c) /\
  forall i j, (i < r)%nat -> (j < c)%nat -> regular q (nth j (nth i A []) 0).

(** Congruence modulo [q]. *)
Definition cong (q a b : Z) : Prop := (q | a - b).

(** [f lo + f (lo+1) + ... + f (lo+n-1)]. *)
Fixpoint zsum (f : nat -> Z) (lo n : nat) : Z :=
  match n with
  | O => 0
  | S n' => f lo + zsum f (S lo) n'
  end.

(** Dot product of a coefficient row with a vector. *)
Definition dot (u v : list Z) : Z :=
  zsum (fun j => nth j u 0 * nth j v 0) 0 (length u).

(** Left-hand side minus right-hand side of equation [i] of the augmented
    array at the assignment [e]. *)
Definition residual (d1 : nat) (A : MatrixType) (i : nat) (e : list Z) : Z :=
  zsum (fun j => at2 A i j * nth j e 0) 0 d1 - at2 A i d1.

(** The transposition of [i] and [j], applied to [k]. *)
Definition transp (i j k : nat) : nat :=
  if Nat.eq_dec k i then j else if Nat.eq_dec k j then i else k.

(** Shape of an [m] by [n] array. *)
Definition shape (m n : nat) (A : MatrixType) : Prop :=
  length A = m /\ forall i, (i < m)%nat -> length (nth i A []) = n.

(** The assignment [e] satisfies equation [i] of the augmented array. *)
Definition sat (q : Z) (d1 : nat) (A : MatrixType) (i : nat) (e : list Z) : Prop :=
  cong q (residual d1 A i e) 0.

(** A partial solution during back substitution: [d1] field elements. *)
Definition partial_solution (q : Z) (d1 : nat) (res : list Z) : Prop :=
  length res = d1 /\ forall j, 0 <= nth j res 0 < q.

(** Invariant of the column loop, before column [col], with [p] pivots
    assigned; [A0] is the augmented array the loop started from. *)
Record fwd_inv (q : Z) (m d1 : nat) (A0 : MatrixType) (col p : nat)
    (A : MatrixType) (origin : list nat) : Prop := {
  inv_shape : shape m (d1 + 1) A;
  inv_origin_length : length origin = m;
  inv_origin_lt : forall k, (k < m)%nat -> (nth k origin 0 < m)%nat;
  inv_count : (p <= col)%nat /\ (p <= m)%nat;
  inv_coeff : forall i j, (i < m)%nat -> (j < d1)%nat -> regular q (at2 A i j);
  inv_rhs : forall i, (i < m)%nat -> u64 (at2 A i d1);
  inv_below : forall i j, (p <= i < m)%nat -> (j < col)%nat -> at2 A i j = 0;
  inv_lead : forall k, (k < p)%nat ->
    exists c, (c < col)%nat /\ (c < d1)%nat /\ at2 A k c = 1 /\
      (forall j, (j < c)%nat -> at2 A k j = 0) /\
      (forall k' j, (k < k' < m)%nat -> (j <= c)%nat -> at2 A k' j = 0);
  inv_orig : forall e,
    (forall k, (k < p)%nat -> sat q d1 A k e) ->
    forall k, (k < m)%nat -> sat q d1 A k e -> sat q d1 A0 (nth k origin 0%nat) e
}.

Arguments inv_shape {q m d1 A0 col p A origin} _.
Arguments inv_origin_length {q m d1 A0 col p A origin} _.
Arguments inv_origin_lt {q m d1 A0 col p A origin} _ _ _.
Arguments inv_count {q m d1 A0 col p A origin} _.
Arguments inv_coeff {q m d1 A0 col p A origin} _ _ _ _ _.
Arguments inv_rhs {q m d1 A0 col p A origin} _ _ _.
Arguments inv_below {q m d1 A0 col p A origin} _ _ _ _ _.
Arguments inv_lead {q m d1 A0 col p A origin} _ _ _.
Arguments inv_orig {q m d1 A0 col p A origin} _ _ _ _ _ _.

(** The xor-shift step of the mixing functions. *)
Definition xorshift33 (h : Z) : Z := Z.lxor h (Z.shiftr h 33).

(** The one-hot vector of length [n] with its [1] at position [k]. *)
Definition one_hot (n k : nat) : list Z :=
  map (fun i => if Nat.eq_dec i k then 1 else 0) (seq 0 n).

(** What forward elimination keeps besides [fwd_inv]: every solution of the
    input system solves every current row, and every input row sits
    somewhere in the array. *)
Definition complete_inv (q : Z) (m d1 : nat) (A0 A : MatrixType) (origin : list nat)
    : Prop :=
  (forall x, (forall i, (i < m)%nat -> sat q d1 A0 i x) ->
     forall k, (k < m)%nat -> sat q d1 A k x) /\
  (forall i, (i < m)%nat -> exists k, (k < m)%nat /\ nth k origin 0%nat = i).

(** ** Properties *)

(** *** Lists and loops *)

Lemma nth_insert_eq {T : Type} (l : list T) (i : nat) (x d : T) :
  (i < length l)%nat -> nth i (<[i := x]> l) d = x.
Proof.
  intros Hi. rewrite nth_lookup, list_lookup_insert_eq by exact Hi. reflexivity.
Qed.

Lemma nth_insert_ne {T : Type} (l : list T) (i j : nat) (x d : T) :
  i <> j -> nth j (<[i := x]> l) d = nth j l d.
Proof.
  intros Hij. rewrite !nth_lookup, list_lookup_insert_ne by exact Hij. reflexivity.
Qed.

Lemma nth_insert {T : Type} (l : list T) (i j : nat) (x d : T) :
  (i < length l)%nat ->
  nth j (<[i := x]> l) d = if Nat.eq_dec i j then x else nth j l d.
Proof.
  intros Hi. destruct (Nat.eq_dec i j) as [->|Hne].
  - now apply nth_insert_eq.
  - now apply nth_insert_ne.
Qed.

Lemma for_range_empty {St : Type} (lo hi : nat) (body : nat -> St -> St) (s : St) :
  (hi <= lo)%nat -> for_range lo hi body s = s.
Proof.
  intros H. unfold for_range. replace (hi - lo)%nat with 0%nat by lia. reflexivity.
Qed.

Lemma for_range_first {St : Type} (lo hi : nat) (body : nat -> St -> St) (s : St) :
  (lo < hi)%nat -> for_range lo hi body s = for_range (S lo) hi body (body lo s).
Proof.
  intros H. unfold for_range.
  replace (hi - lo)%nat with (S (hi - S lo)) by lia. reflexivity.
Qed.

(** Hoare rule of the counted loop. *)
Lemma for_range_ind {St : Type} (P : nat -> St -> Prop) (lo hi : nat)
    (body : nat -> St -> St) (s : St) :
  (lo <= hi)%nat ->
  P lo s ->
  (forall i t, (lo <= i < hi)%nat -> P i t -> P (S i) (body i t)) ->
  P hi (for_range lo hi body s).
Proof.
  intros Hle. remember (hi - lo)%nat as n eqn:Hn.
  revert lo s Hle Hn. induction n as [|n IH]; intros lo s Hle Hn H0 Hstep.
  - rewrite for_range_empty by lia. now replace hi with lo by lia.
  - rewrite for_range_first by lia. apply IH; try lia.
    + apply Hstep; [lia | exact H0].
    + intros i t Hi. apply Hstep. lia.
Qed.

Lemma for_range_ext {St : Type} (lo hi : nat) (f g : nat -> St -> St) (s : St) :
  (forall i t, (lo <= i < hi)%nat -> f i t = g i t) ->
  for_range lo hi f s = for_range lo hi g s.
Proof.
  destruct (Nat.le_gt_cases hi lo) as [Hle|Hlt].
  - intros _. now rewrite !for_range_empty.
  - intros Hfg.
    apply (for_range_ind (fun i t => t = for_range lo i g s) lo hi f s); [lia| |].
    + now rewrite for_range_empty.
    + intros i t Hi ->. rewrite Hfg by exact Hi.
      unfold for_range. replace (S i - lo)%nat with (S (i - lo)) by lia.
      rewrite seq_S, fold_left_app. simpl. now replace (lo + (i - lo))%nat with i by lia.
Qed.

(** *** The [int] conversions *)

Lemma to_int_small (n : Z) : 0 <= n < two31 -> to_int n = n.
Proof.
  intros H. unfold to_int. rewrite Z.mod_small; unfold two31, two32 in *; lia.
Qed.

Lemma to_int_le (n : Z) : 0 <= n -> to_int n <= n.
Proof.
  intros H. unfold to_int.
  pose proof (Z.mod_le (n + two31) two32). unfold two31, two32 in *. lia.
Qed.

Lemma size_of_int_nonneg (k : Z) (len : nat) : 0 <= k -> size_of_int k len = Z.to_nat k.
Proof. intros H. unfold size_of_int. destruct (Z.ltb_spec k 0); [lia|reflexivity]. Qed.

Lemma size_of_int_neg (k : Z) (len : nat) : k < 0 -> (len <= size_of_int k len)%nat.
Proof. intros H. unfold size_of_int. destruct (Z.ltb_spec k 0); lia. Qed.

Lemma size_of_int_of_nat (n len : nat) : size_of_int (Z.of_nat n) len = n.
Proof. rewrite size_of_int_nonneg by lia. apply Nat2Z.id. Qed.

(** Below [2^31] the [int] variables hold the index they were assigned. *)
Lemma best_row_some (A : list (list Z)) (col p m b : nat) (len : nat) :
  find_pivot A col p m = Some b -> Z.of_nat b < two31 ->
  (best_row A col p m =? -1) = false /\ size_of_int (best_row A col p m) len = b.
Proof.
  intros Hf Hb. unfold best_row. rewrite Hf, to_int_small by lia.
  split; [apply Z.eqb_neq; lia | apply size_of_int_of_nat].
Qed.

Lemma best_row_none (A : list (list Z)) (col p m : nat) :
  find_pivot A col p m = None -> (best_row A col p m =? -1) = true.
Proof. intros Hf. unfold best_row. now rewrite Hf. Qed.

Lemma leading_col_some (A : list (list Z)) (i d1 c : nat) :
  find_leading A i d1 = Some c -> Z.of_nat c < two31 ->
  leading_col A i d1 = Z.of_nat c.
Proof. intros Hf Hc. unfold leading_col. rewrite Hf. apply to_int_small. lia. Qed.

(** *** Field arithmetic *)

Lemma two128_eq : two128 = two64 * two64.
Proof. reflexivity. Qed.

Lemma u64_mod (a q : Z) : 0 < q < two64 -> u64 (a mod q).
Proof. intros Hq. unfold u64. pose proof (Z.mod_pos_bound a q). lia. Qed.

Lemma add_mod_eq (a b q : Z) :
  0 < q < two64 -> u64 a -> u64 b -> add_mod a b q = (a + b) mod q.
Proof.
  intros Hq Ha Hb. unfold add_mod, u64 in *.
  rewrite (Z.mod_small (a + b) two128) by (rewrite two128_eq; nia).
  apply Z.mod_small. pose proof (Z.mod_pos_bound (a + b) q). lia.
Qed.

Lemma sub_mod_eq (a b q : Z) :
  0 < q < two64 -> u64 a -> 0 <= b <= q -> sub_mod a b q = (a - b) mod q.
Proof.
  intros Hq Ha Hb. unfold sub_mod, u64 in *.
  rewrite (Z.mod_small (q - b) two128) by (rewrite two128_eq; nia).
  rewrite (Z.mod_small (a + (q - b)) two128) by (rewrite two128_eq; nia).
  rewrite (Z.mod_small _ two64) by (pose proof (Z.mod_pos_bound (a + (q - b)) q); lia).
  replace (a + (q - b)) with (a - b + 1 * q) by ring.
  apply Z.mod_add. lia.
Qed.

Lemma mul_mod_eq (a b q : Z) :
  0 < q < two64 -> u64 a -> u64 b -> mul_mod a b q = (a * b) mod q.
Proof.
  intros Hq Ha Hb. unfold mul_mod, u64 in *.
  rewrite (Z.mod_small (a * b) two128) by (rewrite two128_eq; nia).
  apply Z.mod_small. pose proof (Z.mod_pos_bound (a * b) q). lia.
Qed.

Lemma add_mod_range (a b q : Z) : 0 < q < two64 -> u64 a -> u64 b -> 0 <= add_mod a b q < q.
Proof. intros. rewrite add_mod_eq by assumption. apply Z.mod_pos_bound. lia. Qed.

Lemma sub_mod_range (a b q : Z) :
  0 < q < two64 -> u64 a -> 0 <= b <= q -> 0 <= sub_mod a b q < q.
Proof. intros. rewrite sub_mod_eq by assumption. apply Z.mod_pos_bound. lia. Qed.

Lemma mul_mod_range (a b q : Z) : 0 < q < two64 -> u64 a -> u64 b -> 0 <= mul_mod a b q < q.
Proof. intros. rewrite mul_mod_eq by assumption. apply Z.mod_pos_bound. lia. Qed.

Lemma pow_mod_base (r c k md : Z) :
  md <> 0 -> (r * (c mod md) ^ k) mod md = (r * c ^ k) mod md.
Proof.
  intros Hmd.
  rewrite <- (Z.mul_mod_idemp_r r ((c mod md) ^ k)) by exact Hmd.
  rewrite Z.mod_pow_l. now rewrite Z.mul_mod_idemp_r by exact Hmd.
Qed.

(** The loop of [fast_pow] computes [result * b ^ exp] modulo [md], and the
    fuel (the width of [exp]) is never exhausted. *)
Lemma fast_pow_loop_eq (fuel : nat) (result b exp md : Z) :
  0 < md < two64 ->
  0 <= result < md -> 0 <= b < md ->
  0 <= exp < 2 ^ Z.of_nat fuel ->
  fast_pow_loop fuel result b exp md = (result * b ^ exp) mod md.
Proof.
  intros Hmd. revert result b exp.
  induction fuel as [|fuel IH]; intros result b exp Hr Hb He.
  - change (2 ^ Z.of_nat 0) with 1 in He. assert (exp = 0) as -> by lia.
    simpl. rewrite Z.mul_1_r. symmetry. apply Z.mod_small. lia.
  - cbn [fast_pow_loop]. destruct (Z.ltb_spec 0 exp) as [Hpos|Hz].
    + rewrite Nat2Z.inj_succ, Z.pow_succ_r in He by lia.
      assert (Hland : Z.land exp 1 = exp mod 2)
        by (change 1 with (Z.ones 1) at 1; now rewrite Z.land_ones by lia).
      rewrite Z.shiftr_div_pow2 by lia. change (2 ^ 1) with 2.
      pose proof (Z.div_mod exp 2 ltac:(lia)) as Hdm.
      pose proof (Z.mod_pos_bound exp 2 ltac:(lia)) as Hm2.
      assert (Hbb : (b * b) mod two128 = b * b)
        by (apply Z.mod_small; rewrite two128_eq; unfold two64 in *; nia).
      assert (Hrb : (result * b) mod two128 = result * b)
        by (apply Z.mod_small; rewrite two128_eq; unfold two64 in *; nia).
      rewrite Hbb, Hrb, Hland.
      assert (Hpow : b ^ exp = (b * b) ^ (exp / 2) * b ^ (exp mod 2)).
      { rewrite Hdm at 1. rewrite Z.pow_add_r, Z.pow_mul_r by lia.
        now rewrite Z.pow_2_r. }
      rewrite IH.
      * rewrite Hpow, pow_mod_base by lia.
        destruct (Z.eqb_spec (exp mod 2) 0) as [E0|E1]; cbn [negb].
        -- rewrite E0, Z.pow_0_r, Z.mul_1_r. reflexivity.
        -- assert (exp mod 2 = 1) as -> by lia. rewrite Z.pow_1_r.
           rewrite Z.mul_mod_idemp_l by lia. f_equal. ring.
      * destruct (negb (exp mod 2 =? 0)); [apply Z.mod_pos_bound; lia | lia].
      * apply Z.mod_pos_bound; lia.
      * lia.
    + assert (exp = 0) as -> by lia. rewrite Z.pow_0_r, Z.mul_1_r.
      symmetry. apply Z.mod_small. lia.
Qed.

Lemma fast_pow_eq (base exp q : Z) :
  1 < q < two64 -> u64 exp -> fast_pow base exp q = (base ^ exp) mod q.
Proof.
  intros Hq He. unfold fast_pow.
  destruct (Z.eqb_spec q 1) as [?|_]; [lia|].
  rewrite fast_pow_loop_eq; try lia.
  - rewrite Z.mul_1_l, Z.mod_pow_l.
    apply Z.mod_small. pose proof (Z.mod_pos_bound (base ^ exp) q). lia.
  - apply Z.mod_pos_bound. lia.
  - exact He.
Qed.

Lemma mod_inverse_eq (a q : Z) :
  2 <= q < two64 -> a <> 0 -> mod_inverse a q = (a ^ (q - 2)) mod q.
Proof.
  intros Hq Ha. unfold mod_inverse.
  destruct (Z.eqb_spec a 0) as [?|_]; [contradiction|].
  rewrite (Z.mod_small (q - 2)) by lia.
  apply fast_pow_eq; unfold u64; lia.
Qed.

Lemma mod_inverse_range (a q : Z) : 2 <= q < two64 -> 0 <= mod_inverse a q < q.
Proof.
  intros Hq. destruct (Z.eq_dec a 0) as [->|Ha].
  - unfold mod_inverse. simpl. lia.
  - rewrite mod_inverse_eq by assumption. apply Z.mod_pos_bound. lia.
Qed.

(** Fermat: the inverse times the element is one. *)
Lemma mod_inverse_mul (a q : Z) :
  Z.prime q -> q < two64 -> 1 <= a < q -> (mod_inverse a q * a) mod q = 1.
Proof.
  intros Hp Hq Ha. pose proof (Z.prime_ge_2 _ Hp) as H2.
  rewrite mod_inverse_eq by lia.
  rewrite Z.mul_mod_idemp_l by lia.
  replace (a ^ (q - 2) * a) with (a ^ (q - 1)).
  - apply ZmodInv.Z.fermat_nz; [exact Hp|]. rewrite Z.mod_small; lia.
  - replace (q - 1) with (Z.succ (q - 2)) by lia. rewrite Z.pow_succ_r by lia. ring.
Qed.

Lemma mod_inverse_mul_regular (a q : Z) :
  Z.prime q -> q < two64 -> a mod q <> 0 -> (mod_inverse a q * a) mod q = 1.
Proof.
  intros Hp Hq Hnz. pose proof (Z.prime_ge_2 _ Hp) as H2.
  assert (Ha0 : a <> 0) by (intros ->; now rewrite Z.mod_0_l in Hnz by lia).
  rewrite mod_inverse_eq by lia.
  rewrite Z.mul_mod_idemp_l by lia.
  replace (a ^ (q - 2) * a) with (a ^ (q - 1)).
  - now apply ZmodInv.Z.fermat_nz.
  - replace (q - 1) with (Z.succ (q - 2)) by lia. rewrite Z.pow_succ_r by lia. ring.
Qed.

Lemma regular_reduced (q x : Z) : q < two64 -> 0 <= x < q -> regular q x.
Proof.
  intros Hq Hx. split; [unfold u64; lia|]. intros Hnz. rewrite Z.mod_small; lia.
Qed.

Lemma prime_7 : Z.prime 7.
Proof.
  split; [lia|]. intros n Hn [k Hk].
  assert (n = 2 \/ n = 3 \/ n = 4 \/ n = 5 \/ n = 6) as [ -> | [ -> | [ -> | [ -> | -> ] ] ] ] by lia; lia.
Qed.

(** C2. For every prime modulus [q] (a [uint64_t]) and every [a] in
    [[1, q)], [mul_mod(mod_inverse(a, q), a, q) = 1]: [mod_inverse] is the
    Fermat inverse [a^(q-2) mod q], computed by binary exponentiation. *)
Theorem mod_inverse_correct (q a : Z) :
  Z.prime q -> q < two64 -> 1 <= a < q ->
  mul_mod (mod_inverse a q) a q = 1 /\ mod_inverse a q = (a ^ (q - 2)) mod q.
Proof.
  intros Hp Hq Ha. pose proof (Z.prime_ge_2 _ Hp) as H2. split.
  - pose proof (mod_inverse_range a q ltac:(lia)) as Hr.
    rewrite mul_mod_eq by (unfold u64; lia).
    now apply mod_inverse_mul.
  - apply mod_inverse_eq; lia.
Qed.

Lemma mod_inverse_correct_witness :
  mul_mod (mod_inverse 3 7) 3 7 = 1 /\ mod_inverse 3 7 = (3 ^ (7 - 2)) mod 7.
Proof.
  apply (mod_inverse_correct 7 3 prime_7); [reflexivity | lia].
Defined.

(** C7. [mod_inverse(0, q)] returns the sentinel [0] for every modulus [q]:
    the test [a == 0] comes before any reduction. *)
Theorem mod_inverse_zero (q : Z) : mod_inverse 0 q = 0.
Proof. reflexivity. Qed.

(** C9. The two mixing functions are the same function: for every key and
    input, [prf_value(k, x) = hash_partition(k, x)]. *)
Theorem prf_value_is_hash_partition (k x : Z) : prf_value k x = hash_partition k x.
Proof. reflexivity. Qed.

(** C10. On a system with no rows, [gaussian_elimination] returns the empty
    vector, whatever [y] and [q] are. *)
Theorem gaussian_elimination_empty (y : VectorType) (q : Z) :
  gaussian_elimination [] y q = [].
Proof. reflexivity. Qed.

(** *** The band vector *)

Lemma bit_narrow (h : Z) : (h mod 2) mod 2 ^ 8 = h mod 2.
Proof. apply Z.mod_small. pose proof (Z.mod_pos_bound h 2). lia. Qed.

(** C5. For [1 <= w <= d1], [sparse_vector(k2, x, d1, w)] has length [d1],
    is zero outside the band of width [w] that starts at
    [hash_partition(k2, x) mod (d1 - w + 1)], holds
    [hash_partition(k2 xor (x + i), x) mod 2] at band position [i] (the sum
    [x + i] being the 64-bit one of the source), and so has only entries
    0 and 1. *)
Theorem sparse_vector_band (k2 x : Z) (d1 w : nat) :
  (1 <= w <= d1)%nat -> Z.of_nat d1 < two64 ->
  let pos := Z.to_nat (hash_partition k2 x mod (Z.of_nat d1 - Z.of_nat w + 1)) in
  let v := sparse_vector k2 x d1 w in
  length v = d1 /\
  (pos + w <= d1)%nat /\
  (forall j, (j < pos \/ pos + w <= j)%nat -> nth j v 0 = 0) /\
  (forall i, (i < w)%nat ->
     nth (pos + i) v 0 =
     hash_partition (Z.lxor k2 ((x + Z.of_nat i) mod two64)) x mod 2) /\
  Forall (fun b => b = 0 \/ b = 1) v.
Proof.
  intros Hw Hd pos v.
  set (width := Z.of_nat d1 - Z.of_nat w + 1) in *.
  assert (Hwidth : 0 < width <= Z.of_nat d1) by (unfold width; lia).
  pose proof (Z.mod_pos_bound (hash_partition k2 x) width ltac:(lia)) as Hpos.
  assert (Hposw : (pos + w <= d1)%nat) by (unfold pos, width in *; lia).
  set (val := fun i : nat =>
                hash_partition (Z.lxor k2 ((x + Z.of_nat i) mod two64)) x mod 2).
  assert (Hinv : length v = d1 /\
            forall j, nth j v 0 =
              if (pos <=? j)%nat && (j <? pos + w)%nat then val (j - pos)%nat else 0).
  { unfold v, sparse_vector.
    apply (for_range_ind
             (fun i u => length u = d1 /\
                forall j, nth j u 0 =
                  if (pos <=? j)%nat && (j <? pos + i)%nat then val (j - pos)%nat else 0)
             0 w); [lia| |].
    - split; [apply repeat_length|]. intros j.
      replace ((pos <=? j)%nat && (j <? pos + 0)%nat) with false
        by (symmetry; apply andb_false_iff;
            rewrite Nat.leb_gt, Nat.ltb_ge; lia).
      destruct (Nat.lt_ge_cases j d1) as [Hj|Hj].
      + apply nth_repeat_lt; exact Hj.
      + apply nth_overflow. rewrite repeat_length. exact Hj.
    - intros i u Hi [Hlen Hu].
      rewrite (Z.mod_small width) by lia. fold width.
      assert (Hidx : Z.to_nat ((hash_partition k2 x mod width + Z.of_nat i) mod two64)
                     = (pos + i)%nat).
      { rewrite Z.mod_small by lia. unfold pos. lia. }
      rewrite Hidx, bit_narrow. split; [now rewrite length_insert|].
      intros j. rewrite nth_insert by lia.
      destruct (Nat.eq_dec (pos + i)%nat j) as [<-|Hne].
      + replace ((pos <=? pos + i)%nat && (pos + i <? pos + S i)%nat) with true
          by (symmetry; apply andb_true_iff;
              rewrite Nat.leb_le, Nat.ltb_lt; lia).
        unfold val. now replace (pos + i - pos)%nat with i by lia.
      + rewrite Hu.
        destruct (Nat.leb_spec pos j), (Nat.ltb_spec j (pos + i)),
          (Nat.ltb_spec j (pos + S i)); simpl; try reflexivity; lia. }
  destruct Hinv as [Hlen Hnth].
  split; [exact Hlen|]. split; [exact Hposw|]. split; [|split].
  - intros j Hj. rewrite Hnth.
    destruct (Nat.leb_spec pos j), (Nat.ltb_spec j (pos + w)); simpl;
      try reflexivity; lia.
  - intros i Hi. rewrite Hnth.
    replace ((pos <=? pos + i)%nat && (pos + i <? pos + w)%nat) with true
      by (symmetry; apply andb_true_iff; rewrite Nat.leb_le, Nat.ltb_lt; lia).
    unfold val. now replace (pos + i - pos)%nat with i by lia.
  - apply (Forall_nth _ 0). intros j _.
    rewrite Hnth. destruct ((pos <=? j)%nat && (j <? pos + w)%nat); [|now left].
    unfold val.
    pose proof (Z.mod_pos_bound
                  (hash_partition (Z.lxor k2 ((x + Z.of_nat (j - pos)) mod two64)) x) 2).
    lia.
Qed.

Lemma sparse_vector_band_witness :
  (1 <= 3 <= 8)%nat /\ length (sparse_vector 12345 678 8 3) = 8%nat.
Proof.
  split; [lia|].
  destruct (sparse_vector_band 12345 678 8 3) as [H _]; [lia | reflexivity | exact H].
Defined.

(** *** Arrays *)

Lemma shape_repeat (m n : nat) : shape m n (repeat (repeat 0 n) m).
Proof.
  split; [apply repeat_length|]. intros i Hi.
  rewrite nth_repeat_lt by exact Hi. apply repeat_length.
Qed.

Lemma shape_set2 (m n : nat) (A : MatrixType) (i j : nat) (x : Z) :
  shape m n A -> shape m n (set2 A i j x).
Proof.
  intros [Hlen Hrows]. unfold set2. split; [now rewrite length_insert|].
  intros k Hk. destruct (Nat.eq_dec i k) as [->|Hne].
  - rewrite nth_insert_eq by lia. rewrite length_insert. now apply Hrows.
  - rewrite nth_insert_ne by exact Hne. now apply Hrows.
Qed.

Lemma at2_set2_eq (m n : nat) (A : MatrixType) (i j : nat) (x : Z) :
  shape m n A -> (i < m)%nat -> (j < n)%nat -> at2 (set2 A i j x) i j = x.
Proof.
  intros [Hlen Hrows] Hi Hj. unfold at2, set2.
  rewrite nth_insert_eq by lia. apply nth_insert_eq. rewrite Hrows; lia.
Qed.

Lemma at2_set2_ne (A : MatrixType) (i j i' j' : nat) (x : Z) :
  i <> i' \/ j <> j' -> at2 (set2 A i j x) i' j' = at2 A i' j'.
Proof.
  intros Hne. unfold at2, set2.
  destruct (Nat.eq_dec i i') as [<-|Hi]; [|now rewrite nth_insert_ne].
  destruct (Nat.lt_ge_cases i (length A)) as [Hlt|Hge].
  - rewrite nth_insert_eq by exact Hlt. apply nth_insert_ne. lia.
  - now rewrite list_insert_ge by exact Hge.
Qed.

Lemma nth_swap_at {T : Type} (d : T) (l : list T) (i j k : nat) :
  (i < length l)%nat -> (j < length l)%nat ->
  nth k (swap_at d l i j) d = nth (transp i j k) l d.
Proof.
  intros Hi Hj. unfold swap_at, transp.
  destruct (Nat.eq_dec k j) as [->|Hkj].
  - rewrite nth_insert_eq by (rewrite length_insert; lia).
    destruct (Nat.eq_dec j i) as [->|_]; reflexivity.
  - rewrite nth_insert_ne by lia.
    destruct (Nat.eq_dec k i) as [->|Hki].
    + now rewrite nth_insert_eq by lia.
    + now rewrite nth_insert_ne by lia.
Qed.

Lemma length_swap_at {T : Type} (d : T) (l : list T) (i j : nat) :
  length (swap_at d l i j) = length l.
Proof. unfold swap_at. now rewrite !length_insert. Qed.

Lemma transp_lt (i j k m : nat) :
  (i < m)%nat -> (j < m)%nat -> (k < m)%nat -> (transp i j k < m)%nat.
Proof.
  intros. unfold transp.
  destruct (Nat.eq_dec k i); [assumption|]. destruct (Nat.eq_dec k j); assumption.
Qed.

Lemma shape_swap_at (m n : nat) (A : MatrixType) (i j : nat) :
  shape m n A -> (i < m)%nat -> (j < m)%nat -> shape m n (swap_at [] A i j).
Proof.
  intros [Hlen Hrows] Hi Hj. split; [now rewrite length_swap_at|].
  intros k Hk. rewrite nth_swap_at by lia. apply Hrows. now apply transp_lt.
Qed.

Lemma at2_swap_at (m n : nat) (A : MatrixType) (i j k c : nat) :
  shape m n A -> (i < m)%nat -> (j < m)%nat ->
  at2 (swap_at [] A i j) k c = at2 A (transp i j k) c.
Proof.
  intros [Hlen _] Hi Hj. unfold at2. now rewrite nth_swap_at by lia.
Qed.

(** A loop that rewrites row [r] from column [lo] to column [hi - 1]: when
    the value written at column [j] is [G j] as long as the array still
    agrees with [A] outside the columns of row [r] already written, the
    loop leaves [G j] there and nothing else changes. *)
Lemma row_loop (m n r lo hi : nat) (F : nat -> MatrixType -> Z) (G : nat -> Z)
    (A : MatrixType) :
  shape m n A -> (r < m)%nat -> (hi <= n)%nat ->
  (forall j B, (lo <= j < hi)%nat -> shape m n B ->
     (forall i' j', i' <> r \/ (j <= j')%nat \/ (j' < lo)%nat -> at2 B i' j' = at2 A i' j') ->
     F j B = G j) ->
  shape m n (for_range lo hi (fun j B => set2 B r j (F j B)) A) /\
  forall i' j',
    at2 (for_range lo hi (fun j B => set2 B r j (F j B)) A) i' j' =
    if decide (i' = r /\ (lo <= j' < hi)%nat) then G j' else at2 A i' j'.
Proof.
  intros Hsh Hr Hhi HF.
  destruct (Nat.le_gt_cases lo hi) as [Hle|Hgt].
  2:{ rewrite for_range_empty by lia. split; [exact Hsh|].
      intros i' j'. destruct (decide _) as [[_ ?]|_]; [lia|reflexivity]. }
  apply (for_range_ind
           (fun k B => shape m n B /\
              forall i' j', at2 B i' j' =
                if decide (i' = r /\ (lo <= j' < k)%nat) then G j' else at2 A i' j')
           lo hi); [exact Hle| |].
  - split; [exact Hsh|]. intros i' j'.
    destruct (decide _) as [[_ ?]|_]; [lia|reflexivity].
  - intros k B Hk [HshB HB].
    assert (HFk : F k B = G k).
    { apply HF; [exact Hk | exact HshB |]. intros i' j' Hc. rewrite HB.
      destruct (decide _) as [[? ?]|_]; [lia|reflexivity]. }
    split; [now apply shape_set2|]. intros i' j'.
    destruct (decide (r = i' /\ k = j')) as [[<- <-]|Hne].
    + rewrite (at2_set2_eq m n) by (try assumption; lia).
      destruct (decide _) as [_|Hn]; [exact HFk|]. exfalso. apply Hn. lia.
    + rewrite at2_set2_ne by (destruct (Nat.eq_dec r i'), (Nat.eq_dec k j'); tauto || lia).
      rewrite HB. destruct (decide (i' = r /\ (lo <= j' < k)%nat)) as [[? ?]|H1],
        (decide (i' = r /\ (lo <= j' < S k)%nat)) as [[? ?]|H2]; try reflexivity.
      * exfalso. apply H2. lia.
      * exfalso. apply H1. split; [assumption|].
        assert (k <> j') by (intros ->; apply Hne; split; congruence). lia.
Qed.

(** *** The three array loops of the solver *)

Lemma build_augmented_spec (M : MatrixType) (y : VectorType) (m d1 : nat) :
  shape m (d1 + 1) (build_augmented M y m d1) /\
  forall i, (i < m)%nat ->
    (forall j, (j < d1)%nat -> at2 (build_augmented M y m d1) i j = at2 M i j) /\
    at2 (build_augmented M y m d1) i d1 = nth i y 0.
Proof.
  unfold build_augmented.
  apply (for_range_ind
           (fun k B => shape m (d1 + 1) B /\
              forall i, (i < k)%nat ->
                (forall j, (j < d1)%nat -> at2 B i j = at2 M i j) /\
                at2 B i d1 = nth i y 0)
           0 m); [lia| |].
  - split; [apply shape_repeat|]. intros i Hi. lia.
  - intros k B Hk [HshB HB].
    destruct (row_loop m (d1 + 1) k 0 d1 (fun j _ => at2 M k j) (fun j => at2 M k j) B)
      as [Hsh' Hat']; [exact HshB | lia | lia | reflexivity |].
    split; [now apply shape_set2|].
    intros i Hi. split.
    + intros j Hj. rewrite at2_set2_ne by lia. rewrite Hat'.
      destruct (decide _) as [[-> _]|Hn]; [reflexivity|].
      assert (i < k)%nat by (destruct (Nat.eq_dec i k); [exfalso; apply Hn|]; lia).
      now apply HB.
    + destruct (Nat.eq_dec i k) as [->|Hne].
      * now rewrite (at2_set2_eq m (d1 + 1)) by (try assumption; lia).
      * rewrite at2_set2_ne by lia. rewrite Hat'.
        destruct (decide _) as [[? _]|_]; [lia|]. apply HB. lia.
Qed.

Lemma normalize_row_spec (q : Z) (m d1 col p : nat) (A : MatrixType) :
  shape m (d1 + 1) A -> (p < m)%nat ->
  shape m (d1 + 1) (normalize_row q d1 col p A) /\
  forall i j,
    at2 (normalize_row q d1 col p A) i j =
    if decide (i = p /\ (col <= j < d1 + 1)%nat)
    then mul_mod (at2 A p j) (mod_inverse (at2 A p col) q) q
    else at2 A i j.
Proof.
  intros Hsh Hp. unfold normalize_row.
  apply (row_loop m (d1 + 1) p col (d1 + 1)
           (fun j B => mul_mod (at2 B p j) (mod_inverse (at2 A p col) q) q)
           (fun j => mul_mod (at2 A p j) (mod_inverse (at2 A p col) q) q));
    [exact Hsh | exact Hp | lia |].
  intros j B Hj _ Hframe. now rewrite Hframe by lia.
Qed.

Lemma eliminate_below_spec (q : Z) (m d1 col p : nat) (A : MatrixType) :
  shape m (d1 + 1) A -> (p < m)%nat ->
  shape m (d1 + 1) (eliminate_below q m d1 col p A) /\
  forall i j,
    at2 (eliminate_below q m d1 col p A) i j =
    if decide ((p < i < m)%nat /\ at2 A i col <> 0 /\ (col <= j < d1 + 1)%nat)
    then sub_mod (at2 A i j) (mul_mod (at2 A i col) (at2 A p j) q) q
    else at2 A i j.
Proof.
  intros Hsh Hp. unfold eliminate_below.
  apply (for_range_ind
           (fun k B => shape m (d1 + 1) B /\
              forall i j, at2 B i j =
                if decide ((p < i < k)%nat /\ at2 A i col <> 0 /\ (col <= j < d1 + 1)%nat)
                then sub_mod (at2 A i j) (mul_mod (at2 A i col) (at2 A p j) q) q
                else at2 A i j)
           (p + 1) m); [lia| |].
  - split; [exact Hsh|]. intros i j.
    destruct (decide _) as [[? _]|_]; [lia|reflexivity].
  - intros k B Hk [HshB HB].
    assert (Hrow : forall j, at2 B k j = at2 A k j).
    { intros j. rewrite HB. destruct (decide _) as [[? _]|_]; [lia|reflexivity]. }
    assert (Hpiv : forall j, at2 B p j = at2 A p j).
    { intros j. rewrite HB. destruct (decide _) as [[? _]|_]; [lia|reflexivity]. }
    rewrite Hrow. destruct (Z.eqb_spec (at2 A k col) 0) as [Hz|Hnz].
    + split; [exact HshB|]. intros i j. rewrite HB.
      destruct (decide ((p < i < k)%nat /\ _)) as [(? & ? & ?)|Hc1],
        (decide ((p < i < S k)%nat /\ _)) as [(? & ? & ?)|Hc2]; try reflexivity.
      * exfalso. apply Hc2. repeat split; try assumption; lia.
      * assert (i = k) as -> by (destruct (Nat.eq_dec i k); [assumption|];
                                 exfalso; apply Hc1; repeat split; try assumption; lia).
        contradiction.
    + destruct (row_loop m (d1 + 1) k col (d1 + 1)
                  (fun j B' => sub_mod (at2 B' k j)
                                 (mul_mod (at2 A k col) (at2 B' p j) q) q)
                  (fun j => sub_mod (at2 A k j)
                              (mul_mod (at2 A k col) (at2 A p j) q) q) B)
        as [Hsh' Hat']; [exact HshB | lia | lia | |].
      { intros j B' Hj _ Hframe.
        rewrite (Hframe k j) by lia. rewrite (Hframe p j) by lia.
        now rewrite Hrow, Hpiv. }
      split; [exact Hsh'|]. intros i j. rewrite Hat'.
      destruct (decide (i = k /\ _)) as [[-> ?]|H0].
      * destruct (decide _) as [_|Hc2]; [reflexivity|].
        exfalso. apply Hc2. repeat split; try assumption; lia.
      * rewrite HB.
        destruct (decide ((p < i < k)%nat /\ _)) as [(? & ? & ?)|Hc1],
          (decide ((p < i < S k)%nat /\ _)) as [(? & ? & ?)|Hc2]; try reflexivity.
        -- exfalso. apply Hc2. repeat split; try assumption; lia.
        -- exfalso. assert (i = k) by (destruct (Nat.eq_dec i k); [assumption|];
                                       exfalso; apply Hc1; repeat split; try assumption; lia).
           apply H0. split; assumption.
Qed.

(** *** The solver always returns a vector *)

Lemma back_step_length (q : Z) (d1 : nat) (A : MatrixType) (i : nat) (res : VectorType) :
  length (back_step q d1 A i res) = length res.
Proof.
  unfold back_step. destruct (leading_col A i d1 =? -1); [reflexivity|].
  destruct (at2 A i _ =? 0); [reflexivity|]. apply length_insert.
Qed.

Lemma fold_back_step_length (q : Z) (d1 : nat) (A : MatrixType) (rows : list nat)
    (res : VectorType) :
  length (fold_left (fun result i => back_step q d1 A i result) rows res) = length res.
Proof.
  revert res. induction rows as [|i rows IH]; intros res; [reflexivity|].
  simpl. rewrite IH. apply back_step_length.
Qed.

Lemma back_substitution_length (q : Z) (d1 p : nat) (A : MatrixType) :
  length (back_substitution q d1 p A) = d1.
Proof.
  unfold back_substitution. rewrite fold_back_step_length. apply repeat_length.
Qed.

Lemma gaussian_elimination_unfold (M : MatrixType) (y : VectorType) (q : Z) :
  (1 <= length M)%nat ->
  gaussian_elimination M y q =
  back_substitution q (length (nth 0%nat M []))
    (fst (forward_elimination q (length M) (length (nth 0%nat M []))
            (build_augmented M y (length M) (length (nth 0%nat M [])))))
    (snd (forward_elimination q (length M) (length (nth 0%nat M []))
            (build_augmented M y (length M) (length (nth 0%nat M []))))).
Proof.
  intros Hm. unfold gaussian_elimination.
  destruct (Nat.eqb_spec (length M) 0) as [?|_]; [lia|].
  now destruct (forward_elimination _ _ _ _) as [p A].
Qed.


Lemma back_substitution_rows (d1 p : nat) (i : nat) :
  In i (rev (seq 0 (Z.to_nat
          (Z.min (to_int (Z.of_nat p) - 1) (to_int (Z.of_nat d1) - 1) + 1)))) ->
  (i < p)%nat.
Proof.
  intros Hi. apply in_rev, in_seq in Hi.
  pose proof (to_int_le (Z.of_nat p) ltac:(lia)). lia.
Qed.















(** *** Dimension checks *)

Lemma at2_map_firstn (M : MatrixType) (d1 i j : nat) :
  (j < d1)%nat -> at2 (map (firstn d1) M) i j = at2 M i j.
Proof.
  intros Hj. unfold at2.
  assert (Hrow : nth i (map (firstn d1) M) [] = firstn d1 (nth i M [])).
  { rewrite <- (map_nth (firstn d1) M [] i). f_equal. symmetry. apply firstn_nil. }
  rewrite Hrow, nth_firstn. destruct (Nat.ltb_spec j d1); [reflexivity|lia].
Qed.

Lemma build_augmented_firstn (M : MatrixType) (y : VectorType) (m d1 : nat) :
  build_augmented (map (firstn d1) M) y m d1 = build_augmented M y m d1.
Proof.
  unfold build_augmented. apply for_range_ext. intros i B _. f_equal.
  apply for_range_ext. intros j B' Hj. now rewrite at2_map_firstn by lia.
Qed.

Lemma pivots_assigned_no_columns (M : MatrixType) (y : VectorType) (q : Z) :
  length (nth 0%nat M []) = 0%nat -> pivots_assigned M y q = 0%nat.
Proof. intros Hd. unfold pivots_assigned. rewrite Hd. reflexivity. Qed.

(** C3, as the code has it.  [gaussian_elimination] has no dimension check
    and no rejecting outcome.  With [d1 = 0] it assigns no pivot and returns
    the empty vector; when the rows have at least [d1] entries it runs on
    the first [d1] entries of each row and ignores the rest. *)
Theorem gaussian_elimination_no_dimension_check :
  (forall (M : MatrixType) (y : VectorType) (q : Z),
     (1 <= length M)%nat -> length (nth 0%nat M []) = 0%nat ->
     pivots_assigned M y q = 0%nat /\ gaussian_elimination M y q = []) /\
  (forall (M : MatrixType) (y : VectorType) (q : Z),
     (forall i, (i < length M)%nat ->
        (length (nth 0%nat M []) <= length (nth i M []))%nat) ->
     gaussian_elimination M y q =
     gaussian_elimination (map (firstn (length (nth 0%nat M []))) M) y q).
Proof.
  split.
  - intros M y q Hm Hd. split; [now apply pivots_assigned_no_columns|].
    apply length_zero_iff_nil.
    rewrite gaussian_elimination_unfold by exact Hm.
    rewrite back_substitution_length. exact Hd.
  - intros M y q Hrows. destruct M as [|r0 M']; [reflexivity|].
    set (M := r0 :: M') in *. set (d1 := length (nth 0%nat M [])).
    assert (Hd : length (nth 0%nat (map (firstn d1) M) []) = d1).
    { unfold M, d1. simpl. rewrite length_firstn. lia. }
    rewrite (gaussian_elimination_unfold M) by (simpl; lia).
    rewrite (gaussian_elimination_unfold (map (firstn d1) M))
      by (rewrite length_map; simpl; lia).
    rewrite Hd, length_map. fold d1. now rewrite build_augmented_firstn.
Qed.

Lemma gaussian_elimination_no_dimension_check_witness :
  (pivots_assigned [[]] [1] 5 = 0%nat /\ gaussian_elimination [[]] [1] 5 = []) /\
  gaussian_elimination [[1]; [2; 7]] [1; 2] 5 =
  gaussian_elimination (map (firstn 1) [[1]; [2; 7]]) [1; 2] 5.
Proof.
  destruct gaussian_elimination_no_dimension_check as [Ha Hb]. split.
  - apply (Ha [[]] [1] 5); simpl; lia.
  - apply (Hb [[1]; [2; 7]] [1; 2] 5).
    intros i Hi. destruct i as [|[|i]]; simpl in *; lia.
Defined.

(** C3, as stated, fails: the second row is longer than [d1 = 1], yet a
    pivot is assigned and a solution is returned. *)
Lemma invalid_dimension_not_rejected :
  invalid_dimension [[1]; [2; 7]] /\
  pivots_assigned [[1]; [2; 7]] [1; 2] 5 = 1%nat /\
  gaussian_elimination [[1]; [2; 7]] [1; 2] 5 = [1].
Proof.
  split; [|split; reflexivity].
  right. exists 1%nat. simpl. split; lia.
Qed.

(** *** Aggregation *)

Lemma matrix_ext (r c : nat) (A B : MatrixType) :
  shape r c A -> shape r c B ->
  (forall i j, (i < r)%nat -> (j < c)%nat -> at2 A i j = at2 B i j) ->
  A = B.
Proof.
  intros [HlA HrA] [HlB HrB] Heq.
  apply (nth_ext A B [] []); [congruence|].
  intros i Hi. rewrite HlA in Hi.
  apply (nth_ext _ _ 0 0); [rewrite HrA, HrB; trivial|].
  intros j Hj. rewrite HrA in Hj by exact Hi. now apply Heq.
Qed.

Lemma matrix_add_spec (q : Z) (r c : nat) (A B : MatrixType) :
  shape r c A ->
  shape r c (matrix_add A B q) /\
  forall i j, (i < r)%nat -> (j < c)%nat ->
    at2 (matrix_add A B q) i j = add_mod (at2 A i j) (at2 B i j) q.
Proof.
  intros [HlA HrA]. unfold matrix_add. rewrite HlA.
  destruct r as [|r'].
  { rewrite for_range_empty by lia. simpl. split; [split; [reflexivity|]|]; intros; lia. }
  rewrite (HrA 0%nat) by lia. set (r := S r') in *.
  apply (for_range_ind
           (fun k C => shape r c C /\
              forall i j, (i < k)%nat -> (j < c)%nat ->
                at2 C i j = add_mod (at2 A i j) (at2 B i j) q)
           0 r); [lia| |].
  - split; [apply shape_repeat|]. intros; lia.
  - intros k C Hk [HshC HC].
    destruct (row_loop r c k 0 c
                (fun j _ => add_mod (at2 A k j) (at2 B k j) q)
                (fun j => add_mod (at2 A k j) (at2 B k j) q) C)
      as [Hsh' Hat']; [exact HshC | lia | lia | reflexivity |].
    split; [exact Hsh'|]. intros i j Hi Hj. rewrite Hat'.
    destruct (decide _) as [[-> _]|Hn]; [reflexivity|].
    apply HC; [|exact Hj].
    destruct (Nat.eq_dec i k); [exfalso; apply Hn|]; lia.
Qed.

Lemma field_matrix_shape (q : Z) (r c : nat) (A : MatrixType) :
  field_matrix q r c A -> shape r c A.
Proof. intros (Hl & Hr & _). split; assumption. Qed.

Lemma matrix_add_field (q : Z) (r c : nat) (A B : MatrixType) :
  0 < q < two64 -> field_matrix q r c A -> field_matrix q r c B ->
  field_matrix q r c (matrix_add A B q).
Proof.
  intros Hq HA HB.
  destruct (matrix_add_spec q r c A B (field_matrix_shape _ _ _ _ HA)) as [[Hl Hr] Hat].
  split; [exact Hl|]. split; [exact Hr|]. intros i j Hi Hj.
  fold (at2 (matrix_add A B q) i j). rewrite Hat by assumption.
  destruct HA as (_ & _ & HA), HB as (_ & _ & HB).
  specialize (HA i j Hi Hj). specialize (HB i j Hi Hj).
  apply add_mod_range; unfold u64, at2; lia.
Qed.

Lemma matrix_add_comm (q : Z) (r c : nat) (A B : MatrixType) :
  field_matrix q r c A -> field_matrix q r c B ->
  matrix_add A B q = matrix_add B A q.
Proof.
  intros HA%field_matrix_shape HB%field_matrix_shape.
  destruct (matrix_add_spec q r c A B HA) as [Hs1 Hat1].
  destruct (matrix_add_spec q r c B A HB) as [Hs2 Hat2].
  apply (matrix_ext r c); try assumption.
  intros i j Hi Hj. rewrite Hat1, Hat2 by assumption.
  unfold add_mod. now rewrite Z.add_comm.
Qed.

Lemma add_mod_assoc (a b c q : Z) :
  0 < q < two64 -> 0 <= a < q -> 0 <= b < q -> 0 <= c < q ->
  add_mod (add_mod a b q) c q = add_mod a (add_mod b c q) q.
Proof.
  intros Hq Ha Hb Hc.
  pose proof (Z.mod_pos_bound (a + b) q ltac:(lia)).
  pose proof (Z.mod_pos_bound (b + c) q ltac:(lia)).
  rewrite !add_mod_eq by (unfold u64; rewrite ?add_mod_eq by (unfold u64; lia); lia).
  rewrite Z.add_mod_idemp_l, Z.add_mod_idemp_r by lia. now rewrite Z.add_assoc.
Qed.

Lemma matrix_add_assoc (q : Z) (r c : nat) (A B C : MatrixType) :
  0 < q < two64 ->
  field_matrix q r c A -> field_matrix q r c B -> field_matrix q r c C ->
  matrix_add (matrix_add A B q) C q = matrix_add A (matrix_add B C q) q.
Proof.
  intros Hq HA HB HC.
  pose proof (matrix_add_field q r c A B Hq HA HB) as HAB.
  destruct (matrix_add_spec q r c A B (field_matrix_shape _ _ _ _ HA)) as [_ Hab].
  destruct (matrix_add_spec q r c B C (field_matrix_shape _ _ _ _ HB)) as [_ Hbc].
  destruct (matrix_add_spec q r c (matrix_add A B q) C (field_matrix_shape _ _ _ _ HAB))
    as [Hs1 Hat1].
  destruct (matrix_add_spec q r c A (matrix_add B C q) (field_matrix_shape _ _ _ _ HA))
    as [Hs2 Hat2].
  apply (matrix_ext r c); try assumption.
  intros i j Hi Hj. rewrite Hat1, Hat2, Hab, Hbc by assumption.
  destruct HA as (_ & _ & HA), HB as (_ & _ & HB), HC as (_ & _ & HC).
  apply add_mod_assoc; [exact Hq | apply HA | apply HB | apply HC]; assumption.
Qed.

(** A fold with an operation that is closed, and commutative and
    associative in the form [(a + b) + c = (a + c) + b], on a class [P]. *)
Lemma fold_left_permutation {T : Type} (op : T -> T -> T) (P : T -> Prop) :
  (forall a b, P a -> P b -> P (op a b)) ->
  (forall a b c, P a -> P b -> P c -> op (op a b) c = op (op a c) b) ->
  forall l l', Permutation l l' -> Forall P l ->
  forall a, P a -> fold_left op l a = fold_left op l' a.
Proof.
  intros Hclosed Hswap l l' Hperm.
  induction Hperm as [|x l l' Hperm IH|x y l|l l' l'' H1 IH1 H2 IH2]; intros Hall a Ha.
  - reflexivity.
  - inversion Hall; subst. simpl. apply IH; [assumption|]. now apply Hclosed.
  - inversion Hall as [|? ? Hy Hall']; subst. inversion Hall' as [|? ? Hx _]; subst.
    simpl. now rewrite Hswap.
  - rewrite IH1 by assumption. apply IH2; [|exact Ha].
    now rewrite <- H1.
Qed.

Lemma zero_matrix_field (q : Z) (r c : nat) :
  0 < q -> field_matrix q r c (repeat (repeat 0 c) r).
Proof.
  intros Hq. destruct (shape_repeat r c) as [Hl Hr].
  split; [exact Hl|]. split; [exact Hr|]. intros i j Hi Hj.
  rewrite nth_repeat_lt by exact Hi. rewrite nth_repeat_lt by exact Hj. lia.
Qed.

Lemma matrix_add_zero_l (q : Z) (r c : nat) (A : MatrixType) :
  0 < q < two64 -> field_matrix q r c A ->
  matrix_add (repeat (repeat 0 c) r) A q = A.
Proof.
  intros Hq HA.
  destruct (matrix_add_spec q r c (repeat (repeat 0 c) r) A (shape_repeat r c))
    as [Hs Hat].
  apply (matrix_ext r c); [exact Hs | now apply (field_matrix_shape q) |].
  intros i j Hi Hj. rewrite Hat by assumption.
  unfold at2 at 1. rewrite nth_repeat_lt by exact Hi. rewrite nth_repeat_lt by exact Hj.
  destruct HA as (_ & _ & HA). specialize (HA i j Hi Hj). fold (at2 A i j) in HA.
  rewrite add_mod_eq by (unfold u64; lia). simpl. apply Z.mod_small. lia.
Qed.

Lemma matrix_sum_from_zero (q : Z) (r c : nat) (l : list MatrixType) :
  0 < q < two64 -> l <> [] -> Forall (field_matrix q r c) l ->
  matrix_sum q l =
  fold_left (fun acc B => matrix_add acc B q) l (repeat (repeat 0 c) r).
Proof.
  intros Hq Hne Hall. destruct l as [|A rest]; [contradiction|].
  inversion Hall; subst. simpl. now rewrite (matrix_add_zero_l q r c A).
Qed.

(** C8. Aggregation is order-independent.  Over [r] by [c] matrices with
    entries in [[0, q)], for a modulus [1 <= q] (a [uint64_t]),
    [matrix_add] is commutative and associative, and folding a list of
    such matrices with [matrix_add] gives the same matrix for every
    permutation of the list, whether the fold starts from the first
    matrix or from an accumulator of the same shape. *)
Theorem aggregation_order_independent (q : Z) (r c : nat) :
  1 <= q < two64 ->
  (forall A B, field_matrix q r c A -> field_matrix q r c B ->
     matrix_add A B q = matrix_add B A q) /\
  (forall A B C,
     field_matrix q r c A -> field_matrix q r c B -> field_matrix q r c C ->
     matrix_add (matrix_add A B q) C q = matrix_add A (matrix_add B C q) q) /\
  (forall l l', Forall (field_matrix q r c) l -> Permutation l l' ->
     matrix_sum q l = matrix_sum q l') /\
  (forall l l' A0, Forall (field_matrix q r c) l -> Permutation l l' ->
     field_matrix q r c A0 ->
     fold_left (fun acc B => matrix_add acc B q) l A0 =
     fold_left (fun acc B => matrix_add acc B q) l' A0).
Proof.
  intros Hq.
  assert (Hfold : forall l l' A0, Forall (field_matrix q r c) l -> Permutation l l' ->
            field_matrix q r c A0 ->
            fold_left (fun acc B => matrix_add acc B q) l A0 =
            fold_left (fun acc B => matrix_add acc B q) l' A0).
  { intros l l' A0 Hall Hperm HA0.
    apply (fold_left_permutation _ (field_matrix q r c)); try assumption.
    - intros X Y HX HY. apply matrix_add_field; [lia|assumption|assumption].
    - intros X Y Z HX HY HZ.
      rewrite (matrix_add_assoc q r c X Y Z) by (assumption || lia).
      rewrite (matrix_add_comm q r c Y Z) by assumption.
      now rewrite <- (matrix_add_assoc q r c X Z Y) by (assumption || lia). }
  split; [|split; [|split; [|exact Hfold]]].
  - intros A B. apply matrix_add_comm.
  - intros A B C HA HB HC. apply (matrix_add_assoc q r c); assumption || lia.
  - intros l l' Hall Hperm.
    destruct l as [|A rest].
    { apply Permutation_nil in Hperm. now subst. }
    assert (Hall' : Forall (field_matrix q r c) l') by now rewrite <- Hperm.
    assert (Hne' : l' <> []).
    { intros ->. symmetry in Hperm. apply Permutation_nil in Hperm. discriminate. }
    rewrite (matrix_sum_from_zero q r c (A :: rest)) by (try assumption; lia || discriminate).
    rewrite (matrix_sum_from_zero q r c l') by (try assumption; lia).
    apply Hfold; [assumption|assumption|]. apply zero_matrix_field. lia.
Qed.

Lemma field_matrix_1x2 (q a b : Z) :
  0 <= a < q -> 0 <= b < q -> field_matrix q 1 2 [[a; b]].
Proof.
  intros Ha Hb. split; [reflexivity|]. split.
  - intros i Hi. destruct i; [reflexivity|lia].
  - intros i j Hi Hj. destruct i; [|lia].
    destruct j as [|[|j]]; simpl; lia.
Qed.

Lemma aggregation_order_independent_witness :
  1 <= 5 < two64 /\
  matrix_sum 5 [[[1; 2]]; [[4; 4]]; [[3; 0]]] = matrix_sum 5 [[[4; 4]]; [[1; 2]]; [[3; 0]]].
Proof.
  split; [unfold two64; lia|].
  destruct (aggregation_order_independent 5 1 2) as (_ & _ & H & _); [unfold two64; lia|].
  apply H.
  - do 3 (constructor; [apply field_matrix_1x2; lia|]). constructor.
  - apply perm_swap.
Defined.

(** *** Congruences and finite sums *)

Lemma cong_refl (q a : Z) : cong q a a.
Proof. exists 0. ring. Qed.

Lemma cong_sym (q a b : Z) : cong q a b -> cong q b a.
Proof. intros [k Hk]. exists (- k). lia. Qed.

Lemma cong_trans (q a b c : Z) : cong q a b -> cong q b c -> cong q a c.
Proof. intros [k Hk] [l Hl]. exists (k + l). lia. Qed.

Lemma cong_add (q a b c d : Z) : cong q a b -> cong q c d -> cong q (a + c) (b + d).
Proof. intros [k Hk] [l Hl]. exists (k + l). lia. Qed.

Lemma cong_sub (q a b c d : Z) : cong q a b -> cong q c d -> cong q (a - c) (b - d).
Proof. intros [k Hk] [l Hl]. exists (k - l). lia. Qed.

Lemma cong_mul (q a b c d : Z) : cong q a b -> cong q c d -> cong q (a * c) (b * d).
Proof.
  intros [k Hk] [l Hl]. exists (a * l + d * k).
  replace (a * c - b * d) with (a * (c - d) + d * (a - b)) by ring.
  rewrite Hk, Hl. ring.
Qed.

Lemma cong_mod (q a : Z) : cong q (a mod q) a.
Proof.
  destruct (Z.eq_dec q 0) as [->|Hq].
  - rewrite Z.mod_0_r. apply cong_refl.
  - exists (- (a / q)). pose proof (Z.div_mod a q Hq). lia.
Qed.

Lemma cong_eq (q a b : Z) : a = b -> cong q a b.
Proof. intros ->. apply cong_refl. Qed.

Lemma cong_mod_eq (q a b : Z) : 0 < q -> cong q a b -> a mod q = b mod q.
Proof.
  intros Hq [k Hk]. replace a with (b + k * q) by lia. apply Z.mod_add. lia.
Qed.

Lemma zsum_ext (f g : nat -> Z) (lo n : nat) :
  (forall j, (lo <= j < lo + n)%nat -> f j = g j) -> zsum f lo n = zsum g lo n.
Proof.
  revert lo. induction n as [|n IH]; intros lo H; [reflexivity|].
  simpl. rewrite (H lo) by lia. f_equal. apply IH. intros j Hj. apply H. lia.
Qed.

Lemma zsum_cong (q : Z) (f g : nat -> Z) (lo n : nat) :
  (forall j, (lo <= j < lo + n)%nat -> cong q (f j) (g j)) ->
  cong q (zsum f lo n) (zsum g lo n).
Proof.
  revert lo. induction n as [|n IH]; intros lo H; [apply cong_refl|].
  simpl. apply cong_add; [apply H; lia|]. apply IH. intros j Hj. apply H. lia.
Qed.

Lemma zsum_lin (a b : Z) (f g : nat -> Z) (lo n : nat) :
  zsum (fun j => a * f j + b * g j) lo n = a * zsum f lo n + b * zsum g lo n.
Proof.
  revert lo. induction n as [|n IH]; intros lo; simpl; [ring|]. rewrite IH. ring.
Qed.

Lemma zsum_app (f : nat -> Z) (lo n1 n2 : nat) :
  zsum f lo (n1 + n2) = zsum f lo n1 + zsum f (lo + n1) n2.
Proof.
  revert lo. induction n1 as [|n1 IH]; intros lo; simpl.
  - now rewrite Nat.add_0_r.
  - rewrite IH. replace (S lo + n1)%nat with (lo + S n1)%nat by lia. ring.
Qed.

Lemma zsum_zero (f : nat -> Z) (lo n : nat) :
  (forall j, (lo <= j < lo + n)%nat -> f j = 0) -> zsum f lo n = 0.
Proof.
  revert lo. induction n as [|n IH]; intros lo H; [reflexivity|].
  simpl. rewrite (H lo) by lia. rewrite IH; [reflexivity|].
  intros j Hj. apply H. lia.
Qed.

(** The residual is linear in the row, modulo [q]. *)
Lemma residual_lin (q : Z) (d1 : nat) (A' A B : MatrixType) (i' i k : nat)
    (a b : Z) (e : list Z) :
  (forall j, (j <= d1)%nat -> cong q (at2 A' i' j) (a * at2 A i j + b * at2 B k j)) ->
  cong q (residual d1 A' i' e) (a * residual d1 A i e + b * residual d1 B k e).
Proof.
  intros H. unfold residual.
  replace (a * (zsum (fun j => at2 A i j * nth j e 0) 0 d1 - at2 A i d1) +
           b * (zsum (fun j => at2 B k j * nth j e 0) 0 d1 - at2 B k d1))
    with (zsum (fun j => a * (at2 A i j * nth j e 0) + b * (at2 B k j * nth j e 0)) 0 d1
          - (a * at2 A i d1 + b * at2 B k d1))
    by (rewrite zsum_lin; ring).
  apply cong_sub; [|apply H; lia].
  apply zsum_cong. intros j Hj.
  replace (a * (at2 A i j * nth j e 0) + b * (at2 B k j * nth j e 0))
    with ((a * at2 A i j + b * at2 B k j) * nth j e 0) by ring.
  apply cong_mul; [apply H; lia | apply cong_refl].
Qed.

Lemma residual_ext (d1 : nat) (A' A : MatrixType) (i' i : nat) (e : list Z) :
  (forall j, (j <= d1)%nat -> at2 A' i' j = at2 A i j) ->
  residual d1 A' i' e = residual d1 A i e.
Proof.
  intros H. unfold residual. rewrite (H d1) by lia. f_equal.
  apply zsum_ext. intros j Hj. rewrite H by lia. reflexivity.
Qed.

(** *** One pivot step *)

Lemma transp_same (i j : nat) : transp i j i = j.
Proof. unfold transp. destruct (Nat.eq_dec i i); [reflexivity|contradiction]. Qed.

Lemma transp_other (i j k : nat) : k <> i -> k <> j -> transp i j k = k.
Proof.
  intros Hi Hj. unfold transp.
  destruct (Nat.eq_dec k i); [contradiction|].
  destruct (Nat.eq_dec k j); [contradiction|reflexivity].
Qed.

Lemma transp_above (p b k : nat) :
  (p <= b)%nat -> (p < k)%nat -> (p <= transp p b k)%nat.
Proof.
  intros Hb Hk. unfold transp.
  destruct (Nat.eq_dec k p); [lia|]. destruct (Nat.eq_dec k b); lia.
Qed.

(** The array after swapping row [b] into position [p], normalising it and
    eliminating below, in terms of the array before. *)
Lemma pivot_step_spec (q : Z) (m d1 col p b : nat) (A : MatrixType) :
  shape m (d1 + 1) A -> (p <= b < m)%nat ->
  shape m (d1 + 1) (pivot_step q m d1 col p b A) /\
  (forall i j, (i < p)%nat -> at2 (pivot_step q m d1 col p b A) i j = at2 A i j) /\
  (forall j, at2 (pivot_step q m d1 col p b A) p j =
     if decide (col <= j < d1 + 1)%nat
     then mul_mod (at2 A b j) (mod_inverse (at2 A b col) q) q
     else at2 A b j) /\
  (forall i j, (p < i < m)%nat ->
     at2 (pivot_step q m d1 col p b A) i j =
     if decide (at2 A (transp p b i) col <> 0 /\ (col <= j < d1 + 1)%nat)
     then sub_mod (at2 A (transp p b i) j)
            (mul_mod (at2 A (transp p b i) col)
               (at2 (pivot_step q m d1 col p b A) p j) q) q
     else at2 A (transp p b i) j).
Proof.
  intros Hsh Hb. unfold pivot_step.
  set (A1 := swap_at [] A p b).
  assert (Hsh1 : shape m (d1 + 1) A1) by (apply shape_swap_at; [assumption|lia|lia]).
  assert (H1 : forall i j, at2 A1 i j = at2 A (transp p b i) j)
    by (intros i j; apply (at2_swap_at m (d1 + 1)); [assumption|lia|lia]).
  destruct (normalize_row_spec q m d1 col p A1 Hsh1 ltac:(lia)) as [Hsh2 H2].
  set (A2 := normalize_row q d1 col p A1) in *.
  destruct (eliminate_below_spec q m d1 col p A2 Hsh2 ltac:(lia)) as [Hsh3 H3].
  set (A3 := eliminate_below q m d1 col p A2) in *.
  assert (Hp : forall j, at2 A3 p j = at2 A2 p j).
  { intros j. rewrite H3. destruct (decide _) as [[? _]|_]; [lia|reflexivity]. }
  assert (Hoff : forall i j, i <> p -> at2 A2 i j = at2 A (transp p b i) j).
  { intros i j Hi. rewrite H2. destruct (decide _) as [[? _]|_]; [contradiction|apply H1]. }
  split; [exact Hsh3|]. split; [|split].
  - intros i j Hi. rewrite H3. destruct (decide _) as [[? _]|_]; [lia|].
    rewrite Hoff by lia. now rewrite transp_other by lia.
  - intros j. rewrite Hp, H2, !H1, transp_same.
    destruct (decide (p = p /\ _)) as [[_ ?]|Hn], (decide (col <= j < d1 + 1)%nat);
      try reflexivity; lia.
  - intros i j Hi. rewrite H3, Hp, !Hoff by lia.
    destruct (decide ((p < i < m)%nat /\ _)) as [(_ & ? & ?)|Hn],
      (decide (at2 A (transp p b i) col <> 0 /\ _)) as [[? ?]|Hn']; try reflexivity.
    + exfalso. apply Hn'. split; assumption.
    + exfalso. apply Hn. repeat split; assumption || lia.
Qed.

(** [find] on an index range. *)
Lemma find_seq_some (f : nat -> bool) (lo n x : nat) :
  find f (seq lo n) = Some x -> (lo <= x < lo + n)%nat /\ f x = true.
Proof.
  intros H. apply find_some in H. destruct H as [Hin Hf].
  apply in_seq in Hin. split; [lia|exact Hf].
Qed.

Lemma find_seq_none (f : nat -> bool) (lo n x : nat) :
  find f (seq lo n) = None -> (lo <= x < lo + n)%nat -> f x = false.
Proof.
  intros H Hx. apply (find_none f (seq lo n) H). apply in_seq. lia.
Qed.

Lemma find_seq_first (f : nat -> bool) (lo n x : nat) :
  (lo <= x < lo + n)%nat -> (forall j, (lo <= j < x)%nat -> f j = false) -> f x = true ->
  find f (seq lo n) = Some x.
Proof.
  revert lo. induction n as [|n IH]; intros lo Hx Hbefore Hfx; [lia|].
  simpl. destruct (Nat.eq_dec lo x) as [->|Hne].
  - now rewrite Hfx.
  - rewrite Hbefore by lia. apply IH; [lia| |exact Hfx].
    intros j Hj. apply Hbefore. lia.
Qed.

Lemma find_pivot_some (A : MatrixType) (col p m b : nat) :
  find_pivot A col p m = Some b -> (p <= b < m)%nat /\ at2 A b col <> 0.
Proof.
  unfold find_pivot. intros H. apply find_seq_some in H. destruct H as [Hb Hnz].
  split; [lia|]. intros Hz. rewrite Hz in Hnz. discriminate.
Qed.

Lemma find_pivot_none (A : MatrixType) (col p m i : nat) :
  find_pivot A col p m = None -> (p <= i < m)%nat -> at2 A i col = 0.
Proof.
  unfold find_pivot. intros H Hi.
  pose proof (find_seq_none _ _ _ i H ltac:(lia)) as Hf. simpl in Hf.
  destruct (Z.eqb_spec (at2 A i col) 0); [assumption|discriminate].
Qed.

(** *** Forward elimination keeps the invariant *)

Section PivotStep.

Context (q : Z) (m d1 : nat) (A0 A : MatrixType) (origin : list nat) (col p b : nat).
Hypothesis Hprime : Z.prime q.
Hypothesis Hq : q < two64.
Hypothesis Hinv : fwd_inv q m d1 A0 col p A origin.
Hypothesis Hcol : (col < d1)%nat.
Hypothesis Hb : (p <= b < m)%nat.
Hypothesis Hnz : at2 A b col <> 0.

Local Abbreviation A3 := (pivot_step q m d1 col p b A).
Local Abbreviation pivot_inv := (mod_inverse (at2 A b col) q).

Lemma entry_u64 (i j : nat) : (i < m)%nat -> (j <= d1)%nat -> u64 (at2 A i j).
Proof using All.
  intros Hi Hj. destruct (Nat.eq_dec j d1) as [->|Hne].
  - now apply (inv_rhs Hinv).
  - apply (inv_coeff Hinv); lia.
Qed.

Lemma modulus_ge_2 : 2 <= q.
Proof using All. now apply Z.prime_ge_2. Qed.

Lemma pivot_inv_range : 0 <= pivot_inv < q.
Proof using All.
  apply mod_inverse_range. pose proof modulus_ge_2. lia.
Qed.

Lemma pivot_inv_mul : (pivot_inv * at2 A b col) mod q = 1.
Proof using All.
  apply mod_inverse_mul_regular; [assumption|assumption|].
  now apply (inv_coeff Hinv b col ltac:(lia) Hcol).
Qed.

Lemma pivot_row_left (j : nat) : (j < col)%nat -> at2 A3 p j = 0.
Proof using All.
  intros Hj.
  destruct (pivot_step_spec q m d1 col p b A (inv_shape Hinv) Hb)
    as (_ & _ & Hrow & _).
  rewrite Hrow. destruct (decide _); [lia|].
  apply (inv_below Hinv); lia.
Qed.

Lemma pivot_row_right (j : nat) :
  (col <= j <= d1)%nat -> at2 A3 p j = (at2 A b j * pivot_inv) mod q.
Proof using All.
  intros Hj.
  destruct (pivot_step_spec q m d1 col p b A (inv_shape Hinv) Hb)
    as (_ & _ & Hrow & _).
  rewrite Hrow. destruct (decide _); [|lia].
  pose proof modulus_ge_2. pose proof pivot_inv_range.
  apply mul_mod_eq; [lia | apply entry_u64; lia | unfold u64; lia].
Qed.

Lemma pivot_row_one : at2 A3 p col = 1.
Proof using All.
  rewrite pivot_row_right by lia. rewrite Z.mul_comm. apply pivot_inv_mul.
Qed.

Lemma pivot_row_range (j : nat) : (j <= d1)%nat -> 0 <= at2 A3 p j < q.
Proof using All.
  intros Hj. pose proof modulus_ge_2.
  destruct (Nat.lt_ge_cases j col) as [Hlt|Hge].
  - rewrite pivot_row_left by exact Hlt. lia.
  - rewrite pivot_row_right by lia. apply Z.mod_pos_bound. lia.
Qed.

(** The old row [b] is the pivot times the new row [p], modulo [q]. *)
Lemma pivot_row_cong (j : nat) :
  (j <= d1)%nat -> cong q (at2 A b j) (at2 A b col * at2 A3 p j + 0 * at2 A b j).
Proof using All.
  intros Hj. rewrite Z.mul_0_l, Z.add_0_r.
  destruct (Nat.lt_ge_cases j col) as [Hlt|Hge].
  - rewrite pivot_row_left by exact Hlt.
    rewrite (inv_below Hinv b j) by lia.
    rewrite Z.mul_0_r. apply cong_refl.
  - rewrite pivot_row_right by lia. apply cong_sym.
    apply (cong_trans _ _ (at2 A b col * (at2 A b j * pivot_inv))).
    + apply cong_mul; [apply cong_refl | apply cong_mod].
    + replace (at2 A b col * (at2 A b j * pivot_inv))
        with ((pivot_inv * at2 A b col) * at2 A b j) by ring.
      apply (cong_trans _ _ (1 * at2 A b j)); [|apply cong_eq; ring].
      apply cong_mul; [|apply cong_refl].
      rewrite <- pivot_inv_mul. apply cong_sym, cong_mod.
Qed.

Lemma lower_row_source (i : nat) :
  (p < i < m)%nat -> (p <= transp p b i < m)%nat.
Proof using All.
  intros Hi. split; [apply transp_above; lia | apply transp_lt; lia].
Qed.

Lemma lower_row_left (i j : nat) : (p < i < m)%nat -> (j < col)%nat -> at2 A3 i j = 0.
Proof using All.
  intros Hi Hj.
  destruct (pivot_step_spec q m d1 col p b A (inv_shape Hinv) Hb)
    as (_ & _ & _ & Hup).
  rewrite Hup by exact Hi. destruct (decide _) as [[_ ?]|_]; [lia|].
  apply (inv_below Hinv); [|exact Hj].
  now apply lower_row_source.
Qed.

Lemma lower_row_right (i j : nat) :
  (p < i < m)%nat -> (col <= j <= d1)%nat -> at2 A (transp p b i) col <> 0 ->
  at2 A3 i j =
  (at2 A (transp p b i) j - at2 A (transp p b i) col * at2 A3 p j) mod q.
Proof using All.
  intros Hi Hj Hf.
  destruct (pivot_step_spec q m d1 col p b A (inv_shape Hinv) Hb)
    as (_ & _ & _ & Hup).
  rewrite Hup by exact Hi. destruct (decide _) as [_|Hn]; [|exfalso; apply Hn; split; [assumption|lia]].
  pose proof modulus_ge_2. pose proof (lower_row_source i Hi) as Hs.
  pose proof (pivot_row_range j ltac:(lia)) as Hr.
  pose proof (entry_u64 (transp p b i) col ltac:(lia) ltac:(lia)) as Hfu.
  assert (Hmu : mul_mod (at2 A (transp p b i) col) (at2 A3 p j) q
                = (at2 A (transp p b i) col * at2 A3 p j) mod q)
    by (apply mul_mod_eq; [lia | assumption | unfold u64; lia]).
  rewrite Hmu.
  pose proof (Z.mod_pos_bound (at2 A (transp p b i) col * at2 A3 p j) q ltac:(lia)).
  rewrite sub_mod_eq by (try lia; apply entry_u64; lia).
  apply Zminus_mod_idemp_r.
Qed.

Lemma lower_row_unchanged (i j : nat) :
  (p < i < m)%nat -> at2 A (transp p b i) col = 0 ->
  at2 A3 i j = at2 A (transp p b i) j.
Proof using All.
  intros Hi Hf.
  destruct (pivot_step_spec q m d1 col p b A (inv_shape Hinv) Hb)
    as (_ & _ & _ & Hup).
  rewrite Hup by exact Hi. destruct (decide _) as [[? _]|_]; [contradiction|reflexivity].
Qed.

(** The old row is the new row plus the factor times the new pivot row. *)
Lemma lower_row_cong (i j : nat) :
  (p < i < m)%nat -> (j <= d1)%nat ->
  cong q (at2 A (transp p b i) j)
    (1 * at2 A3 i j + at2 A (transp p b i) col * at2 A3 p j).
Proof using All.
  intros Hi Hj. rewrite Z.mul_1_l.
  destruct (Z.eq_dec (at2 A (transp p b i) col) 0) as [Hz|Hf].
  - rewrite lower_row_unchanged, Hz by assumption. apply cong_eq. ring.
  - destruct (Nat.lt_ge_cases j col) as [Hlt|Hge].
    + rewrite lower_row_left, pivot_row_left by assumption.
      rewrite (inv_below Hinv (transp p b i) j)
        by (try assumption; now apply lower_row_source).
      apply cong_eq. ring.
    + rewrite lower_row_right by (try assumption; lia).
      apply cong_sym.
      replace (at2 A (transp p b i) j)
        with (at2 A (transp p b i) j - at2 A (transp p b i) col * at2 A3 p j
              + at2 A (transp p b i) col * at2 A3 p j) at 2 by ring.
      apply cong_add; [apply cong_mod | apply cong_refl].
Qed.

Lemma lower_row_col (i : nat) : (p < i < m)%nat -> at2 A3 i col = 0.
Proof using All.
  intros Hi. pose proof modulus_ge_2. pose proof (lower_row_source i Hi) as Hs.
  destruct (Z.eq_dec (at2 A (transp p b i) col) 0) as [Hz|Hf].
  - now rewrite lower_row_unchanged by assumption.
  - rewrite lower_row_right by (try assumption; lia).
    rewrite pivot_row_one, Z.mul_1_r, Z.sub_diag. apply Z.mod_0_l. lia.
Qed.

Lemma lower_row_range (i j : nat) :
  (p < i < m)%nat -> (j < d1)%nat -> regular q (at2 A3 i j).
Proof using All.
  intros Hi Hj. pose proof modulus_ge_2. pose proof (lower_row_source i Hi) as Hs.
  destruct (Z.eq_dec (at2 A (transp p b i) col) 0) as [Hz|Hf].
  - rewrite lower_row_unchanged by assumption.
    apply (inv_coeff Hinv); lia.
  - apply regular_reduced; [assumption|].
    destruct (Nat.lt_ge_cases j col) as [Hlt|Hge].
    + rewrite lower_row_left by assumption. lia.
    + rewrite lower_row_right by (try assumption; lia). apply Z.mod_pos_bound. lia.
Qed.

Lemma lower_row_rhs (i : nat) : (p < i < m)%nat -> u64 (at2 A3 i d1).
Proof using All.
  intros Hi. pose proof modulus_ge_2. pose proof (lower_row_source i Hi) as Hs.
  destruct (Z.eq_dec (at2 A (transp p b i) col) 0) as [Hz|Hf].
  - rewrite lower_row_unchanged by assumption. apply entry_u64; lia.
  - rewrite lower_row_right by (try assumption; lia). apply u64_mod. lia.
Qed.

Lemma upper_row_same (i j : nat) : (i < p)%nat -> at2 A3 i j = at2 A i j.
Proof using All.
  intros Hi.
  destruct (pivot_step_spec q m d1 col p b A (inv_shape Hinv) Hb)
    as (_ & Hlow & _).
  now apply Hlow.
Qed.

End PivotStep.

Lemma cong_zero_lin (q r a r1 b r2 : Z) :
  cong q r (a * r1 + b * r2) -> cong q r1 0 -> b = 0 \/ cong q r2 0 -> cong q r 0.
Proof.
  intros H H1 H2. apply (cong_trans _ _ _ _ H).
  apply (cong_trans _ _ (a * 0 + b * r2)).
  { apply cong_add; [|apply cong_refl]. apply cong_mul; [apply cong_refl|exact H1]. }
  destruct H2 as [->|H2]; [apply cong_eq; ring|].
  apply (cong_trans _ _ (a * 0 + b * 0)); [|apply cong_eq; ring].
  apply cong_add; [apply cong_refl|]. apply cong_mul; [apply cong_refl|exact H2].
Qed.

Lemma fwd_inv_pivot (q : Z) (m d1 : nat) (A0 A : MatrixType) (origin : list nat)
    (col p b : nat) :
  Z.prime q -> q < two64 ->
  fwd_inv q m d1 A0 col p A origin ->
  (col < d1)%nat -> (p <= b < m)%nat -> at2 A b col <> 0 ->
  fwd_inv q m d1 A0 (S col) (S p) (pivot_step q m d1 col p b A) (swap_at 0%nat origin p b).
Proof.
  intros Hprime Hq Hinv Hcol Hb Hnz.
  pose proof (inv_origin_length Hinv) as Holen.
  pose proof (inv_count Hinv) as Hcount.
  assert (Horig : forall k, nth k (swap_at 0%nat origin p b) 0%nat
                            = nth (transp p b k) origin 0%nat)
    by (intros k; apply nth_swap_at; lia).
  constructor.
  - now apply pivot_step_spec; [apply (inv_shape Hinv)|].
  - now rewrite length_swap_at.
  - intros k Hk. rewrite Horig.
    apply (inv_origin_lt Hinv). apply transp_lt; lia.
  - lia.
  - intros i j Hi Hj.
    destruct (lt_eq_lt_dec i p) as [[Hlt| -> ]|Hgt].
    + rewrite (upper_row_same q m d1 A0 A origin col p b) by assumption.
      now apply (inv_coeff Hinv).
    + apply regular_reduced; [assumption|].
      apply (pivot_row_range q m d1 A0 A origin col p b); try assumption; lia.
    + apply (lower_row_range q m d1 A0 A origin col p b); try assumption; lia.
  - intros i Hi.
    destruct (lt_eq_lt_dec i p) as [[Hlt| -> ]|Hgt].
    + rewrite (upper_row_same q m d1 A0 A origin col p b) by assumption.
      now apply (inv_rhs Hinv).
    + pose proof (pivot_row_range q m d1 A0 A origin col p b
                    Hprime Hq Hinv Hcol Hb Hnz d1 ltac:(lia)).
      unfold u64. lia.
    + apply (lower_row_rhs q m d1 A0 A origin col p b); try assumption; lia.
  - intros i j Hi Hj.
    destruct (Nat.eq_dec j col) as [->|Hne].
    + apply (lower_row_col q m d1 A0 A origin col p b); try assumption; lia.
    + apply (lower_row_left q m d1 A0 A origin col p b); try assumption; lia.
  - intros k Hk.
    destruct (Nat.eq_dec k p) as [->|Hne].
    + exists col. split; [lia|]. split; [exact Hcol|]. split; [|split].
      * now apply (pivot_row_one q m d1 A0 A origin col p b).
      * intros j Hj. now apply (pivot_row_left q m d1 A0 A origin col p b).
      * intros k' j Hk' Hj. destruct (Nat.eq_dec j col) as [->|Hjc].
        -- now apply (lower_row_col q m d1 A0 A origin col p b).
        -- apply (lower_row_left q m d1 A0 A origin col p b); try assumption; lia.
    + destruct (inv_lead Hinv k ltac:(lia)) as (c & Hc & Hcd & H1 & Hleft & Hdown).
      exists c. split; [lia|]. split; [exact Hcd|]. split; [|split].
      * rewrite (upper_row_same q m d1 A0 A origin col p b) by (assumption || lia).
        exact H1.
      * intros j Hj.
        rewrite (upper_row_same q m d1 A0 A origin col p b) by (assumption || lia).
        now apply Hleft.
      * intros k' j Hk' Hj.
        destruct (lt_eq_lt_dec k' p) as [[Hlt| ->]|Hgt].
        -- rewrite (upper_row_same q m d1 A0 A origin col p b) by assumption.
           now apply Hdown.
        -- apply (pivot_row_left q m d1 A0 A origin col p b); try assumption; lia.
        -- apply (lower_row_left q m d1 A0 A origin col p b); try assumption; lia.
  - intros e Hpiv k Hk Hsat. rewrite Horig.
    assert (Hold : forall k', (k' < p)%nat -> sat q d1 A k' e).
    { intros k' Hk'. unfold sat.
      rewrite <- (residual_ext d1 (pivot_step q m d1 col p b A) A k' k' e).
      - apply Hpiv. lia.
      - intros j _. now apply (upper_row_same q m d1 A0 A origin col p b). }
    assert (Hrowb : sat q d1 A b e).
    { unfold sat.
      apply (cong_zero_lin q _ (at2 A b col)
               (residual d1 (pivot_step q m d1 col p b A) p e) 0 (residual d1 A b e)).
      - apply residual_lin. intros j Hj.
        now apply (pivot_row_cong q m d1 A0 A origin col p b).
      - apply Hpiv. lia.
      - now left. }
    destruct (lt_eq_lt_dec k p) as [[Hlt| ->]|Hgt].
    + rewrite transp_other by lia.
      apply (inv_orig Hinv e Hold k Hk). now apply Hold.
    + rewrite transp_same.
      apply (inv_orig Hinv e Hold b ltac:(lia) Hrowb).
    + pose proof (lower_row_source q m d1 A0 A origin col p b
                    Hprime Hq Hinv Hcol Hb Hnz k ltac:(lia)) as Hs.
      apply (inv_orig Hinv e Hold (transp p b k) ltac:(lia)).
      unfold sat.
      apply (cong_zero_lin q _ 1 (residual d1 (pivot_step q m d1 col p b A) k e)
               (at2 A (transp p b k) col)
               (residual d1 (pivot_step q m d1 col p b A) p e)).
      * apply residual_lin. intros j Hj.
        apply (lower_row_cong q m d1 A0 A origin col p b); try assumption; lia.
      * exact Hsat.
      * right. apply Hpiv. lia.
Qed.

Lemma fwd_inv_free (q : Z) (m d1 : nat) (A0 A : MatrixType) (origin : list nat)
    (col p : nat) :
  fwd_inv q m d1 A0 col p A origin ->
  (forall i, (p <= i < m)%nat -> at2 A i col = 0) ->
  fwd_inv q m d1 A0 (S col) p A origin.
Proof.
  intros Hinv Hfree. destruct Hinv as [Hsh Hol Holt Hcnt Hco Hrhs Hbel Hlead Horig].
  constructor; try assumption.
  - lia.
  - intros i j Hi Hj. destruct (Nat.eq_dec j col) as [->|Hne].
    + now apply Hfree.
    + apply Hbel; [exact Hi|lia].
  - intros k Hk. destruct (Hlead k Hk) as (c & Hc & Hrest).
    exists c. split; [lia|exact Hrest].
Qed.

Lemma tracked_step_some (q : Z) (m d1 col p b : nat) (A : MatrixType)
    (origin : list nat) :
  find_pivot A col p m = Some b -> Z.of_nat b < two31 ->
  tracked_step q m d1 col (p, A, origin) =
  (S p, pivot_step q m d1 col p b A, swap_at 0%nat origin p b).
Proof.
  intros Hf Hb. unfold tracked_step.
  destruct (best_row_some A col p m b (length A) Hf Hb) as [-> ->]. reflexivity.
Qed.

Lemma tracked_step_none (q : Z) (m d1 col p : nat) (A : MatrixType) (origin : list nat) :
  find_pivot A col p m = None -> tracked_step q m d1 col (p, A, origin) = (p, A, origin).
Proof. intros Hf. unfold tracked_step. now rewrite best_row_none. Qed.

Lemma tracked_step_inv (q : Z) (m d1 : nat) (A0 A : MatrixType) (origin : list nat)
    (col p : nat) :
  Z.prime q -> q < two64 -> Z.of_nat m < two31 ->
  fwd_inv q m d1 A0 col p A origin -> (col < d1)%nat -> (p < m)%nat ->
  fwd_inv q m d1 A0 (S col)
    (fst (fst (tracked_step q m d1 col (p, A, origin))))
    (snd (fst (tracked_step q m d1 col (p, A, origin))))
    (snd (tracked_step q m d1 col (p, A, origin))).
Proof.
  intros Hprime Hq Hm31 Hinv Hcol Hp.
  destruct (find_pivot A col p m) as [b|] eqn:Hfind.
  - pose proof (find_pivot_some _ _ _ _ _ Hfind) as [Hb Hnz].
    rewrite (tracked_step_some q m d1 col p b A origin Hfind) by lia. cbn [fst snd].
    now apply fwd_inv_pivot.
  - rewrite (tracked_step_none q m d1 col p A origin Hfind). cbn [fst snd].
    apply fwd_inv_free; [exact Hinv|].
    intros i Hi. now apply (find_pivot_none A col p m).
Qed.

(** The column loop keeps the invariant, whether it runs through all the
    columns or stops because every row has a pivot. *)
Lemma tracked_loop_inv (q : Z) (m d1 : nat) (A0 : MatrixType) :
  Z.prime q -> q < two64 -> Z.of_nat m < two31 ->
  forall (n col p : nat) (A : MatrixType) (origin : list nat),
    fwd_inv q m d1 A0 col p A origin -> (col + n <= d1)%nat ->
    exists col', (col' <= d1)%nat /\
      fwd_inv q m d1 A0 col'
        (fst (fst (for_while (fun st => (fst (fst st) <? m)%nat) (tracked_step q m d1)
                     (seq col n) (p, A, origin))))
        (snd (fst (for_while (fun st => (fst (fst st) <? m)%nat) (tracked_step q m d1)
                     (seq col n) (p, A, origin))))
        (snd (for_while (fun st => (fst (fst st) <? m)%nat) (tracked_step q m d1)
                (seq col n) (p, A, origin))).
Proof.
  intros Hprime Hq Hm31 n. induction n as [|n IH]; intros col p A origin Hinv Hn.
  - exists col. split; [lia|exact Hinv].
  - cbn [seq for_while fst]. destruct (Nat.ltb_spec p m) as [Hp|Hp].
    + pose proof (tracked_step_inv q m d1 A0 A origin col p Hprime Hq Hm31 Hinv
                    ltac:(lia) Hp) as Hstep.
      destruct (tracked_step q m d1 col (p, A, origin)) as [[p' A'] origin'].
      apply IH; [exact Hstep|lia].
    + exists col. split; [lia|exact Hinv].
Qed.

(** Forgetting the ghost list gives back the solver's own loop. *)
Lemma tracked_loop_erase (q : Z) (m d1 : nat) (idx : list nat) (p : nat)
    (A : MatrixType) (origin : list nat) :
  for_while (fun st => (fst st <? m)%nat) (forward_step q m d1) idx (p, A) =
  fst (for_while (fun st => (fst (fst st) <? m)%nat) (tracked_step q m d1) idx
         (p, A, origin)).
Proof.
  revert p A origin. induction idx as [|col idx IH]; intros p A origin; [reflexivity|].
  cbn [for_while fst]. destruct (p <? m)%nat; [|reflexivity].
  unfold forward_step, tracked_step.
  destruct (best_row A col p m =? -1); apply IH.
Qed.

Lemma forward_elimination_tracked (q : Z) (m d1 : nat) (A : MatrixType) :
  forward_elimination q m d1 A = fst (tracked_elimination q m d1 A).
Proof. apply tracked_loop_erase. Qed.

Lemma fwd_inv_init (q : Z) (m d1 : nat) (A0 : MatrixType) :
  shape m (d1 + 1) A0 ->
  (forall i j, (i < m)%nat -> (j < d1)%nat -> regular q (at2 A0 i j)) ->
  (forall i, (i < m)%nat -> u64 (at2 A0 i d1)) ->
  fwd_inv q m d1 A0 0 0 A0 (seq 0 m).
Proof.
  intros Hsh Hco Hrhs. constructor; try assumption.
  - apply length_seq.
  - intros k Hk. rewrite seq_nth by exact Hk. lia.
  - lia.
  - intros i j _ Hj. lia.
  - intros k Hk. lia.
  - intros e _ k Hk Hsat. now rewrite seq_nth by exact Hk.
Qed.

(** *** Back substitution solves the pivot rows *)

Lemma mod_inverse_one (q : Z) : 2 <= q < two64 -> mod_inverse 1 q = 1.
Proof.
  intros Hq. rewrite mod_inverse_eq by lia.
  rewrite Z.pow_1_l by lia. apply Z.mod_small. lia.
Qed.

Section BackSubstitution.

Context (q : Z) (m d1 : nat) (A0 A : MatrixType) (origin : list nat) (col p : nat).
Hypothesis Hprime : Z.prime q.
Hypothesis Hq : q < two64.
Hypothesis Hinv : fwd_inv q m d1 A0 col p A origin.
Hypothesis Hd31 : Z.of_nat d1 < two31.

Local Abbreviation partial_solution := (partial_solution q d1).

(** The inner loop leaves the right-hand side minus the contributions of
    the columns right of the leading one. *)
Lemma back_sum_spec (i c : nat) (res : VectorType) :
  (i < p)%nat -> (c < d1)%nat -> partial_solution res ->
  let sum := for_range (c + 1) d1
               (fun j sum => sub_mod sum (mul_mod (at2 A i j) (nth j res 0) q) q)
               (at2 A i d1) in
  u64 sum /\
  cong q sum (at2 A i d1 - zsum (fun j => at2 A i j * nth j res 0) (c + 1) (d1 - (c + 1))).
Proof using All.
  intros Hi Hc [Hlen Hres]. pose proof (Z.prime_ge_2 _ Hprime) as H2.
  pose proof (inv_count Hinv) as Hcnt.
  apply (for_range_ind
           (fun k s => u64 s /\
              cong q s (at2 A i d1
                        - zsum (fun j => at2 A i j * nth j res 0) (c + 1) (k - (c + 1))))
           (c + 1) d1); [lia| |].
  - split; [apply (inv_rhs Hinv); lia|].
    rewrite Nat.sub_diag. simpl. apply cong_eq. ring.
  - intros k s Hk [Hs Hcong].
    pose proof (inv_coeff Hinv i k ltac:(lia) ltac:(lia)) as [Hak _]. unfold u64 in Hak.
    pose proof (Hres k) as Hrk.
    assert (Hmul : mul_mod (at2 A i k) (nth k res 0) q = (at2 A i k * nth k res 0) mod q)
      by (apply mul_mod_eq; unfold u64; lia).
    pose proof (Z.mod_pos_bound (at2 A i k * nth k res 0) q ltac:(lia)) as Hmb.
    rewrite Hmul, sub_mod_eq by (assumption || lia).
    split; [apply u64_mod; lia|].
    replace (S k - (c + 1))%nat with ((k - (c + 1)) + 1)%nat by lia.
    rewrite zsum_app. simpl. replace (c + 1 + (k - (c + 1)))%nat with k by lia.
    apply (cong_trans _ _ (s - (at2 A i k * nth k res 0) mod q)); [apply cong_mod|].
    replace (at2 A i d1
             - (zsum (fun j => at2 A i j * nth j res 0) (c + 1) (k - (c + 1))
                + (at2 A i k * nth k res 0 + 0)))
      with (at2 A i d1 - zsum (fun j => at2 A i j * nth j res 0) (c + 1) (k - (c + 1))
            - at2 A i k * nth k res 0) by ring.
    apply cong_sub; [exact Hcong | apply cong_mod].
Qed.

(** Processing pivot row [i] solves it and keeps the rows below solved. *)
Lemma back_step_solves (i : nat) (res : VectorType) :
  (i < p)%nat -> partial_solution res ->
  partial_solution (back_step q d1 A i res) /\
  sat q d1 A i (back_step q d1 A i res) /\
  forall k, (i < k < m)%nat -> sat q d1 A k res -> sat q d1 A k (back_step q d1 A i res).
Proof using All.
  intros Hi Hres. pose proof (Z.prime_ge_2 _ Hprime) as H2.
  destruct (inv_lead Hinv i Hi) as (c & _ & Hc & Hone & Hleft & Hdown).
  assert (Hfind : find_leading A i d1 = Some c).
  { unfold find_leading. apply find_seq_first; [lia| |].
    - intros j Hj. now rewrite Hleft by lia.
    - now rewrite Hone. }
  destruct (back_sum_spec i c res Hi Hc Hres) as [Hsum Hcong].
  unfold back_step. rewrite (leading_col_some A i d1 c Hfind) by lia.
  replace (Z.of_nat c + 1) with (Z.of_nat (c + 1)) by lia.
  rewrite !size_of_int_of_nat.
  destruct (Z.eqb_spec (Z.of_nat c) (-1)) as [?|_]; [lia|].
  rewrite Hone. cbn [Z.eqb].
  set (sum := for_range (c + 1) d1 _ _) in *.
  rewrite mod_inverse_one by lia.
  rewrite mul_mod_eq by (unfold u64 in *; lia). rewrite Z.mul_1_r.
  destruct Hres as [Hlen Hres].
  assert (Hnth : forall j, nth j (<[c := sum mod q]> res) 0
                           = if Nat.eq_dec c j then sum mod q else nth j res 0)
    by (intros j; apply nth_insert; lia).
  split; [|split].
  - split; [now rewrite length_insert|]. intros j. rewrite Hnth.
    destruct (Nat.eq_dec c j); [apply Z.mod_pos_bound; lia | apply Hres].
  - unfold sat, residual.
    replace d1 with (c + (1 + (d1 - (c + 1))))%nat at 1 by lia.
    rewrite !zsum_app.
    rewrite (zsum_zero _ 0 c) by (intros j Hj; rewrite Hleft by lia; ring).
    simpl zsum. rewrite Hnth, Hone.
    destruct (Nat.eq_dec c c) as [_|?]; [|contradiction].
    rewrite (zsum_ext _ (fun j => at2 A i j * nth j res 0) (c + 1))
      by (intros j Hj; rewrite Hnth; destruct (Nat.eq_dec c j); [lia|reflexivity]).
    set (rest := zsum (fun j => at2 A i j * nth j res 0) (c + 1) (d1 - (c + 1))) in *.
    apply (cong_trans _ _ (0 + (1 * sum + 0 + rest) - at2 A i d1)).
    + apply cong_sub; [|apply cong_refl]. apply cong_add; [apply cong_refl|].
      apply cong_add; [|apply cong_refl]. apply cong_add; [|apply cong_refl].
      apply cong_mul; [apply cong_refl | apply cong_mod].
    + apply (cong_trans _ _ (0 + (1 * (at2 A i d1 - rest) + 0 + rest) - at2 A i d1));
        [|apply cong_eq; ring].
      apply cong_sub; [|apply cong_refl]. apply cong_add; [apply cong_refl|].
      apply cong_add; [|apply cong_refl]. apply cong_add; [|apply cong_refl].
      apply cong_mul; [apply cong_refl | exact Hcong].
  - intros k Hk Hsat. unfold sat, residual in *.
    rewrite (zsum_ext _ (fun j => at2 A k j * nth j res 0)); [exact Hsat|].
    intros j Hj. rewrite Hnth. destruct (Nat.eq_dec c j) as [<-|_]; [|reflexivity].
    rewrite (Hdown k c) by lia. ring.
Qed.

Lemma back_rows_solved (n lo : nat) :
  (lo + n = p)%nat ->
  partial_solution
    (fold_left (fun result i => back_step q d1 A i result) (rev (seq lo n)) (repeat 0 d1)) /\
  forall k, (lo <= k < p)%nat ->
    sat q d1 A k
      (fold_left (fun result i => back_step q d1 A i result) (rev (seq lo n)) (repeat 0 d1)).
Proof using All.
  pose proof (Z.prime_ge_2 _ Hprime) as H2.
  pose proof (inv_count Hinv) as Hcnt.
  revert lo. induction n as [|n IH]; intros lo Hlo.
  - simpl. split; [|intros; lia]. split; [apply repeat_length|].
    intros j. destruct (Nat.lt_ge_cases j d1).
    + rewrite nth_repeat_lt by assumption. lia.
    + rewrite nth_overflow by (rewrite repeat_length; assumption). lia.
  - cbn [seq rev]. rewrite fold_left_app. cbn [fold_left].
    destruct (IH (S lo) ltac:(lia)) as [Hres Hsat].
    set (res := fold_left _ (rev (seq (S lo) n)) _) in *.
    destruct (back_step_solves lo res ltac:(lia) Hres) as (Hres' & Hrow & Hkeep).
    split; [exact Hres'|]. intros k Hk.
    destruct (Nat.eq_dec k lo) as [->|Hne]; [exact Hrow|].
    apply Hkeep; [lia|]. apply Hsat. lia.
Qed.

Lemma back_substitution_solves (k : nat) :
  (col <= d1)%nat -> (k < p)%nat -> sat q d1 A k (back_substitution q d1 p A).
Proof using All.
  intros Hcol Hk. pose proof (inv_count Hinv) as Hcnt.
  unfold back_substitution.
  rewrite (to_int_small (Z.of_nat p)), (to_int_small (Z.of_nat d1)) by lia.
  replace (Z.to_nat (Z.min (Z.of_nat p - 1) (Z.of_nat d1 - 1) + 1)) with p by lia.
  apply (back_rows_solved p 0); lia.
Qed.

End BackSubstitution.

(** *** The solver satisfies the pivoted equations *)

Lemma residual_build_augmented (M : MatrixType) (y : VectorType) (m d1 i : nat)
    (e : list Z) :
  (i < m)%nat -> length (nth i M []) = d1 ->
  residual d1 (build_augmented M y m d1) i e = dot (nth i M []) e - nth i y 0.
Proof.
  intros Hi Hlen. destruct (build_augmented_spec M y m d1) as [_ Hat].
  destruct (Hat i Hi) as [Hco Hrhs]. unfold residual, dot.
  rewrite Hrhs, Hlen. f_equal. apply zsum_ext. intros j Hj.
  rewrite Hco by lia. reflexivity.
Qed.

(** The column loop on the augmented array of a system over Z_q ends in a
    state that satisfies the invariant. *)
Lemma tracked_elimination_inv (M : MatrixType) (y : VectorType) (q : Z) (d1 : nat) :
  Z.prime q -> q < two64 -> Z.of_nat (length M) < two31 ->
  regular_matrix q (length M) d1 M -> Forall u64 y ->
  exists col, (col <= d1)%nat /\
    fwd_inv q (length M) d1 (build_augmented M y (length M) d1) col
      (fst (fst (tracked_elimination q (length M) d1 (build_augmented M y (length M) d1))))
      (snd (fst (tracked_elimination q (length M) d1 (build_augmented M y (length M) d1))))
      (snd (tracked_elimination q (length M) d1 (build_augmented M y (length M) d1))).
Proof.
  intros Hprime Hq Hm31 (_ & Hrows & Hfield) Hy.
  set (m := length M) in *. set (A0 := build_augmented M y m d1).
  destruct (build_augmented_spec M y m d1) as [Hsh0 Hat0]. fold A0 in Hsh0, Hat0.
  apply (tracked_loop_inv q m d1 A0 Hprime Hq Hm31 d1 0 0 A0 (seq 0 m)); [|lia].
  apply fwd_inv_init; [exact Hsh0| |].
  - intros r j Hr Hj. destruct (Hat0 r Hr) as [Hco _]. rewrite Hco by exact Hj.
    now apply Hfield.
  - intros r Hr. destruct (Hat0 r Hr) as [_ ->].
    destruct (Nat.lt_ge_cases r (length y)) as [Hlt|Hge].
    + now apply (Forall_nth u64 0 y).
    + rewrite nth_overflow by exact Hge. unfold u64, two64. lia.
Qed.

(** [pivoted_rows] lists one input row for each pivot assigned. *)
Lemma pivoted_rows_count (M : MatrixType) (y : VectorType) (q : Z) (d1 : nat) :
  Z.prime q -> q < two64 -> Z.of_nat (length M) < two31 ->
  (1 <= length M)%nat -> regular_matrix q (length M) d1 M -> Forall u64 y ->
  length (pivoted_rows M y q) = pivots_assigned M y q.
Proof.
  intros Hprime Hq Hm31 Hm HM Hy.
  destruct (tracked_elimination_inv M y q d1 Hprime Hq Hm31 HM Hy) as (col & _ & Hfinal).
  destruct HM as (_ & Hrows & _).
  assert (Hd1 : length (nth 0%nat M []) = d1) by (apply Hrows; lia).
  unfold pivoted_rows, pivots_assigned. rewrite Hd1, forward_elimination_tracked.
  destruct (tracked_elimination _ _ _ _) as [[p A] origin]. cbn [fst snd] in *.
  rewrite length_firstn, (inv_origin_length Hfinal).
  pose proof (inv_count Hfinal). lia.
Qed.

Lemma pivoted_solved (M : MatrixType) (y : VectorType) (q : Z) (d1 : nat) :
  Z.prime q -> q < two64 -> Z.of_nat (length M) < two31 -> Z.of_nat d1 < two31 ->
  (1 <= length M)%nat -> regular_matrix q (length M) d1 M -> Forall u64 y ->
  forall i, In i (pivoted_rows M y q) ->
    (i < length M)%nat /\
    cong q (dot (nth i M []) (gaussian_elimination M y q) - nth i y 0) 0.
Proof.
  intros Hprime Hq Hm31 Hd31 Hm HM Hy i Hin.
  destruct (tracked_elimination_inv M y q d1 Hprime Hq Hm31 HM Hy)
    as (col & Hcol & Hfinal).
  destruct HM as (_ & Hrows & _).
  set (m := length M) in *.
  assert (Hd1 : length (nth 0%nat M []) = d1) by (apply Hrows; lia).
  set (A0 := build_augmented M y m d1) in *.
  unfold pivoted_rows in Hin. fold m in Hin. rewrite Hd1 in Hin. fold A0 in Hin.
  rewrite gaussian_elimination_unfold by exact Hm. fold m. rewrite Hd1. fold A0.
  rewrite forward_elimination_tracked.
  destruct (tracked_elimination q m d1 A0) as [[p A] origin]. cbn [fst snd] in *.
  apply (In_nth _ _ 0%nat) in Hin. destruct Hin as (k & Hk & Hnth).
  rewrite length_firstn in Hk. rewrite nth_firstn in Hnth.
  destruct (Nat.ltb_spec k p) as [Hkp|]; [|lia].
  pose proof (inv_origin_length Hfinal) as Holen.
  assert (Hkm : (k < m)%nat) by lia.
  assert (Him : (i < m)%nat) by (rewrite <- Hnth; now apply (inv_origin_lt Hfinal)).
  split; [exact Him|].
  rewrite <- (residual_build_augmented M y m d1 i) by (try assumption; now apply Hrows).
  fold A0. rewrite <- Hnth.
  apply (inv_orig Hfinal).
  - intros k' Hk'. now apply (back_substitution_solves q m d1 A0 A origin col p).
  - exact Hkm.
  - now apply (back_substitution_solves q m d1 A0 A origin col p).
Qed.

(** X21. Pivoted rows are solved over Z_q.  For every prime modulus [q],
    every [m] by [d1] coefficient matrix [M] whose entries are [0] or not
    divisible by [q] (so every matrix with entries in [[0, q)]), with
    [1 <= m] and [m], [d1] below [2^31], the range of the [int] row and
    column variables, and every length-[m] target vector [y], the vector
    returned by [gaussian_elimination(M, y, q)] satisfies every equation
    that received a pivot: the dot product of the row's original
    coefficients with the result is congruent to the row's original target
    modulo [q]. *)
Theorem gaussian_elimination_solves_pivoted_rows
    (M : MatrixType) (y : VectorType) (q : Z) (d1 : nat) :
  Z.prime q -> q < two64 ->
  Z.of_nat (length M) < two31 -> Z.of_nat d1 < two31 ->
  (1 <= length M)%nat -> regular_matrix q (length M) d1 M ->
  length y = length M -> Forall u64 y ->
  forall i, In i (pivoted_rows M y q) ->
    (i < length M)%nat /\
    dot (nth i M []) (gaussian_elimination M y q) mod q = nth i y 0 mod q.
Proof.
  intros Hprime Hq Hm31 Hd31 Hm HM _ Hy i Hin.
  destruct (pivoted_solved M y q d1 Hprime Hq Hm31 Hd31 Hm HM Hy i Hin) as [Hi Hc].
  split; [exact Hi|].
  apply cong_mod_eq; [pose proof (Z.prime_ge_2 _ Hprime); lia|].
  destruct Hc as [z Hz]. exists z. lia.
Qed.

Lemma field_matrix_regular (q : Z) (r c : nat) (A : MatrixType) :
  q < two64 -> field_matrix q r c A -> regular_matrix q r c A.
Proof.
  intros Hq (Hlen & Hrows & Hfield). split; [exact Hlen|]. split; [exact Hrows|].
  intros i j Hi Hj. apply regular_reduced; [exact Hq | now apply Hfield].
Qed.

Lemma regular_matrix_3x3_example :
  regular_matrix 7 3 3 [[9; 8; 0]; [4; 2; 1]; [1; 1; 1]].
Proof.
  split; [reflexivity|]. split.
  - intros i Hi. destruct i as [|[|[|i]]]; simpl; lia.
  - intros i j Hi Hj.
    destruct i as [|[|[|i]]]; [| | |lia];
      destruct j as [|[|[|j]]]; try lia;
      (split; [unfold u64, two64; simpl; lia
              | simpl; intros Hnz; vm_compute; first [discriminate | congruence]]).
Qed.

Lemma field_matrix_3x3_example :
  field_matrix 7 3 3 [[2; 1; 0]; [4; 2; 1]; [1; 1; 1]].
Proof.
  split; [reflexivity|]. split.
  - intros i Hi. destruct i as [|[|[|i]]]; simpl; lia.
  - intros i j Hi Hj.
    destruct i as [|[|[|i]]]; [| | |lia];
      destruct j as [|[|[|j]]]; simpl; lia.
Qed.

Lemma gaussian_elimination_solves_pivoted_rows_witness :
  In 2%nat (pivoted_rows [[9; 8; 0]; [4; 2; 1]; [1; 1; 1]] [3; 4; 0] 7) /\
  dot (nth 2%nat [[9; 8; 0]; [4; 2; 1]; [1; 1; 1]] [])
      (gaussian_elimination [[9; 8; 0]; [4; 2; 1]; [1; 1; 1]] [3; 4; 0] 7) mod 7
  = nth 2%nat [3; 4; 0] 0 mod 7.
Proof.
  assert (Hin : In 2%nat (pivoted_rows [[9; 8; 0]; [4; 2; 1]; [1; 1; 1]] [3; 4; 0] 7))
    by (vm_compute; tauto).
  split; [exact Hin|].
  apply (gaussian_elimination_solves_pivoted_rows
           [[9; 8; 0]; [4; 2; 1]; [1; 1; 1]] [3; 4; 0] 7 3 prime_7).
  - reflexivity.
  - reflexivity.
  - reflexivity.
  - simpl; lia.
  - exact regular_matrix_3x3_example.
  - reflexivity.
  - repeat constructor; unfold two64; lia.
  - exact Hin.
Defined.

(** C1 at [M = [[3; 1]]], [y = [1]], [q = 3].  The equation
    [3 e0 + e1 = 1] over Z_3 has the solution [[0; 1]].  Its row receives
    the pivot [3], nonzero as an integer but [0] in Z_3; [mod_inverse]
    returns [0] for it, normalisation turns the row into zeros instead of
    making the pivot [1], and the solver returns [[0; 0]], which does not
    satisfy the pivoted row. *)
Lemma unreduced_pivot_row_not_solved :
  Z.prime 3 /\
  dot (nth 0%nat [[3; 1]] []) [0; 1] mod 3 = nth 0%nat [1] 0 mod 3 /\
  In 0%nat (pivoted_rows [[3; 1]] [1] 3) /\
  mod_inverse 3 3 = 0 /\
  snd (forward_elimination 3 1 2 (build_augmented [[3; 1]] [1] 1 2)) = [[0; 0; 0]] /\
  gaussian_elimination [[3; 1]] [1] 3 = [0; 0] /\
  dot (nth 0%nat [[3; 1]] []) (gaussian_elimination [[3; 1]] [1] 3) mod 3
  <> nth 0%nat [1] 0 mod 3.
Proof.
  split; [apply Z.prime_3|].
  split; [reflexivity|].
  split; [vm_compute; tauto|].
  split; [reflexivity|].
  split; [reflexivity|].
  split; [reflexivity|].
  vm_compute. discriminate.
Qed.

(** The run behind the witness: all three rows receive a pivot, the second
    and third in swapped order. *)
Example pivoted_rows_example :
  pivoted_rows [[2; 1; 0]; [4; 2; 1]; [1; 1; 1]] [3; 4; 0] 7 = [0; 2; 1]%nat /\
  gaussian_elimination [[2; 1; 0]; [4; 2; 1]; [1; 1; 1]] [3; 4; 0] 7 = [1; 1; 5].
Proof. split; reflexivity. Qed.

(** ** Further properties of [Utils] *)

(** X1. [fast_pow(base, exp, q)] is [base ^ exp mod q] for every modulus
    [1 <= q] and every 64-bit exponent, whatever [base] is; for [q = 1]
    this is the early [return 0]. *)
Theorem fast_pow_power (base exp q : Z) :
  1 <= q < two64 -> u64 exp -> fast_pow base exp q = (base ^ exp) mod q.
Proof.
  intros Hq He. destruct (Z.eq_dec q 1) as [->|Hne].
  - unfold fast_pow. simpl. now rewrite Z.mod_1_r.
  - apply fast_pow_eq; [lia|exact He].
Qed.

Lemma fast_pow_power_witness :
  1 <= 1000 < two64 /\ fast_pow 7 13 1000 = (7 ^ 13) mod 1000.
Proof.
  split; [unfold two64; lia|].
  apply (fast_pow_power 7 13 1000); unfold u64, two64; lia.
Defined.

(** X2. Widening to 128 bits makes [add_mod] and [mul_mod] exact: for all
    64-bit operands, reduced or not, they return [(a + b) mod q] and
    [(a * b) mod q], a value in [[0, q)]. *)
Theorem add_mul_mod_exact (a b q : Z) :
  0 < q < two64 -> u64 a -> u64 b ->
  add_mod a b q = (a + b) mod q /\
  mul_mod a b q = (a * b) mod q /\
  0 <= add_mod a b q < q /\ 0 <= mul_mod a b q < q.
Proof.
  intros Hq Ha Hb. repeat split;
    try (now apply add_mod_eq); try (now apply mul_mod_eq);
    try (now apply add_mod_range); now apply mul_mod_range.
Qed.

Lemma add_mul_mod_exact_witness :
  add_mod (two64 - 1) (two64 - 1) 7 = (two64 - 1 + (two64 - 1)) mod 7 /\
  mul_mod (two64 - 1) (two64 - 1) 7 = ((two64 - 1) * (two64 - 1)) mod 7.
Proof.
  destruct (add_mul_mod_exact (two64 - 1) (two64 - 1) 7) as (H1 & H2 & _);
    [unfold two64; lia | unfold u64, two64; lia | unfold u64, two64; lia |].
  split; [exact H1 | exact H2].
Defined.

(** X3. [sub_mod(a, b, q)] is [(a - b) mod q] whenever [b <= a + q] (so
    for every [b <= q]).  For [b > a + q] the wrap-around of the 128-bit
    difference [q - b] is not undone and the result is
    [(2^128 + a - b) mod q]; this is [(a - b) mod q] if and only if [q]
    divides [2^128]. *)
Theorem sub_mod_exact_or_wrapped (a b q : Z) :
  0 < q < two64 -> u64 a -> u64 b ->
  (b <= a + q -> sub_mod a b q = (a - b) mod q) /\
  (a + q < b -> sub_mod a b q = (two128 + a - b) mod q) /\
  (a + q < b -> (sub_mod a b q = (a - b) mod q <-> (q | two128))).
Proof.
  intros Hq Ha Hb.
  cut ((b <= a + q -> sub_mod a b q = (a - b) mod q) /\
       (a + q < b -> sub_mod a b q = (two128 + a - b) mod q)).
  { intros [H1 H2]. split; [exact H1|]. split; [exact H2|].
    intros Hlt. rewrite (H2 Hlt). split.
    - intros Heq. exists ((two128 + a - b) / q - (a - b) / q).
      pose proof (Z.div_mod (two128 + a - b) q ltac:(lia)).
      pose proof (Z.div_mod (a - b) q ltac:(lia)). lia.
    - intros [z Hz]. replace (two128 + a - b) with (a - b + z * q) by lia.
      apply Z.mod_add. lia. }
  unfold u64 in *.
  assert (Hsmall : forall z, (z mod q) mod two64 = z mod q).
  { intros z. apply Z.mod_small. pose proof (Z.mod_pos_bound z q). lia. }
  assert (Hwrap : q < b -> (q - b) mod two128 = q - b + two128).
  { intros Hlt. rewrite <- (Z.mod_add (q - b) 1 two128) by (unfold two128; lia).
    rewrite Z.mul_1_l. apply Z.mod_small. unfold two128, two64 in *. lia. }
  split; intros Hcmp; unfold sub_mod; rewrite Hsmall.
  - destruct (Z_le_gt_dec b q) as [Hle|Hgt].
    + rewrite (Z.mod_small (q - b)) by (unfold two128, two64 in *; lia).
      rewrite (Z.mod_small (a + (q - b))) by (unfold two128, two64 in *; lia).
      replace (a + (q - b)) with (a - b + 1 * q) by ring. apply Z.mod_add. lia.
    + rewrite Hwrap by lia.
      replace (a + (q - b + two128)) with (a + q - b + 1 * two128) by ring.
      rewrite Z.mod_add by (unfold two128; lia).
      rewrite (Z.mod_small (a + q - b)) by (unfold two128, two64 in *; lia).
      replace (a + q - b) with (a - b + 1 * q) by ring. apply Z.mod_add. lia.
  - rewrite Hwrap by lia.
    rewrite (Z.mod_small (a + (q - b + two128))) by (unfold two128, two64 in *; lia).
    replace (a + (q - b + two128)) with (two128 + a - b + 1 * q) by ring.
    apply Z.mod_add. lia.
Qed.

Lemma sub_mod_exact_or_wrapped_witness :
  sub_mod 4 9 5 = (4 - 9) mod 5 /\ sub_mod 0 5 3 = (two128 + 0 - 5) mod 3 /\
  sub_mod 0 3 2 = (0 - 3) mod 2.
Proof.
  destruct (sub_mod_exact_or_wrapped 4 9 5) as (H1 & _ & _); try (unfold u64, two64; lia).
  destruct (sub_mod_exact_or_wrapped 0 5 3) as (_ & H2 & _); try (unfold u64, two64; lia).
  destruct (sub_mod_exact_or_wrapped 0 3 2) as (_ & _ & H3); try (unfold u64, two64; lia).
  split; [apply H1; lia|]. split; [apply H2; lia|].
  apply H3; [lia|]. exists (2 ^ 127). reflexivity.
Defined.

(** X4. [mod_inverse] also inverts unreduced arguments: for a prime [q] and
    any 64-bit [a] that [q] does not divide, [mul_mod(mod_inverse(a, q), a,
    q) = 1]. *)
Theorem mod_inverse_unreduced (q a : Z) :
  Z.prime q -> q < two64 -> u64 a -> a mod q <> 0 ->
  mul_mod (mod_inverse a q) a q = 1.
Proof.
  intros Hp Hq Ha Hnz. pose proof (Z.prime_ge_2 _ Hp) as H2.
  assert (Ha0 : a <> 0) by (intros ->; now rewrite Z.mod_0_l in Hnz by lia).
  pose proof (mod_inverse_range a q ltac:(lia)) as Hr.
  rewrite mul_mod_eq by (unfold u64 in *; lia).
  rewrite mod_inverse_eq by lia. rewrite Z.mul_mod_idemp_l by lia.
  replace (a ^ (q - 2) * a) with (a ^ (q - 1)).
  - now apply ZmodInv.Z.fermat_nz.
  - replace (q - 1) with (Z.succ (q - 2)) by lia. rewrite Z.pow_succ_r by lia. ring.
Qed.

Lemma mod_inverse_unreduced_witness : mul_mod (mod_inverse 10 7) 10 7 = 1.
Proof.
  apply (mod_inverse_unreduced 7 10 prime_7);
    [reflexivity | unfold u64, two64; lia | vm_compute; discriminate].
Defined.

(** X5. The silent zero pivot: for a prime [q > 2], a nonzero 64-bit
    multiple of [q] has "inverse" [0], the same value as the sentinel for
    [a = 0]; for [q = 2] a nonzero even [a] gets [1]. *)
Theorem mod_inverse_of_multiple (q a : Z) :
  Z.prime q -> q < two64 -> a <> 0 -> a mod q = 0 ->
  mod_inverse a q = if q =? 2 then 1 else 0.
Proof.
  intros Hp Hq Ha Hz. pose proof (Z.prime_ge_2 _ Hp) as H2.
  rewrite mod_inverse_eq by lia. rewrite <- Z.mod_pow_l, Hz.
  destruct (Z.eqb_spec q 2) as [->|Hne].
  - reflexivity.
  - rewrite Z.pow_0_l by lia. apply Z.mod_0_l. lia.
Qed.

Lemma mod_inverse_of_multiple_witness : mod_inverse 21 7 = 0.
Proof.
  apply (mod_inverse_of_multiple 7 21 prime_7); [reflexivity | lia | reflexivity].
Defined.

(** *** The mixing function *)

Lemma u64_lxor (a b : Z) : u64 a -> u64 b -> u64 (Z.lxor a b).
Proof.
  unfold u64, two64. intros Ha Hb.
  assert (Hnn : 0 <= Z.lxor a b) by (apply Z.lxor_nonneg; lia).
  split; [exact Hnn|].
  destruct (Z.eq_dec (Z.lxor a b) 0) as [->|Hne]; [reflexivity|].
  apply Z.log2_lt_pow2; [lia|].
  pose proof (Z.log2_lxor a b ltac:(lia) ltac:(lia)) as Hlog.
  assert (Hla : Z.log2 a < 64).
  { destruct (Z.eq_dec a 0) as [->|?]; [reflexivity|]. apply Z.log2_lt_pow2; lia. }
  assert (Hlb : Z.log2 b < 64).
  { destruct (Z.eq_dec b 0) as [->|?]; [reflexivity|]. apply Z.log2_lt_pow2; lia. }
  lia.
Qed.

Lemma u64_shiftr (a n : Z) : 0 <= n -> u64 a -> u64 (Z.shiftr a n).
Proof.
  unfold u64. intros Hn Ha. rewrite Z.shiftr_div_pow2 by exact Hn.
  pose proof (Z.pow_pos_nonneg 2 n ltac:(lia) Hn) as Hp.
  split; [apply Z.div_pos; lia|].
  apply Z.le_lt_trans with a; [|lia].
  apply Z.div_le_upper_bound; [lia|]. nia.
Qed.

Lemma u64_xorshift33 (h : Z) : u64 h -> u64 (xorshift33 h).
Proof.
  intros Hh. apply u64_lxor; [exact Hh|]. apply u64_shiftr; [lia|exact Hh].
Qed.

(** On 64-bit values the xor-shift by 33 is its own inverse. *)
Lemma xorshift33_involutive (h : Z) : u64 h -> xorshift33 (xorshift33 h) = h.
Proof.
  intros Hh. unfold xorshift33.
  rewrite Z.shiftr_lxor, Z.shiftr_shiftr by lia.
  assert (Hz : Z.shiftr h (33 + 33) = 0).
  { rewrite Z.shiftr_div_pow2 by lia. apply Z.div_small.
    unfold u64, two64 in Hh. lia. }
  rewrite Hz, Z.lxor_0_r, Z.lxor_assoc, Z.lxor_nilpotent. apply Z.lxor_0_r.
Qed.

(** Multiplication by the odd constant is undone by its inverse modulo
    [2^64]. *)
Lemma prime_multiplier_invertible (h : Z) :
  u64 h -> (((h * PRIME) mod two64) * 17428512612931826493) mod two64 = h.
Proof.
  intros Hh. rewrite Z.mul_mod_idemp_l by (unfold two64; lia).
  rewrite <- Z.mul_assoc, <- Z.mul_mod_idemp_r by (unfold two64; lia).
  replace ((PRIME * 17428512612931826493) mod two64) with 1 by reflexivity.
  rewrite Z.mul_1_r. apply Z.mod_small. exact Hh.
Qed.

Lemma hash_partition_steps (k x : Z) :
  hash_partition k x = xorshift33 ((xorshift33 (Z.lxor k x) * PRIME) mod two64).
Proof. reflexivity. Qed.

(** X6. On 64-bit keys and elements [hash_partition] returns a 64-bit
    value: no step of the mix leaves the range of [uint64_t]. *)
Theorem hash_partition_range (k x : Z) : u64 k -> u64 x -> u64 (hash_partition k x).
Proof.
  intros Hk Hx. rewrite hash_partition_steps.
  apply u64_xorshift33. unfold u64. apply Z.mod_pos_bound. reflexivity.
Qed.

Lemma hash_partition_range_witness : u64 (hash_partition 12345 678).
Proof. apply hash_partition_range; unfold u64, two64; lia. Defined.

(** X7. The mix is a bijection on the xor of its arguments: two calls of
    [hash_partition] on 64-bit arguments collide exactly when [k1 xor x1 =
    k2 xor x2].  Under one key distinct elements never collide, and key
    and element are interchangeable. *)
Theorem hash_partition_collisions (k1 x1 k2 x2 : Z) :
  u64 k1 -> u64 x1 -> u64 k2 -> u64 x2 ->
  (hash_partition k1 x1 = hash_partition k2 x2 <-> Z.lxor k1 x1 = Z.lxor k2 x2) /\
  (k1 = k2 -> hash_partition k1 x1 = hash_partition k2 x2 -> x1 = x2) /\
  hash_partition k1 x1 = hash_partition x1 k1.
Proof.
  intros Hk1 Hx1 Hk2 Hx2.
  assert (Hiff : hash_partition k1 x1 = hash_partition k2 x2 <->
                 Z.lxor k1 x1 = Z.lxor k2 x2).
  { split.
    - rewrite !hash_partition_steps. intros H.
      apply (f_equal xorshift33) in H.
      rewrite !xorshift33_involutive in H
        by (unfold u64; apply Z.mod_pos_bound; reflexivity).
      apply (f_equal (fun z => (z * 17428512612931826493) mod two64)) in H.
      rewrite !prime_multiplier_invertible in H
        by (apply u64_xorshift33, u64_lxor; assumption).
      apply (f_equal xorshift33) in H.
      now rewrite !xorshift33_involutive in H by (apply u64_lxor; assumption).
    - intros H. rewrite !hash_partition_steps. now rewrite H. }
  split; [exact Hiff|]. split.
  - intros -> H. apply Hiff in H.
    apply (f_equal (Z.lxor k2)) in H.
    now rewrite <- !Z.lxor_assoc, Z.lxor_nilpotent, !Z.lxor_0_l in H.
  - rewrite !hash_partition_steps. now rewrite Z.lxor_comm.
Qed.

Lemma hash_partition_collisions_witness :
  hash_partition 5 9 = hash_partition 9 5 /\
  (hash_partition 5 9 = hash_partition 6 10 <-> Z.lxor 5 9 = Z.lxor 6 10).
Proof.
  assert (Hu : forall z, 0 <= z < 100 -> u64 z) by (unfold u64, two64; lia).
  destruct (hash_partition_collisions 5 9 6 10) as (H1 & _ & H3);
    [apply Hu; lia | apply Hu; lia | apply Hu; lia | apply Hu; lia |].
  split; [exact H3 | exact H1].
Defined.

(** ** Further properties of the solver *)

Lemma mul_mod_reduced (a b q : Z) : 0 < q < two64 -> 0 <= mul_mod a b q < q.
Proof.
  intros Hq. unfold mul_mod.
  pose proof (Z.mod_pos_bound ((a * b) mod two128) q ltac:(lia)) as Hb.
  rewrite (Z.mod_small _ two64) by lia. exact Hb.
Qed.

Lemma back_step_reduced (q : Z) (d1 : nat) (A : MatrixType) (i : nat) (res : VectorType) :
  0 < q < two64 -> (forall j, 0 <= nth j res 0 < q) ->
  forall j, 0 <= nth j (back_step q d1 A i res) 0 < q.
Proof.
  intros Hq Hres j. unfold back_step.
  destruct (leading_col A i d1 =? -1); [apply Hres|].
  destruct (at2 A i _ =? 0); [apply Hres|].
  destruct (Nat.eq_dec (size_of_int (leading_col A i d1) (length res)) j) as [<-|Hne].
  - destruct (Nat.lt_ge_cases (size_of_int (leading_col A i d1) (length res))
                (length res)) as [Hlt|Hge].
    + rewrite nth_insert_eq by exact Hlt. now apply mul_mod_reduced.
    + rewrite list_insert_ge by exact Hge. apply Hres.
  - rewrite nth_insert_ne by exact Hne. apply Hres.
Qed.

Lemma back_substitution_reduced (q : Z) (d1 p : nat) (A : MatrixType) :
  0 < q < two64 -> forall j, 0 <= nth j (back_substitution q d1 p A) 0 < q.
Proof.
  intros Hq. unfold back_substitution.
  generalize (rev (seq 0 (Z.to_nat
    (Z.min (to_int (Z.of_nat p) - 1) (to_int (Z.of_nat d1) - 1) + 1)))).
  intros rows.
  assert (Hinit : forall j, 0 <= nth j (repeat 0 d1) 0 < q).
  { intros j. destruct (Nat.lt_ge_cases j d1).
    - rewrite nth_repeat_lt by assumption. lia.
    - rewrite nth_overflow by (rewrite repeat_length; assumption). lia. }
  revert Hinit. generalize (repeat 0 d1).
  induction rows as [|i rows IH]; intros res Hres; [exact Hres|].
  simpl. apply IH. now apply back_step_reduced.
Qed.

(** X8. Whatever the system is, every entry of the vector returned by
    [gaussian_elimination] is a field element in [[0, q)], for a modulus
    [1 <= q] that fits 64 bits. *)
Theorem gaussian_elimination_field_elements (M : MatrixType) (y : VectorType) (q : Z) :
  0 < q < two64 -> Forall (fun v => 0 <= v < q) (gaussian_elimination M y q).
Proof.
  intros Hq. destruct M as [|r0 M'].
  - constructor.
  - rewrite gaussian_elimination_unfold by (simpl; lia).
    apply (Forall_nth _ 0). intros j _. now apply back_substitution_reduced.
Qed.

Lemma gaussian_elimination_field_elements_witness :
  Forall (fun v => 0 <= v < 7)
    (gaussian_elimination [[2; 1; 0]; [4; 2; 1]; [1; 1; 1]] [3; 4; 0] 7).
Proof.
  apply (gaussian_elimination_field_elements _ _ 7). unfold two64. lia.
Defined.

Lemma forward_loop_pivots (q : Z) (m d1 n col p : nat) (A : MatrixType) :
  (p <= m)%nat ->
  (fst (for_while (fun st => (fst st <? m)%nat) (forward_step q m d1) (seq col n) (p, A))
   <= m)%nat /\
  (fst (for_while (fun st => (fst st <? m)%nat) (forward_step q m d1) (seq col n) (p, A))
   <= p + n)%nat.
Proof.
  revert col p A. induction n as [|n IH]; intros col p A Hp.
  - simpl. lia.
  - cbn [seq for_while fst]. destruct (Nat.ltb_spec p m) as [Hlt|Hge]; [|simpl; lia].
    assert (Hstep : forward_step q m d1 col (p, A) =
                    if best_row A col p m =? -1 then (p, A)
                    else (S p, pivot_step q m d1 col p
                                 (size_of_int (best_row A col p m) (length A)) A))
      by reflexivity.
    rewrite Hstep. destruct (best_row A col p m =? -1).
    + destruct (IH (S col) p A Hp). lia.
    + destruct (IH (S col) (S p)
                  (pivot_step q m d1 col p (size_of_int (best_row A col p m) (length A)) A)
                  ltac:(lia)). lia.
Qed.

Lemma pivots_assigned_le_columns (M : MatrixType) (y : VectorType) (q : Z) :
  (pivots_assigned M y q <= length (nth 0%nat M []))%nat.
Proof.
  unfold pivots_assigned, forward_elimination.
  destruct (forward_loop_pivots q (length M) (length (nth 0%nat M []))
              (length (nth 0%nat M [])) 0 0
              (build_augmented M y (length M) (length (nth 0%nat M [])))
              ltac:(lia)) as [_ H2].
  exact H2.
Qed.

(** X9. Forward elimination assigns at most one pivot per row and at most
    one per column: the pivot count is bounded by both dimensions. *)
Theorem pivots_assigned_bounded (M : MatrixType) (y : VectorType) (q : Z) :
  (pivots_assigned M y q <= length M)%nat /\
  (pivots_assigned M y q <= length (nth 0%nat M []))%nat.
Proof.
  unfold pivots_assigned, forward_elimination.
  destruct (forward_loop_pivots q (length M) (length (nth 0%nat M []))
              (length (nth 0%nat M [])) 0 0
              (build_augmented M y (length M) (length (nth 0%nat M [])))
              ltac:(lia)) as [H1 H2].
  split; [exact H1 | exact H2].
Qed.

Lemma find_seq_before (f : nat -> bool) (lo n x j : nat) :
  find f (seq lo n) = Some x -> (lo <= j < x)%nat -> f j = false.
Proof.
  revert lo. induction n as [|n IH]; intros lo Hf Hj; [discriminate|].
  simpl in Hf. destruct (f lo) eqn:Hlo.
  - injection Hf as <-. lia.
  - destruct (Nat.eq_dec j lo) as [->|Hne]; [exact Hlo|].
    apply (IH (S lo)); [exact Hf|lia].
Qed.

(** A write of back substitution goes to the leading column of the row:
    a [leading_col] that lost bits in the conversion to [int] is negative,
    and then the subscript is past the end, or it names a column left of
    the leading one, where the entry is [0] and nothing is written. *)
Lemma back_step_other_column (q : Z) (d1 : nat) (A : MatrixType) (i j : nat)
    (res : VectorType) :
  find_leading A i d1 <> Some j ->
  nth j (back_step q d1 A i res) 0 = nth j res 0.
Proof.
  intros Hne. unfold back_step, leading_col.
  destruct (find_leading A i d1) as [c|] eqn:Hfind; [|reflexivity].
  destruct (to_int (Z.of_nat c) =? -1); [reflexivity|].
  destruct (Z.eqb_spec (at2 A i (size_of_int (to_int (Z.of_nat c)) (length (nth i A []))))
              0) as [|Hpivot]; [reflexivity|].
  destruct (Z.lt_ge_cases (to_int (Z.of_nat c)) 0) as [Hneg|Hpos].
  - rewrite list_insert_ge; [reflexivity|]. now apply size_of_int_neg.
  - rewrite !size_of_int_nonneg in * by exact Hpos.
    pose proof (to_int_le (Z.of_nat c) ltac:(lia)) as Hle.
    destruct (Z.eq_dec (to_int (Z.of_nat c)) (Z.of_nat c)) as [Heq|Hlt].
    + rewrite Heq, Nat2Z.id. apply nth_insert_ne. intros ->. now apply Hne.
    + exfalso. apply Hpivot. unfold find_leading in Hfind.
      pose proof (find_seq_before _ 0 d1 c (Z.to_nat (to_int (Z.of_nat c))) Hfind
                    ltac:(lia)) as Hz.
      simpl in Hz. destruct (Z.eqb_spec (at2 A i (Z.to_nat (to_int (Z.of_nat c)))) 0);
        [assumption|discriminate].
Qed.

(** X10. Free columns stay [0]: a column that is the leading column of no
    pivot row of the eliminated array keeps the initial value [0] in the
    returned vector. *)
Theorem free_columns_stay_zero (M : MatrixType) (y : VectorType) (q : Z) (j : nat) :
  (1 <= length M)%nat ->
  (forall i, (i < pivots_assigned M y q)%nat ->
     find_leading
       (snd (forward_elimination q (length M) (length (nth 0%nat M []))
               (build_augmented M y (length M) (length (nth 0%nat M [])))))
       i (length (nth 0%nat M [])) <> Some j) ->
  nth j (gaussian_elimination M y q) 0 = 0.
Proof.
  intros Hm Hfree. rewrite gaussian_elimination_unfold by exact Hm.
  unfold pivots_assigned in Hfree.
  set (d1 := length (nth 0%nat M [])) in *.
  set (st := forward_elimination q (length M) d1 _) in *.
  unfold back_substitution.
  set (n := Z.to_nat (Z.min (to_int (Z.of_nat (fst st)) - 1)
                        (to_int (Z.of_nat d1) - 1) + 1)).
  assert (Hrows : forall i, In i (rev (seq 0 n)) -> (i < fst st)%nat)
    by (intros i Hi; now apply (back_substitution_rows d1)).
  assert (Hinit : nth j (repeat 0 d1) 0 = 0).
  { destruct (Nat.lt_ge_cases j d1).
    - now rewrite nth_repeat_lt.
    - apply nth_overflow. now rewrite repeat_length. }
  revert Hrows Hinit. generalize (rev (seq 0 n)) (repeat 0 d1).
  intros rows. induction rows as [|i rows IH]; intros res Hrows Hres; [exact Hres|].
  simpl. apply IH.
  - intros i' Hi'. apply Hrows. now right.
  - rewrite back_step_other_column; [exact Hres|].
    apply Hfree, Hrows. now left.
Qed.

Lemma free_columns_stay_zero_witness :
  nth 1%nat (gaussian_elimination [[1; 2; 3]; [0; 0; 1]] [4; 5] 7) 0 = 0.
Proof.
  apply (free_columns_stay_zero [[1; 2; 3]; [0; 0; 1]] [4; 5] 7 1).
  - simpl; lia.
  - intros i Hi. vm_compute in Hi.
    destruct i as [|[|i]]; [vm_compute; discriminate | vm_compute; discriminate | lia].
Defined.

(** *** Solvable systems are solved *)

Lemma transp_involutive (i j k : nat) : transp i j (transp i j k) = k.
Proof.
  unfold transp.
  destruct (Nat.eq_dec k i) as [->|Hki].
  - destruct (Nat.eq_dec j i) as [->|Hji]; [reflexivity|].
    destruct (Nat.eq_dec j j); [reflexivity|contradiction].
  - destruct (Nat.eq_dec k j) as [->|Hkj].
    + destruct (Nat.eq_dec i i); [reflexivity|contradiction].
    + destruct (Nat.eq_dec k i); [contradiction|].
      destruct (Nat.eq_dec k j); [contradiction|reflexivity].
Qed.

(** The new pivot row is the inverse of the pivot times the old row. *)
Lemma pivot_row_forward (q : Z) (m d1 : nat) (A0 A : MatrixType) (origin : list nat)
    (col p b : nat) :
  Z.prime q -> q < two64 -> fwd_inv q m d1 A0 col p A origin ->
  (col < d1)%nat -> (p <= b < m)%nat -> at2 A b col <> 0 ->
  forall j, (j <= d1)%nat ->
    cong q (at2 (pivot_step q m d1 col p b A) p j)
      (mod_inverse (at2 A b col) q * at2 A b j + 0 * at2 A b j).
Proof.
  intros Hprime Hq Hinv Hcol Hb Hnz j Hj.
  destruct (Nat.lt_ge_cases j col) as [Hlt|Hge].
  - rewrite (pivot_row_left q m d1 A0 A origin col p b) by assumption.
    rewrite (inv_below Hinv b j) by lia. apply cong_eq. ring.
  - rewrite (pivot_row_right q m d1 A0 A origin col p b) by (assumption || lia).
    apply (cong_trans _ _ (at2 A b j * mod_inverse (at2 A b col) q));
      [apply cong_mod | apply cong_eq; ring].
Qed.

(** A new lower row is the old row minus the factor times the pivot row. *)
Lemma lower_row_forward (q : Z) (m d1 : nat) (A0 A : MatrixType) (origin : list nat)
    (col p b : nat) :
  Z.prime q -> q < two64 -> fwd_inv q m d1 A0 col p A origin ->
  (col < d1)%nat -> (p <= b < m)%nat -> at2 A b col <> 0 ->
  forall i j, (p < i < m)%nat -> (j <= d1)%nat ->
    cong q (at2 (pivot_step q m d1 col p b A) i j)
      (1 * at2 A (transp p b i) j
       + (- at2 A (transp p b i) col) * at2 (pivot_step q m d1 col p b A) p j).
Proof.
  intros Hprime Hq Hinv Hcol Hb Hnz i j Hi Hj.
  pose proof (lower_row_cong q m d1 A0 A origin col p b
                Hprime Hq Hinv Hcol Hb Hnz i j Hi Hj) as H.
  destruct H as [z Hz]. exists (- z). lia.
Qed.

Lemma complete_inv_pivot (q : Z) (m d1 : nat) (A0 A : MatrixType) (origin : list nat)
    (col p b : nat) :
  Z.prime q -> q < two64 -> fwd_inv q m d1 A0 col p A origin ->
  (col < d1)%nat -> (p <= b < m)%nat -> at2 A b col <> 0 ->
  complete_inv q m d1 A0 A origin ->
  complete_inv q m d1 A0 (pivot_step q m d1 col p b A) (swap_at 0%nat origin p b).
Proof.
  intros Hprime Hq Hinv Hcol Hb Hnz [Hsol Hsurj].
  pose proof (inv_origin_length Hinv) as Holen.
  split.
  - intros x Hx k Hk. specialize (Hsol x Hx).
    assert (Hp : sat q d1 (pivot_step q m d1 col p b A) p x).
    { unfold sat.
      apply (cong_zero_lin q _ (mod_inverse (at2 A b col) q) (residual d1 A b x)
               0 (residual d1 A b x)).
      - apply residual_lin. now apply (pivot_row_forward q m d1 A0 A origin col p b).
      - apply Hsol. lia.
      - now left. }
    destruct (lt_eq_lt_dec k p) as [[Hlt| -> ]|Hgt].
    + unfold sat. rewrite (residual_ext d1 _ A k k x); [now apply Hsol|].
      intros j _. now apply (upper_row_same q m d1 A0 A origin col p b).
    + exact Hp.
    + pose proof (lower_row_source q m d1 A0 A origin col p b
                    Hprime Hq Hinv Hcol Hb Hnz k ltac:(lia)) as Hs.
      unfold sat.
      apply (cong_zero_lin q _ 1 (residual d1 A (transp p b k) x)
               (- at2 A (transp p b k) col)
               (residual d1 (pivot_step q m d1 col p b A) p x)).
      * apply residual_lin. intros j Hj.
        apply (lower_row_forward q m d1 A0 A origin col p b); try assumption; lia.
      * apply Hsol. lia.
      * right. exact Hp.
  - intros i Hi. destruct (Hsurj i Hi) as (k & Hk & Hik).
    exists (transp p b k). split; [apply transp_lt; lia|].
    rewrite nth_swap_at by lia. now rewrite transp_involutive.
Qed.

(** The column loop keeps both invariants, and stops either after the last
    column or with a pivot in every row. *)
Lemma tracked_loop_complete (q : Z) (m d1 : nat) (A0 : MatrixType) :
  Z.prime q -> q < two64 -> Z.of_nat m < two31 ->
  forall (n col p : nat) (A : MatrixType) (origin : list nat),
    fwd_inv q m d1 A0 col p A origin -> complete_inv q m d1 A0 A origin ->
    (col + n <= d1)%nat ->
    exists col', (col' <= d1)%nat /\
      (col' = (col + n)%nat \/
       (m <= fst (fst (for_while (fun st => (fst (fst st) <? m)%nat)
                         (tracked_step q m d1) (seq col n) (p, A, origin))))%nat) /\
      fwd_inv q m d1 A0 col'
        (fst (fst (for_while (fun st => (fst (fst st) <? m)%nat) (tracked_step q m d1)
                     (seq col n) (p, A, origin))))
        (snd (fst (for_while (fun st => (fst (fst st) <? m)%nat) (tracked_step q m d1)
                     (seq col n) (p, A, origin))))
        (snd (for_while (fun st => (fst (fst st) <? m)%nat) (tracked_step q m d1)
                (seq col n) (p, A, origin))) /\
      complete_inv q m d1 A0
        (snd (fst (for_while (fun st => (fst (fst st) <? m)%nat) (tracked_step q m d1)
                     (seq col n) (p, A, origin))))
        (snd (for_while (fun st => (fst (fst st) <? m)%nat) (tracked_step q m d1)
                (seq col n) (p, A, origin))).
Proof.
  intros Hprime Hq Hm31 n. induction n as [|n IH]; intros col p A origin Hinv Hcmp Hn.
  - exists col. cbn [seq for_while fst snd].
    split; [lia|]. split; [left; lia|]. split; [exact Hinv | exact Hcmp].
  - cbn [seq for_while fst]. destruct (Nat.ltb_spec p m) as [Hp|Hp].
    + pose proof (tracked_step_inv q m d1 A0 A origin col p Hprime Hq Hm31 Hinv
                    ltac:(lia) Hp) as Hstep.
      assert (Hcmp' : complete_inv q m d1 A0
                        (snd (fst (tracked_step q m d1 col (p, A, origin))))
                        (snd (tracked_step q m d1 col (p, A, origin)))).
      { destruct (find_pivot A col p m) as [b|] eqn:Hfind.
        - pose proof (find_pivot_some _ _ _ _ _ Hfind) as [Hb Hnz].
          rewrite (tracked_step_some q m d1 col p b A origin Hfind) by lia.
          cbn [fst snd].
          apply (complete_inv_pivot q m d1 A0 A origin col p b); assumption || lia.
        - rewrite (tracked_step_none q m d1 col p A origin Hfind). exact Hcmp. }
      destruct (tracked_step q m d1 col (p, A, origin)) as [[p' A'] origin'].
      cbn [fst snd] in Hstep, Hcmp'.
      destruct (IH (S col) p' A' origin' Hstep Hcmp' ltac:(lia))
        as (col' & Hc1 & Hc2 & Hc3 & Hc4).
      exists col'. split; [exact Hc1|]. split; [|split; assumption].
      destruct Hc2 as [->|Hc2]; [left; lia | right; exact Hc2].
    + exists col. cbn [fst snd]. split; [lia|]. split; [right; exact Hp|].
      split; assumption.
Qed.

Lemma complete_inv_init (q : Z) (m d1 : nat) (A0 : MatrixType) :
  complete_inv q m d1 A0 A0 (seq 0 m).
Proof.
  split.
  - intros x Hx k Hk. now apply Hx.
  - intros i Hi. exists i. split; [exact Hi|]. now apply seq_nth.
Qed.

(** Every equation holds at the returned vector as soon as every row has a
    pivot or the system has a solution at all. *)
Lemma all_rows_solved (M : MatrixType) (y : VectorType) (q : Z) (d1 : nat) :
  Z.prime q -> q < two64 -> Z.of_nat (length M) < two31 -> Z.of_nat d1 < two31 ->
  (1 <= length M)%nat -> regular_matrix q (length M) d1 M -> Forall u64 y ->
  (pivots_assigned M y q = length M \/
   exists x, forall i, (i < length M)%nat -> cong q (dot (nth i M []) x - nth i y 0) 0) ->
  forall i, (i < length M)%nat ->
    cong q (dot (nth i M []) (gaussian_elimination M y q) - nth i y 0) 0.
Proof.
  intros Hprime Hq Hm31 Hd31 Hm HM Hy Hcase i Hi.
  pose proof HM as (_ & Hrows & Hfield).
  set (m := length M) in *.
  assert (Hd1 : length (nth 0%nat M []) = d1) by (apply Hrows; lia).
  set (A0 := build_augmented M y m d1) in *.
  destruct (build_augmented_spec M y m d1) as [Hsh0 Hat0]. fold A0 in Hsh0, Hat0.
  assert (Hinit : fwd_inv q m d1 A0 0 0 A0 (seq 0 m)).
  { apply fwd_inv_init; [exact Hsh0| |].
    - intros r j Hr Hj. destruct (Hat0 r Hr) as [Hco _]. rewrite Hco by exact Hj.
      now apply Hfield.
    - intros r Hr. destruct (Hat0 r Hr) as [_ ->].
      destruct (Nat.lt_ge_cases r (length y)) as [Hlt|Hge].
      + now apply (Forall_nth u64 0 y).
      + rewrite nth_overflow by exact Hge. unfold u64, two64. lia. }
  destruct (tracked_loop_complete q m d1 A0 Hprime Hq Hm31 d1 0 0 A0 (seq 0 m) Hinit
              (complete_inv_init q m d1 A0) ltac:(lia))
    as (col & Hcol & Hexit & Hfinal & Hsol & Hsurj).
  fold (tracked_elimination q m d1 A0) in Hexit, Hfinal, Hsol, Hsurj.
  unfold pivots_assigned in Hcase. fold m in Hcase. rewrite Hd1 in Hcase. fold A0 in Hcase.
  rewrite gaussian_elimination_unfold by exact Hm. fold m. rewrite Hd1. fold A0.
  rewrite forward_elimination_tracked in *.
  destruct (tracked_elimination q m d1 A0) as [[p A] origin]. cbn [fst snd] in *.
  set (e := back_substitution q d1 p A).
  pose proof (inv_count Hfinal) as Hcnt.
  assert (Hall : forall k, (k < m)%nat -> sat q d1 A k e).
  { intros k Hk. destruct (Nat.lt_ge_cases k p) as [Hkp|Hkp].
    - now apply (back_substitution_solves q m d1 A0 A origin col p).
    - destruct Hcase as [Hfull|[x Hx]]; [lia|].
      assert (Hcold : col = d1) by (destruct Hexit; lia).
      assert (Hx0 : forall r, (r < m)%nat -> sat q d1 A0 r x).
      { intros r Hr. unfold sat, A0.
        rewrite (residual_build_augmented M y m d1 r) by (try assumption; now apply Hrows).
        now apply Hx. }
      pose proof (Hsol x Hx0 k Hk) as Hkx. unfold sat, residual in Hkx |- *.
      rewrite (zsum_zero (fun j => at2 A k j * nth j x 0) 0 d1) in Hkx
        by (intros j Hj; rewrite (inv_below Hfinal k j) by lia; ring).
      rewrite (zsum_zero (fun j => at2 A k j * nth j e 0) 0 d1)
        by (intros j Hj; rewrite (inv_below Hfinal k j) by lia; ring).
      exact Hkx. }
  destruct (Hsurj i Hi) as (k & Hk & Hik).
  rewrite <- (residual_build_augmented M y m d1 i) by (try assumption; now apply Hrows).
  fold A0. rewrite <- Hik.
  apply (inv_orig Hfinal); [intros k' Hk'; apply Hall; lia | exact Hk | now apply Hall].
Qed.

(** X11. The contract written above [gaussian_elimination]: over a prime
    modulus, for an [m] by [d1] coefficient matrix whose entries are [0] or
    not divisible by [q] (so for field elements in [[0, q)]), with [m] and
    [d1] below [2^31] (the range of the [int] row and column variables), if
    the system [M e = y (mod q)] has any solution then the returned vector
    satisfies every equation, with or without a pivot. *)
Theorem gaussian_elimination_solves_consistent
    (M : MatrixType) (y : VectorType) (q : Z) (d1 : nat) :
  Z.prime q -> q < two64 ->
  Z.of_nat (length M) < two31 -> Z.of_nat d1 < two31 ->
  (1 <= length M)%nat -> regular_matrix q (length M) d1 M -> Forall u64 y ->
  (exists x, forall i, (i < length M)%nat ->
     dot (nth i M []) x mod q = nth i y 0 mod q) ->
  forall i, (i < length M)%nat ->
    dot (nth i M []) (gaussian_elimination M y q) mod q = nth i y 0 mod q.
Proof.
  intros Hprime Hq Hm31 Hd31 Hm HM Hy [x Hx] i Hi.
  pose proof (Z.prime_ge_2 _ Hprime) as H2.
  assert (Hc : cong q (dot (nth i M []) (gaussian_elimination M y q) - nth i y 0) 0).
  { apply (all_rows_solved M y q d1); try assumption.
    right. exists x. intros r Hr. specialize (Hx r Hr).
    exists ((dot (nth r M []) x) / q - (nth r y 0) / q).
    pose proof (Z.div_mod (dot (nth r M []) x) q ltac:(lia)).
    pose proof (Z.div_mod (nth r y 0) q ltac:(lia)). lia. }
  apply cong_mod_eq; [lia|]. destruct Hc as [z Hz]. exists z. lia.
Qed.

(** X12. Over a prime modulus, for an [m] by [d1] coefficient matrix
    whose entries are [0] or not divisible by [q] (so for field elements in
    [[0, q)]), with [d1] below [2^31] (the range of the [int] row and
    column variables): when every row receives a pivot (then [m <= d1]),
    the returned vector satisfies every equation of the system. *)
Theorem gaussian_elimination_solves_full_rank
    (M : MatrixType) (y : VectorType) (q : Z) (d1 : nat) :
  Z.prime q -> q < two64 -> Z.of_nat d1 < two31 ->
  (1 <= length M)%nat -> regular_matrix q (length M) d1 M -> Forall u64 y ->
  pivots_assigned M y q = length M ->
  forall i, (i < length M)%nat ->
    dot (nth i M []) (gaussian_elimination M y q) mod q = nth i y 0 mod q.
Proof.
  intros Hprime Hq Hd31 Hm HM Hy Hfull i Hi.
  pose proof (Z.prime_ge_2 _ Hprime) as H2.
  assert (Hm31 : Z.of_nat (length M) < two31).
  { pose proof (pivots_assigned_le_columns M y q) as Hle.
    destruct HM as (_ & Hrows & _). rewrite (Hrows 0%nat) in Hle by lia. lia. }
  assert (Hc : cong q (dot (nth i M []) (gaussian_elimination M y q) - nth i y 0) 0)
    by (apply (all_rows_solved M y q d1); try assumption; now left).
  apply cong_mod_eq; [lia|]. destruct Hc as [z Hz]. exists z. lia.
Qed.

Lemma field_matrix_2x2_example : field_matrix 7 2 2 [[1; 1]; [2; 2]].
Proof.
  split; [reflexivity|]. split.
  - intros i Hi. destruct i as [|[|i]]; simpl; lia.
  - intros i j Hi Hj.
    destruct i as [|[|i]]; [| |lia]; destruct j as [|[|j]]; simpl; lia.
Qed.

Lemma gaussian_elimination_solves_consistent_witness :
  pivots_assigned [[1; 1]; [2; 2]] [3; 6] 7 = 1%nat /\
  dot (nth 1%nat [[1; 1]; [2; 2]] []) (gaussian_elimination [[1; 1]; [2; 2]] [3; 6] 7) mod 7
  = nth 1%nat [3; 6] 0 mod 7.
Proof.
  split; [reflexivity|].
  apply (gaussian_elimination_solves_consistent [[1; 1]; [2; 2]] [3; 6] 7 2 prime_7).
  - reflexivity.
  - reflexivity.
  - reflexivity.
  - simpl; lia.
  - apply field_matrix_regular; [reflexivity | exact field_matrix_2x2_example].
  - repeat constructor; unfold two64; lia.
  - exists [3; 0]. intros i Hi. destruct i as [|[|i]]; [reflexivity | reflexivity |].
    simpl in Hi. lia.
  - simpl; lia.
Defined.

Lemma gaussian_elimination_solves_full_rank_witness :
  dot (nth 1%nat [[2; 1; 0]; [4; 2; 1]; [1; 1; 1]] [])
      (gaussian_elimination [[2; 1; 0]; [4; 2; 1]; [1; 1; 1]] [3; 4; 0] 7) mod 7
  = nth 1%nat [3; 4; 0] 0 mod 7.
Proof.
  apply (gaussian_elimination_solves_full_rank
           [[2; 1; 0]; [4; 2; 1]; [1; 1; 1]] [3; 4; 0] 7 3 prime_7).
  - reflexivity.
  - reflexivity.
  - simpl; lia.
  - apply field_matrix_regular; [reflexivity | exact field_matrix_3x3_example].
  - repeat constructor; unfold two64; lia.
  - reflexivity.
  - simpl; lia.
Defined.

(** ** Further properties of [Matrix] *)

Lemma matrix_sub_spec (q : Z) (r c : nat) (A B : MatrixType) :
  shape r c A ->
  shape r c (matrix_sub A B q) /\
  forall i j, (i < r)%nat -> (j < c)%nat ->
    at2 (matrix_sub A B q) i j = sub_mod (at2 A i j) (at2 B i j) q.
Proof.
  intros [HlA HrA]. unfold matrix_sub. rewrite HlA.
  destruct r as [|r'].
  { rewrite for_range_empty by lia. simpl. split; [split; [reflexivity|]|]; intros; lia. }
  rewrite (HrA 0%nat) by lia. set (r := S r') in *.
  apply (for_range_ind
           (fun k C => shape r c C /\
              forall i j, (i < k)%nat -> (j < c)%nat ->
                at2 C i j = sub_mod (at2 A i j) (at2 B i j) q)
           0 r); [lia| |].
  - split; [apply shape_repeat|]. intros; lia.
  - intros k C Hk [HshC HC].
    destruct (row_loop r c k 0 c
                (fun j _ => sub_mod (at2 A k j) (at2 B k j) q)
                (fun j => sub_mod (at2 A k j) (at2 B k j) q) C)
      as [Hsh' Hat']; [exact HshC | lia | lia | reflexivity |].
    split; [exact Hsh'|]. intros i j Hi Hj. rewrite Hat'.
    destruct (decide _) as [[-> _]|Hn]; [reflexivity|].
    apply HC; [|exact Hj].
    destruct (Nat.eq_dec i k); [exfalso; apply Hn|]; lia.
Qed.

Lemma matrix_sub_field (q : Z) (r c : nat) (A B : MatrixType) :
  0 < q < two64 -> field_matrix q r c A -> field_matrix q r c B ->
  field_matrix q r c (matrix_sub A B q).
Proof.
  intros Hq HA HB.
  destruct (matrix_sub_spec q r c A B (field_matrix_shape _ _ _ _ HA)) as [[Hl Hr] Hat].
  split; [exact Hl|]. split; [exact Hr|]. intros i j Hi Hj.
  fold (at2 (matrix_sub A B q) i j). rewrite Hat by assumption.
  destruct HA as (_ & _ & HA), HB as (_ & _ & HB).
  specialize (HA i j Hi Hj). specialize (HB i j Hi Hj).
  apply sub_mod_range; unfold u64, at2; lia.
Qed.

(** X13. Delta round trip: over [r] by [c] matrices of field elements,
    adding [B] back to [matrix_sub(A, B)] gives [A], subtracting [B] from
    [matrix_add(A, B)] gives [A], and the difference stays a matrix of
    field elements. *)
Theorem matrix_sub_add_round_trip (q : Z) (r c : nat) (A B : MatrixType) :
  0 < q < two64 -> field_matrix q r c A -> field_matrix q r c B ->
  matrix_add (matrix_sub A B q) B q = A /\
  matrix_sub (matrix_add A B q) B q = A /\
  field_matrix q r c (matrix_sub A B q).
Proof.
  intros Hq HA HB.
  pose proof (matrix_sub_field q r c A B Hq HA HB) as HS.
  pose proof (matrix_add_field q r c A B Hq HA HB) as HP.
  destruct (matrix_sub_spec q r c A B (field_matrix_shape _ _ _ _ HA)) as [_ Hsub].
  destruct (matrix_add_spec q r c A B (field_matrix_shape _ _ _ _ HA)) as [_ Hadd].
  destruct (matrix_add_spec q r c (matrix_sub A B q) B (field_matrix_shape _ _ _ _ HS))
    as [Hs1 Hat1].
  destruct (matrix_sub_spec q r c (matrix_add A B q) B (field_matrix_shape _ _ _ _ HP))
    as [Hs2 Hat2].
  pose proof HA as (_ & _ & HAe). pose proof HB as (_ & _ & HBe).
  split; [|split; [|exact HS]].
  - apply (matrix_ext r c); [exact Hs1 | now apply (field_matrix_shape q) |].
    intros i j Hi Hj. rewrite Hat1, Hsub by assumption.
    specialize (HAe i j Hi Hj). specialize (HBe i j Hi Hj).
    fold (at2 A i j) in HAe. fold (at2 B i j) in HBe.
    pose proof (Z.mod_pos_bound (at2 A i j - at2 B i j) q ltac:(lia)).
    rewrite sub_mod_eq by (unfold u64; lia).
    rewrite add_mod_eq by (unfold u64; lia).
    rewrite Z.add_mod_idemp_l by lia.
    replace (at2 A i j - at2 B i j + at2 B i j) with (at2 A i j) by ring.
    apply Z.mod_small. lia.
  - apply (matrix_ext r c); [exact Hs2 | now apply (field_matrix_shape q) |].
    intros i j Hi Hj. rewrite Hat2, Hadd by assumption.
    specialize (HAe i j Hi Hj). specialize (HBe i j Hi Hj).
    fold (at2 A i j) in HAe. fold (at2 B i j) in HBe.
    pose proof (Z.mod_pos_bound (at2 A i j + at2 B i j) q ltac:(lia)).
    rewrite add_mod_eq by (unfold u64; lia).
    rewrite sub_mod_eq by (unfold u64; lia).
    rewrite Zminus_mod_idemp_l.
    replace (at2 A i j + at2 B i j - at2 B i j) with (at2 A i j) by ring.
    apply Z.mod_small. lia.
Qed.

Lemma matrix_sub_add_round_trip_witness :
  matrix_add (matrix_sub [[1; 2]] [[4; 4]] 5) [[4; 4]] 5 = [[1; 2]].
Proof.
  destruct (matrix_sub_add_round_trip 5 1 2 [[1; 2]] [[4; 4]]) as [H _];
    [unfold two64; lia | apply field_matrix_1x2; lia | apply field_matrix_1x2; lia |].
  exact H.
Defined.

(** X14. [zero_matrix(r, c)] is a matrix of field elements and the neutral
    element of [matrix_add] on [r] by [c] matrices of field elements, on
    both sides; subtracting a matrix from itself gives it back. *)
Theorem zero_matrix_neutral (q : Z) (r c : nat) (A : MatrixType) :
  0 < q < two64 -> field_matrix q r c A ->
  field_matrix q r c (zero_matrix r c) /\
  matrix_add (zero_matrix r c) A q = A /\
  matrix_add A (zero_matrix r c) q = A /\
  matrix_sub A A q = zero_matrix r c.
Proof.
  intros Hq HA. unfold zero_matrix.
  pose proof (zero_matrix_field q r c ltac:(lia)) as HZ.
  split; [exact HZ|]. split; [now apply matrix_add_zero_l|]. split.
  - rewrite (matrix_add_comm q r c A _ HA HZ). now apply matrix_add_zero_l.
  - destruct (matrix_sub_spec q r c A A (field_matrix_shape _ _ _ _ HA)) as [Hs Hat].
    apply (matrix_ext r c); [exact Hs | apply shape_repeat |].
    intros i j Hi Hj. rewrite Hat by assumption.
    destruct HA as (_ & _ & HA). specialize (HA i j Hi Hj). fold (at2 A i j) in HA.
    rewrite sub_mod_eq by (unfold u64; lia). rewrite Z.sub_diag.
    unfold at2. rewrite nth_repeat_lt by exact Hi. rewrite nth_repeat_lt by exact Hj.
    apply Z.mod_0_l. lia.
Qed.

Lemma zero_matrix_neutral_witness :
  matrix_add (zero_matrix 1 2) [[1; 2]] 5 = [[1; 2]] /\
  matrix_sub [[1; 2]] [[1; 2]] 5 = zero_matrix 1 2.
Proof.
  destruct (zero_matrix_neutral 5 1 2 [[1; 2]]) as (_ & H1 & _ & H2);
    [unfold two64; lia | apply field_matrix_1x2; lia |].
  split; [exact H1 | exact H2].
Defined.

Lemma transpose_spec (r c : nat) (M : MatrixType) :
  (1 <= r)%nat -> shape r c M ->
  shape c r (transpose M) /\
  forall i j, (i < r)%nat -> (j < c)%nat -> at2 (transpose M) j i = at2 M i j.
Proof.
  intros Hr [Hl Hrows]. unfold transpose. rewrite Hl, (Hrows 0%nat) by lia.
  apply (for_range_ind
           (fun k MT => shape c r MT /\
              forall i j, (i < k)%nat -> (j < c)%nat -> at2 MT j i = at2 M i j)
           0 r); [lia| |].
  - split; [apply shape_repeat|]. intros; lia.
  - intros k MT Hk [Hsh Hdone].
    assert (Hinner :
              shape c r (for_range 0 c (fun j MT' => set2 MT' j k (at2 M k j)) MT) /\
              (forall i j, (i < k)%nat -> (j < c)%nat ->
                 at2 (for_range 0 c (fun j MT' => set2 MT' j k (at2 M k j)) MT) j i
                 = at2 M i j) /\
              (forall j, (j < c)%nat ->
                 at2 (for_range 0 c (fun j MT' => set2 MT' j k (at2 M k j)) MT) j k
                 = at2 M k j)).
    { apply (for_range_ind
               (fun l MT' => shape c r MT' /\
                  (forall i j, (i < k)%nat -> (j < c)%nat -> at2 MT' j i = at2 M i j) /\
                  (forall j, (j < l)%nat -> at2 MT' j k = at2 M k j))
               0 c); [lia| |].
      - split; [exact Hsh|]. split; [exact Hdone|]. intros; lia.
      - intros l MT' Hl' (Hsh' & Hold & Hnew).
        split; [now apply shape_set2|]. split.
        + intros i j Hi Hj. rewrite at2_set2_ne by lia. now apply Hold.
        + intros j Hj. destruct (Nat.eq_dec j l) as [->|Hne].
          * now rewrite (at2_set2_eq c r) by (assumption || lia).
          * rewrite at2_set2_ne by lia. apply Hnew. lia. }
    destruct Hinner as (Hsh' & Hold & Hnew). split; [exact Hsh'|].
    intros i j Hi Hj. destruct (Nat.eq_dec i k) as [->|Hne].
    + now apply Hnew.
    + apply Hold; lia.
Qed.

(** X15. [transpose] of an [r] by [c] matrix ([r >= 1]) is the [c] by [r]
    matrix with [MT[j][i] = M[i][j]]; transposing twice gives the matrix
    back when [c >= 1], while a matrix with no columns is transposed to the
    empty matrix and its row count is lost. *)
Theorem transpose_involutive (r c : nat) (M : MatrixType) :
  (1 <= r)%nat -> shape r c M ->
  length (transpose M) = c /\
  (forall i j, (i < r)%nat -> (j < c)%nat ->
     nth i (nth j (transpose M) []) 0 = nth j (nth i M []) 0) /\
  ((1 <= c)%nat -> transpose (transpose M) = M) /\
  (c = 0%nat -> transpose M = []).
Proof.
  intros Hr Hsh. destruct (transpose_spec r c M Hr Hsh) as [Hsh' Hat'].
  split; [apply Hsh'|]. split; [exact Hat'|]. split.
  - intros Hc. destruct (transpose_spec c r (transpose M) Hc Hsh') as [Hsh2 Hat2].
    apply (matrix_ext r c); [exact Hsh2 | exact Hsh |].
    intros i j Hi Hj. rewrite Hat2 by assumption. now apply Hat'.
  - intros ->. apply length_zero_iff_nil. apply Hsh'.
Qed.

Lemma transpose_involutive_witness :
  transpose (transpose [[1; 2; 3]; [4; 5; 6]]) = [[1; 2; 3]; [4; 5; 6]].
Proof.
  destruct (transpose_involutive 2 3 [[1; 2; 3]; [4; 5; 6]]) as (_ & _ & H & _).
  - lia.
  - split; [reflexivity|]. intros i Hi. destruct i as [|[|i]]; simpl; lia.
  - apply H. lia.
Defined.

(** *** Products *)

Lemma u64_entries (M : MatrixType) :
  Forall (Forall u64) M -> forall i j, u64 (at2 M i j).
Proof.
  intros HM i j. unfold at2.
  assert (Hz : u64 0) by (unfold u64, two64; lia).
  destruct (Nat.lt_ge_cases i (length M)) as [Hi|Hi].
  - pose proof (proj1 (Forall_nth (Forall u64) [] M) HM i Hi) as Hrow.
    destruct (Nat.lt_ge_cases j (length (nth i M []))) as [Hj|Hj].
    + now apply (Forall_nth u64 0).
    + now rewrite nth_overflow by exact Hj.
  - rewrite (nth_overflow M) by exact Hi. now destruct j.
Qed.

(** The accumulation loop shared by the two products. *)
Lemma product_sum_loop (q : Z) (m : nat) (f g : nat -> Z) :
  0 < q < two64 ->
  (forall i, (i < m)%nat -> u64 (f i) /\ u64 (g i)) ->
  for_range 0 m (fun i sum => add_mod sum (mul_mod (f i) (g i) q) q) 0 =
  zsum (fun i => f i * g i) 0 m mod q.
Proof.
  intros Hq Hfg.
  apply (for_range_ind
           (fun k s => s = zsum (fun i => f i * g i) 0 k mod q) 0 m); [lia| |].
  - simpl. symmetry. apply Z.mod_0_l. lia.
  - intros k s Hk ->. destruct (Hfg k ltac:(lia)) as [Hf Hg].
    pose proof (Z.mod_pos_bound (zsum (fun i => f i * g i) 0 k) q ltac:(lia)).
    pose proof (Z.mod_pos_bound (f k * g k) q ltac:(lia)).
    rewrite mul_mod_eq by assumption.
    rewrite add_mod_eq by (unfold u64; lia).
    rewrite <- Z.add_mod by lia.
    replace (S k) with (k + 1)%nat by lia. rewrite zsum_app. simpl.
    now rewrite Z.add_0_r.
Qed.

Lemma vector_matrix_multiply_loop (v : VectorType) (M : MatrixType) (q : Z) :
  length v = length M ->
  length (vector_matrix_multiply v M q) = length (nth 0%nat M []) /\
  forall j, (j < length (nth 0%nat M []))%nat ->
    nth j (vector_matrix_multiply v M q) 0 =
    for_range 0 (length M)
      (fun i sum => add_mod sum (mul_mod (nth i v 0) (at2 M i j) q) q) 0.
Proof.
  intros Hlen. unfold vector_matrix_multiply.
  rewrite Hlen, Nat.eqb_refl. cbn [negb].
  set (n := length (nth 0%nat M [])).
  apply (for_range_ind
           (fun k res => length res = n /\
              forall j, (j < k)%nat ->
                nth j res 0 =
                for_range 0 (length M)
                  (fun i sum => add_mod sum (mul_mod (nth i v 0) (at2 M i j) q) q) 0)
           0 n); [lia| |].
  - split; [apply repeat_length|]. intros; lia.
  - intros k res Hk [Hl Hres]. split; [now rewrite length_insert|].
    intros j Hj. rewrite nth_insert by lia.
    destruct (Nat.eq_dec k j) as [->|Hne]; [reflexivity|]. apply Hres. lia.
Qed.

(** X16. [vector_matrix_multiply(v, M, q)] returns the empty vector when the
    size of [v] is not the number of rows of [M]; otherwise it has one
    entry per column of [M], and for 64-bit entries entry [j] is the sum of
    [v[i] * M[i][j]] over the rows, reduced modulo [q]. *)
Theorem vector_matrix_multiply_spec (v : VectorType) (M : MatrixType) (q : Z) :
  0 < q < two64 -> Forall u64 v -> Forall (Forall u64) M ->
  (length v <> length M -> vector_matrix_multiply v M q = []) /\
  (length v = length M ->
   length (vector_matrix_multiply v M q) = length (nth 0%nat M []) /\
   forall j, (j < length (nth 0%nat M []))%nat ->
     nth j (vector_matrix_multiply v M q) 0 =
     zsum (fun i => nth i v 0 * at2 M i j) 0 (length M) mod q).
Proof.
  intros Hq Hv HM0. pose proof (u64_entries M HM0) as HM. split.
  - intros Hne. unfold vector_matrix_multiply.
    destruct (Nat.eqb_spec (length v) (length M)); [contradiction|reflexivity].
  - intros Hlen. destruct (vector_matrix_multiply_loop v M q Hlen) as [Hl Hat].
    split; [exact Hl|]. intros j Hj. rewrite Hat by exact Hj.
    apply product_sum_loop; [exact Hq|]. intros i Hi. split; [|apply HM].
    apply (Forall_nth u64 0 v); [exact Hv|lia].
Qed.

Lemma vector_matrix_multiply_spec_witness :
  vector_matrix_multiply [1; 2; 3] [[1; 2]; [3; 4]] 7 = [] /\
  nth 1%nat (vector_matrix_multiply [5; 6] [[1; 2]; [3; 4]] 7) 0
  = zsum (fun i => nth i [5; 6] 0 * at2 [[1; 2]; [3; 4]] i 1) 0 2 mod 7.
Proof.
  assert (Hu : forall z, 0 <= z < 10 -> u64 z) by (unfold u64, two64; lia).
  assert (HM : Forall (Forall u64) [[1; 2]; [3; 4]])
    by (repeat constructor; apply Hu; lia).
  destruct (vector_matrix_multiply_spec [1; 2; 3] [[1; 2]; [3; 4]] 7) as [H1 _];
    [unfold two64; lia | repeat constructor; apply Hu; lia | exact HM |].
  destruct (vector_matrix_multiply_spec [5; 6] [[1; 2]; [3; 4]] 7) as [_ H2];
    [unfold two64; lia | repeat constructor; apply Hu; lia | exact HM |].
  split; [apply H1; simpl; lia|].
  destruct (H2 eq_refl) as [_ H3]. apply (H3 1%nat). simpl; lia.
Defined.

Lemma one_hot_length (n k : nat) : length (one_hot n k) = n.
Proof. unfold one_hot. now rewrite length_map, length_seq. Qed.

Lemma one_hot_nth (n k i : nat) :
  (i < n)%nat -> nth i (one_hot n k) 0 = if Nat.eq_dec i k then 1 else 0.
Proof.
  intros Hi. unfold one_hot.
  rewrite (nth_indep _ 0 ((fun i => if Nat.eq_dec i k then 1 else 0) 0%nat))
    by (now rewrite length_map, length_seq).
  rewrite (map_nth (fun i => if Nat.eq_dec i k then 1 else 0)).
  now rewrite seq_nth.
Qed.

Lemma zsum_single (f : nat -> Z) (lo n k : nat) :
  (lo <= k < lo + n)%nat ->
  (forall i, (lo <= i < lo + n)%nat -> i <> k -> f i = 0) ->
  zsum f lo n = f k.
Proof.
  revert lo. induction n as [|n IH]; intros lo Hk Hz; [lia|].
  simpl. destruct (Nat.eq_dec lo k) as [->|Hne].
  - rewrite zsum_zero; [ring|]. intros i Hi. apply Hz; lia.
  - rewrite (Hz lo) by lia. rewrite IH; [ring|lia|].
    intros i Hi. apply Hz. lia.
Qed.

(** X17. A one-hot selection vector retrieves a row: for an [r] by [c]
    matrix of field elements and [k < r],
    [vector_matrix_multiply(one_hot, M, q)] is row [k] of [M]. *)
Theorem one_hot_selects_row (q : Z) (r c k : nat) (M : MatrixType) :
  0 < q < two64 -> field_matrix q r c M -> (k < r)%nat ->
  vector_matrix_multiply (one_hot r k) M q = nth k M [].
Proof.
  intros Hq (Hl & Hrows & Hfield) Hk.
  assert (Hlen : length (one_hot r k) = length M)
    by (now rewrite one_hot_length, Hl).
  destruct (vector_matrix_multiply_loop (one_hot r k) M q Hlen) as [Hlr Hat].
  rewrite (Hrows 0%nat) in Hlr, Hat by lia.
  apply (nth_ext _ _ 0 0); [rewrite Hlr, Hrows; trivial|].
  intros j Hj. rewrite Hlr in Hj. rewrite Hat by exact Hj. rewrite Hl.
  rewrite (product_sum_loop q r (fun i => nth i (one_hot r k) 0) (fun i => at2 M i j) Hq).
  - rewrite (zsum_single _ 0 r k).
    2:{ lia. }
    2:{ intros i Hi Hne. rewrite one_hot_nth by lia.
        destruct (Nat.eq_dec i k); [contradiction|ring]. }
    rewrite one_hot_nth by exact Hk.
    destruct (Nat.eq_dec k k); [|contradiction].
    rewrite Z.mul_1_l. apply Z.mod_small. now apply Hfield.
  - intros i Hi. rewrite one_hot_nth by exact Hi.
    pose proof (Hfield i j Hi Hj) as Hb. fold (at2 M i j) in Hb.
    unfold u64, two64 in *. destruct (Nat.eq_dec i k); lia.
Qed.

Lemma one_hot_selects_row_witness :
  vector_matrix_multiply (one_hot 3 2) [[2; 1; 0]; [4; 2; 1]; [1; 1; 1]] 7
  = nth 2%nat [[2; 1; 0]; [4; 2; 1]; [1; 1; 1]] [].
Proof.
  apply (one_hot_selects_row 7 3 3 2);
    [unfold two64; lia | exact field_matrix_3x3_example | lia].
Defined.

Lemma matrix_multiply_loop (A B : MatrixType) (q : Z) (n m : nat) :
  (1 <= n)%nat -> shape n m A ->
  shape n (length (nth 0%nat B [])) (matrix_multiply A B q) /\
  forall i j, (i < n)%nat -> (j < length (nth 0%nat B []))%nat ->
    at2 (matrix_multiply A B q) i j =
    for_range 0 m
      (fun l sum => add_mod sum (mul_mod (at2 A i l) (at2 B l j) q) q) 0.
Proof.
  intros Hn [Hl Hrows]. unfold matrix_multiply. rewrite Hl, (Hrows 0%nat) by lia.
  set (k := length (nth 0%nat B [])).
  apply (for_range_ind
           (fun r C => shape n k C /\
              forall i j, (i < r)%nat -> (j < k)%nat ->
                at2 C i j =
                for_range 0 m
                  (fun l sum => add_mod sum (mul_mod (at2 A i l) (at2 B l j) q) q) 0)
           0 n); [lia| |].
  - split; [apply shape_repeat|]. intros; lia.
  - intros r C Hr [HshC HC].
    destruct (row_loop n k r 0 k
                (fun j _ => for_range 0 m
                   (fun l sum => add_mod sum (mul_mod (at2 A r l) (at2 B l j) q) q) 0)
                (fun j => for_range 0 m
                   (fun l sum => add_mod sum (mul_mod (at2 A r l) (at2 B l j) q) q) 0)
                C)
      as [Hsh' Hat']; [exact HshC | lia | lia | reflexivity |].
    split; [exact Hsh'|]. intros i j Hi Hj. rewrite Hat'.
    destruct (decide _) as [[-> _]|Hne]; [reflexivity|].
    apply HC; [|exact Hj].
    destruct (Nat.eq_dec i r); [exfalso; apply Hne|]; lia.
Qed.

(** X18. [matrix_multiply(A, B, q)] of an [n] by [m] matrix [A] ([n >= 1])
    with a matrix [B] of [k] columns is [n] by [k], and for 64-bit entries
    entry [(i, j)] is the sum of [A[i][l] * B[l][j]] over [l < m], reduced
    modulo [q]. *)
Theorem matrix_multiply_spec (A B : MatrixType) (q : Z) (n m : nat) :
  0 < q < two64 -> (1 <= n)%nat -> shape n m A ->
  Forall (Forall u64) A -> Forall (Forall u64) B ->
  length (matrix_multiply A B q) = n /\
  forall i j, (i < n)%nat -> (j < length (nth 0%nat B []))%nat ->
    length (nth i (matrix_multiply A B q) []) = length (nth 0%nat B []) /\
    nth j (nth i (matrix_multiply A B q) []) 0 =
    zsum (fun l => nth l (nth i A []) 0 * nth j (nth l B []) 0) 0 m mod q.
Proof.
  intros Hq Hn Hsh HA HB.
  destruct (matrix_multiply_loop A B q n m Hn Hsh) as [[Hl Hrows] Hat].
  split; [exact Hl|]. intros i j Hi Hj. split; [now apply Hrows|].
  fold (at2 (matrix_multiply A B q) i j). rewrite Hat by assumption.
  apply (product_sum_loop q m (fun l => at2 A i l) (fun l => at2 B l j) Hq).
  intros l _. split; now apply u64_entries.
Qed.

Lemma matrix_multiply_spec_witness :
  nth 1%nat (nth 0%nat (matrix_multiply [[1; 2]] [[3; 4]; [5; 6]] 7) []) 0
  = zsum (fun l => nth l (nth 0%nat [[1; 2]] []) 0 * nth 1%nat (nth l [[3; 4]; [5; 6]] []) 0)
      0 2 mod 7.
Proof.
  assert (Hu : forall z, 0 <= z < 10 -> u64 z) by (unfold u64, two64; lia).
  destruct (matrix_multiply_spec [[1; 2]] [[3; 4]; [5; 6]] 7 1 2) as [_ H].
  - unfold two64; lia.
  - lia.
  - split; [reflexivity|]. intros i Hi. destruct i; [reflexivity|lia].
  - repeat constructor; apply Hu; lia.
  - repeat constructor; apply Hu; lia.
  - apply (H 0%nat 1%nat); simpl; lia.
Defined.

(** X19. [matrix_multiply] is [vector_matrix_multiply] row by row: when the
    width of [A] is the number of rows of [B], row [i] of the product is
    [vector_matrix_multiply(A[i], B, q)], for every modulus and every
    entries. *)
Theorem matrix_multiply_rows (A B : MatrixType) (q : Z) (n m : nat) :
  (1 <= n)%nat -> shape n m A -> length B = m ->
  forall i, (i < n)%nat ->
    nth i (matrix_multiply A B q) [] = vector_matrix_multiply (nth i A []) B q.
Proof.
  intros Hn Hsh HB i Hi.
  destruct (matrix_multiply_loop A B q n m Hn Hsh) as [[Hl Hrows] Hat].
  assert (Hlen : length (nth i A []) = length B)
    by (rewrite HB; now apply Hsh).
  destruct (vector_matrix_multiply_loop (nth i A []) B q Hlen) as [Hlv Hatv].
  apply (nth_ext _ _ 0 0); [rewrite Hlv; now apply Hrows|].
  intros j Hj. rewrite Hrows in Hj by exact Hi.
  fold (at2 (matrix_multiply A B q) i j).
  rewrite Hat, Hatv by assumption. now rewrite HB.
Qed.

Lemma matrix_multiply_rows_witness :
  nth 0%nat (matrix_multiply [[1; 2]] [[3; 4]; [5; 6]] 7) []
  = vector_matrix_multiply (nth 0%nat [[1; 2]] []) [[3; 4]; [5; 6]] 7.
Proof.
  apply (matrix_multiply_rows [[1; 2]] [[3; 4]; [5; 6]] 7 1 2); try lia.
  - split; [reflexivity|]. intros i Hi. destruct i; [reflexivity|lia].
  - reflexivity.
Defined.

(** X20. Transposition reverses a product: for an [n] by [m] matrix [A]
    and an [m] by [k] matrix [B] with [n, m, k >= 1],
    [transpose(A B) = transpose(B) transpose(A)], entry for entry and
    for every modulus. *)
Theorem transpose_matrix_multiply (A B : MatrixType) (q : Z) (n m k : nat) :
  (1 <= n)%nat -> (1 <= m)%nat -> (1 <= k)%nat ->
  shape n m A -> shape m k B ->
  transpose (matrix_multiply A B q) = matrix_multiply (transpose B) (transpose A) q.
Proof.
  intros Hn Hm Hk HA HB.
  assert (HkB : length (nth 0%nat B []) = k) by (apply HB; lia).
  destruct (matrix_multiply_loop A B q n m Hn HA) as [HshC HatC].
  rewrite HkB in HshC, HatC.
  destruct (transpose_spec n k (matrix_multiply A B q) Hn HshC) as [HshL HatL].
  destruct (transpose_spec m k B Hm HB) as [HshBT HatBT].
  destruct (transpose_spec n m A Hn HA) as [HshAT HatAT].
  assert (HnAT : length (nth 0%nat (transpose A) []) = n) by (apply HshAT; lia).
  destruct (matrix_multiply_loop (transpose B) (transpose A) q k m Hk HshBT)
    as [HshR HatR].
  rewrite HnAT in HshR, HatR.
  apply (matrix_ext k n); [exact HshL | exact HshR |].
  intros j i Hj Hi. rewrite HatL, HatC, HatR by assumption.
  apply for_range_ext. intros l s Hl.
  rewrite HatBT, HatAT by (assumption || lia).
  unfold mul_mod. now rewrite Z.mul_comm.
Qed.

Lemma transpose_matrix_multiply_witness :
  transpose (matrix_multiply [[1; 2]] [[3; 4]; [5; 6]] 7)
  = matrix_multiply (transpose [[3; 4]; [5; 6]]) (transpose [[1; 2]]) 7.
Proof.
  apply (transpose_matrix_multiply [[1; 2]] [[3; 4]; [5; 6]] 7 1 2 2); try lia.
  - split; [reflexivity|]. intros i Hi. destruct i; [reflexivity|lia].
  - split; [reflexivity|]. intros i Hi. destruct i as [|[|i]]; simpl; lia.
Defined.

(** ** Derived parameters *)

Lemma andb_spec_lt (c lo hi r : Z) :
  (if (lo <=? c) && (c <? hi) then Some c else None) = Some r -> lo <= r < hi.
Proof.
  destruct (Z.leb_spec lo c), (Z.ltb_spec c hi); simpl; try discriminate.
  intros [= <-]. lia.
Qed.

(** [size_of_ceil] is the ceiling of the value of its argument. *)
Lemma size_of_ceil_value (x : PrimFloat.float) (c : Z) (v : QArith_base.Q) :
  Config.size_of_ceil x = Some c -> Config.double_value x = Some v ->
  c = Qround.Qceiling v.
Proof.
  unfold Config.size_of_ceil, Config.double_value.
  destruct (FloatOps.Prim2SF x) as [s| | |s m e]; try discriminate.
  - intros [= <-] [= <-]. reflexivity.
  - set (z := if s then Z.neg m else Z.pos m).
    destruct (Z.leb_spec 0 e) as [He|He].
    + destruct (_ && _); [|discriminate]. intros [= <-] [= <-].
      unfold Qround.Qceiling, Qround.Qfloor, QArith_base.Qopp, QArith_base.inject_Z.
      cbn [QArith_base.Qnum QArith_base.Qden]. rewrite Z.div_1_r. lia.
    + destruct (_ && _); [|discriminate]. intros [= <-] [= <-].
      unfold Qround.Qceiling, Qround.Qfloor, QArith_base.Qopp.
      cbn [QArith_base.Qnum QArith_base.Qden].
      rewrite Z2Pos.id by (apply Z.pow_pos_nonneg; lia). reflexivity.
Qed.

(** C4, as stated, fails at [expansion_factor = 0.1], [dataset_size = 100],
    [num_clients = 1], [partition_size = 1].  The sum [1.0 + 0.1] and the
    product by [100.0] are rounded to binary64, the quotient is
    [110.00000000000001] and its ceiling [111], where the formula gives
    [ceil(1.1 * 100) = 110].  With [dataset_size = 10] the product rounds
    down to [11.0] and the count is [11], where the formula on the stored
    value of the factor (a little above one tenth) gives [12]; with
    [dataset_size = 2^53 + 1] and a zero factor the conversion to [double]
    drops the last bit.  The fold size is what [std::pow] returns for [b]
    and [1.0 / z], stored in a [double]: no ceiling is taken. *)
Lemma partition_count_rounding :
  Config.double_value Config.tenth
  = Some (QArith_base.Qmake 7205759403792794 (2 ^ 56)) /\
  (forall pow,
     option_map Config.num_partitions
       (Config.compute_derived_params pow (Config.configuration Config.tenth 100 1 1 2))
     = Some 111) /\
  Config.partition_formula (QArith_base.Qmake 1 10) 100 1 1 = 110 /\
  (forall pow,
     option_map Config.num_partitions
       (Config.compute_derived_params pow (Config.configuration Config.tenth 10 1 1 2))
     = Some 11) /\
  Config.partition_formula (QArith_base.Qmake 7205759403792794 (2 ^ 56)) 10 1 1 = 12 /\
  (forall pow,
     option_map Config.num_partitions
       (Config.compute_derived_params pow
          (Config.configuration (Config.double_of_size 0) (2 ^ 53 + 1) 1 1 2))
     = Some (2 ^ 53)) /\
  Config.partition_formula (QArith_base.inject_Z 0) (2 ^ 53 + 1) 1 1 = 2 ^ 53 + 1 /\
  (forall pow,
     option_map Config.pir_fold_size
       (Config.compute_derived_params pow (Config.configuration Config.tenth 100 1 1 2))
     = Some (pow (Config.double_of_size 111) (Config.fold_exponent 2))).
Proof.
  split; [reflexivity|].
  split; [intros pow; reflexivity|].
  split; [reflexivity|].
  split; [intros pow; reflexivity|].
  split; [reflexivity|].
  split; [intros pow; reflexivity|].
  split; [reflexivity|].
  intros pow. reflexivity.
Qed.

(** X22. The three presets: the partition counts that
    [compute_derived_params] stores for the default, test and performance
    configurations are [1536], [29] and [61440], the values of the formula
    [ceil((1 + 0.2) * dataset_size * num_clients / partition_size)]; the
    performance preset has [52428] updates. *)
Theorem preset_partition_counts (pow : PrimFloat.float -> PrimFloat.float -> PrimFloat.float) :
  option_map Config.num_partitions (Config.get_default_config pow) = Some 1536 /\
  Config.partition_formula (QArith_base.Qmake 2 10) (2 ^ 16) 10 512 = 1536 /\
  option_map Config.num_partitions (Config.get_test_config pow) = Some 29 /\
  Config.partition_formula (QArith_base.Qmake 2 10) 1024 3 128 = 29 /\
  option_map Config.num_partitions (Config.get_performance_config pow) = Some 61440 /\
  Config.partition_formula (QArith_base.Qmake 2 10) (2 ^ 20) 50 1024 = 61440 /\
  option_map Config.num_updates (Config.get_performance_config pow) = Some 52428.
Proof. repeat split; reflexivity. Qed.

(** C4, as the code has it.  Whenever [compute_derived_params] recomputes
    the derived parameters, the partition count [b] is the ceiling of the
    binary64 value of [(1.0 + epsilon) * dataset_size * num_clients /
    partition_size], every operation rounded to nearest, a 64-bit value;
    it is the [b] of the formula for every [epsilon] at which that value
    is the quotient of the formula.
    The fold size is the [double] that [std::pow] returns for [b] and
    [1.0 / z], with no ceiling; the ten configured parameters are kept. *)
Theorem compute_derived_params_stores
    (pow : PrimFloat.float -> PrimFloat.float -> PrimFloat.float)
    (cfg cfg' : Config.ExperimentConfig) (v : QArith_base.Q) :
  Config.compute_derived_params pow cfg = Some cfg' ->
  Config.double_value (Config.partition_quotient cfg) = Some v ->
  Config.num_partitions cfg' = Qround.Qceiling v /\
  (forall epsilon : QArith_base.Q,
     QArith_base.Qeq v
       (Config.partition_ratio epsilon (Config.dataset_size cfg) (Config.num_clients cfg)
          (Config.partition_size cfg)) ->
     Config.num_partitions cfg'
     = Config.partition_formula epsilon (Config.dataset_size cfg) (Config.num_clients cfg)
         (Config.partition_size cfg)) /\
  u64 (Config.num_partitions cfg') /\
  Config.pir_fold_size cfg'
  = pow (Config.double_of_size (Config.num_partitions cfg'))
      (Config.fold_exponent (Config.pir_dimension cfg)) /\
  Config.num_clients cfg' = Config.num_clients cfg /\
  Config.dataset_size cfg' = Config.dataset_size cfg /\
  Config.num_updates cfg' = Config.num_updates cfg /\
  Config.num_queries cfg' = Config.num_queries cfg /\
  Config.partition_size cfg' = Config.partition_size cfg /\
  Config.expansion_factor cfg' = Config.expansion_factor cfg /\
  Config.pir_dimension cfg' = Config.pir_dimension cfg /\
  Config.lwe_dimension cfg' = Config.lwe_dimension cfg /\
  Config.modulus cfg' = Config.modulus cfg /\
  Config.band_width cfg' = Config.band_width cfg.
Proof.
  unfold Config.compute_derived_params. intros Hc Hv.
  destruct (Config.size_of_ceil (Config.partition_quotient cfg)) as [b|] eqn:Hb;
    [|discriminate].
  injection Hc as <-. cbn.
  assert (Hceil : b = Qround.Qceiling v)
    by now apply (size_of_ceil_value (Config.partition_quotient cfg)).
  split; [exact Hceil|].
  split.
  { intros epsilon Heq. unfold Config.partition_formula. rewrite Hceil.
    now apply Qround.Qceiling_comp. }
  split; [|repeat split; reflexivity].
  unfold Config.size_of_ceil in Hb.
  destruct (FloatOps.Prim2SF (Config.partition_quotient cfg)) as [s| | |s m e];
    try discriminate.
  - injection Hb as <-. unfold u64, two64. lia.
  - apply andb_spec_lt in Hb. unfold u64. lia.
Qed.

(** At [expansion_factor = 0.1] and [dataset_size = 100] the count is the
    ceiling of the rounded quotient; with [dataset_size = 10] the binary64
    quotient is [11], the quotient of the formula at one tenth, and the
    count is the [11] of the formula.  [std::pow] is taken to be the square
    root, for [z = 2]. *)
Lemma compute_derived_params_stores_witness :
  Config.num_partitions
    (Config.set_derived (Config.configuration Config.tenth 100 1 1 2) 111
       (PrimFloat.sqrt (Config.double_of_size 111)))
  = Qround.Qceiling (QArith_base.Qmake 7740561859543041 (2 ^ 46)) /\
  Qround.Qceiling (QArith_base.Qmake 7740561859543041 (2 ^ 46)) = 111 /\
  Config.num_partitions
    (Config.set_derived (Config.configuration Config.tenth 10 1 1 2) 11
       (PrimFloat.sqrt (Config.double_of_size 11)))
  = Config.partition_formula (QArith_base.Qmake 1 10) 10 1 1.
Proof.
  split; [|split; [reflexivity|]].
  - apply (compute_derived_params_stores (fun x _ => PrimFloat.sqrt x)
             (Config.configuration Config.tenth 100 1 1 2)); reflexivity.
  - destruct (compute_derived_params_stores (fun x _ => PrimFloat.sqrt x)
                (Config.configuration Config.tenth 10 1 1 2)
                (Config.set_derived (Config.configuration Config.tenth 10 1 1 2) 11
                   (PrimFloat.sqrt (Config.double_of_size 11)))
                (QArith_base.Qmake 6192449487634432 (2 ^ 49))) as (_ & H & _).
    + reflexivity.
    + reflexivity.
    + apply (H (QArith_base.Qmake 1 10)). reflexivity.
Defined.

(** ** The range of the [int] counters *)

Lemma back_substitution_skipped (q : Z) (d1 p : nat) (A : MatrixType) :
  to_int (Z.of_nat p) <= 0 \/ to_int (Z.of_nat d1) <= 0 ->
  back_substitution q d1 p A = repeat 0 d1.
Proof.
  intros H. unfold back_substitution.
  replace (Z.to_nat (Z.min (to_int (Z.of_nat p) - 1) (to_int (Z.of_nat d1) - 1) + 1))
    with 0%nat by lia.
  reflexivity.
Qed.




(** ** The modulus [0] *)

Lemma find_pivot_zero (A : MatrixType) (col p m : nat) :
  (forall i, (p <= i < m)%nat -> at2 A i col = 0) -> find_pivot A col p m = None.
Proof.
  intros Hz. unfold find_pivot.
  destruct (find _ _) as [b|] eqn:Hf; [|reflexivity].
  apply find_seq_some in Hf. destruct Hf as [Hb Hnz].
  rewrite Hz in Hnz by lia. discriminate.
Qed.

(** Over columns without a nonzero entry the column loop does nothing, and
    evaluates no reduction. *)
Lemma forward_loop_free (q : Z) (m d1 n col p : nat) (A : MatrixType) :
  (forall c i, (col <= c < col + n)%nat -> (p <= i < m)%nat -> at2 A i c = 0) ->
  for_while_checked (fun st => (fst st <? m)%nat) (forward_step_checked q m d1)
    (seq col n) (p, A) = Some (p, A) /\
  for_while (fun st => (fst st <? m)%nat) (forward_step q m d1) (seq col n) (p, A) = (p, A).
Proof.
  revert col. induction n as [|n IH]; intros col Hz; [split; reflexivity|].
  cbn [seq for_while_checked for_while fst].
  destruct (p <? m)%nat; [|split; reflexivity].
  assert (Hbest : (best_row A col p m =? -1) = true).
  { apply best_row_none, find_pivot_zero. intros i Hi. apply Hz; lia. }
  unfold forward_step_checked, forward_step. rewrite Hbest. cbn [bind].
  apply IH. intros c i Hc Hi. apply Hz; lia.
Qed.

Lemma back_substitution_checked_skipped (q : Z) (d1 p : nat) (A : MatrixType) :
  to_int (Z.of_nat p) <= 0 \/ to_int (Z.of_nat d1) <= 0 ->
  back_substitution_checked q d1 p A = Some (repeat 0 d1).
Proof.
  intros H. unfold back_substitution_checked.
  replace (Z.to_nat (Z.min (to_int (Z.of_nat p) - 1) (to_int (Z.of_nat d1) - 1) + 1))
    with 0%nat by lia.
  reflexivity.
Qed.

(** A system whose coefficients are all zero: no pivot, no reduction, the
    zero vector, for every modulus. *)
Lemma zero_coefficients_solved (M : MatrixType) (y : VectorType) (q : Z) :
  (1 <= length M)%nat ->
  (forall i j, (i < length M)%nat -> (j < length (nth 0%nat M []))%nat -> at2 M i j = 0) ->
  gaussian_elimination_checked M y q = Some (repeat 0 (length (nth 0%nat M []))) /\
  gaussian_elimination M y q = repeat 0 (length (nth 0%nat M [])).
Proof.
  intros Hm Hzero. unfold gaussian_elimination_checked, gaussian_elimination.
  destruct (Nat.eqb_spec (length M) 0) as [?|_]; [lia|].
  set (m := length M) in *. set (d1 := length (nth 0%nat M [])) in *.
  destruct (build_augmented_spec M y m d1) as [_ Hat].
  destruct (forward_loop_free q m d1 d1 0 0 (build_augmented M y m d1)) as [Hc Hp].
  { intros c i Hc Hi. destruct (Hat i ltac:(lia)) as [Hco _].
    rewrite Hco by lia. apply Hzero; lia. }
  unfold forward_elimination_checked, forward_elimination. rewrite Hc, Hp.
  cbn [bind fst snd].
  assert (Hzero_int : to_int (Z.of_nat 0) <= 0) by (vm_compute; discriminate).
  split.
  - apply back_substitution_checked_skipped. now left.
  - apply back_substitution_skipped. now left.
Qed.


(** The system [e = 1, e = 2] over Z_5: elimination leaves the row
    [0 = 1], and the solver returns [[1]]. *)
Example inconsistent_system_solved :
  snd (forward_elimination 5 2 1 (build_augmented [[1]; [1]] [1; 2] 2 1)) = [[1; 1]; [0; 1]] /\
  gaussian_elimination_checked [[1]; [1]] [1; 2] 5 = Some [1].
Proof. split; reflexivity. Qed.



Lemma pivot_step_checked_traps (m d1 col p b : nat) (A : MatrixType) :
  shape m (d1 + 1) A -> (p < m)%nat -> (b < m)%nat -> at2 A b col <> 0 ->
  pivot_step_checked 0 m d1 col p b A = None.
Proof.
  intros Hsh Hp Hb Hnz. unfold pivot_step_checked, normalize_row_checked.
  rewrite (at2_swap_at m (d1 + 1)) by assumption. rewrite transp_same.
  unfold mod_inverse_checked.
  destruct (Z.eqb_spec (at2 A b col) 0) as [?|_]; [contradiction|].
  reflexivity.
Qed.

(** With the modulus [0] the first pivot found traps. *)
Lemma forward_loop_zero_modulus (m d1 n col : nat) (A : MatrixType) :
  shape m (d1 + 1) A -> (0 < m)%nat -> Z.of_nat m < two31 ->
  (exists c i, (col <= c < col + n)%nat /\ (i < m)%nat /\ at2 A i c <> 0) ->
  for_while_checked (fun st => (fst st <? m)%nat) (forward_step_checked 0 m d1)
    (seq col n) (0%nat, A) = None.
Proof.
  intros Hsh Hm Hm31. revert col. induction n as [|n IH]; intros col (c & i & Hc & Hi & Hnz);
    [lia|].
  cbn [seq for_while_checked fst].
  destruct (Nat.ltb_spec 0 m) as [_|?]; [|lia].
  unfold forward_step_checked.
  destruct (find_pivot A col 0 m) as [b|] eqn:Hfind.
  - pose proof (find_pivot_some _ _ _ _ _ Hfind) as [Hb Hbnz].
    destruct (best_row_some A col 0 m b (length A) Hfind ltac:(lia)) as [-> ->].
    now rewrite (pivot_step_checked_traps m d1 col 0 b A) by (assumption || lia).
  - rewrite (best_row_none A col 0 m Hfind). cbn [bind].
    apply IH. exists c, i. split; [|split; assumption].
    destruct (Nat.eq_dec c col) as [->|Hne]; [|lia].
    exfalso. apply Hnz. apply (find_pivot_none A col 0 m); [exact Hfind|lia].
Qed.

(** X24. The modulus [0].  For a system with [1 <= m < 2^31] rows in which
    some coefficient [M[i][j]] ([i < m], [j < d1]) is nonzero,
    [gaussian_elimination(M, y, 0)] divides by zero: up to the first pivot
    no reduction is evaluated, and the inversion of that pivot traps. *)
Theorem zero_modulus_outcome (M : MatrixType) (y : VectorType) :
  (1 <= length M)%nat -> Z.of_nat (length M) < two31 ->
  (exists i j, (i < length M)%nat /\ (j < length (nth 0%nat M []))%nat /\ at2 M i j <> 0) ->
  gaussian_elimination_checked M y 0 = None.
Proof.
  intros Hm Hm31 (i & j & Hi & Hj & Hnz). unfold gaussian_elimination_checked.
  destruct (Nat.eqb_spec (length M) 0) as [?|_]; [lia|].
  set (m := length M) in *. set (d1 := length (nth 0%nat M [])) in *.
  destruct (build_augmented_spec M y m d1) as [Hsh Hat].
  unfold forward_elimination_checked.
  rewrite (forward_loop_zero_modulus m d1 d1 0 _ Hsh); [reflexivity|lia|exact Hm31|].
  exists j, i. split; [lia|]. split; [exact Hi|].
  destruct (Hat i Hi) as [Hco _]. now rewrite Hco by exact Hj.
Qed.

Lemma zero_modulus_outcome_witness :
  gaussian_elimination_checked [[0; 2]; [0; 0]] [1; 1] 0 = None.
Proof.
  apply (zero_modulus_outcome [[0; 2]; [0; 0]] [1; 1]); [simpl; lia | reflexivity |].
  exists 0%nat, 1%nat. split; [simpl; lia|]. split; [simpl; lia|].
  vm_compute. discriminate.
Defined.

(** X25. A system whose coefficients are all zero is passed through for
    every modulus, [0] included: no pivot is found, no reduction is
    evaluated and the solver returns the zero vector, whatever the
    right-hand sides are. *)
Theorem zero_system_returns_zero (M : MatrixType) (y : VectorType) (q : Z) :
  (1 <= length M)%nat ->
  (forall i j, (i < length M)%nat -> (j < length (nth 0%nat M []))%nat -> at2 M i j = 0) ->
  gaussian_elimination_checked M y q = Some (repeat 0 (length (nth 0%nat M []))) /\
  pivots_assigned M y q = 0%nat.
Proof.
  intros Hm Hzero.
  split; [now destruct (zero_coefficients_solved M y q Hm Hzero)|].
  unfold pivots_assigned.
  set (m := length M) in *. set (d1 := length (nth 0%nat M [])) in *.
  destruct (build_augmented_spec M y m d1) as [_ Hat].
  destruct (forward_loop_free q m d1 d1 0 0 (build_augmented M y m d1)) as [_ Hp].
  { intros c i Hc Hi. destruct (Hat i ltac:(lia)) as [Hco _].
    rewrite Hco by lia. apply Hzero; lia. }
  unfold forward_elimination. now rewrite Hp.
Qed.

Lemma zero_system_returns_zero_witness :
  gaussian_elimination_checked [[0; 0]; [0; 0]] [1; 2] 0 = Some (repeat 0 2) /\
  pivots_assigned [[0; 0]; [0; 0]] [1; 2] 0 = 0%nat.
Proof.
  apply (zero_system_returns_zero [[0; 0]; [0; 0]] [1; 2] 0); [simpl; lia|].
  intros i j Hi Hj. simpl in Hi, Hj.
  destruct i as [|[|i]]; [| |lia]; destruct j as [|[|j]]; try reflexivity; lia.
Defined.
